(** * Explicit finite-difference solver for the 1-D heat equation

    Shallow embedding of [heat_eq_fr.py], [heat_equation.py] and
    [stability_analysis.py].

    The Python code computes on numbers through a handful of operations
    (conversion from [int], decimal literals, [+ - * /], [** 2], comparisons,
    [tanh], [ceil]).  These are collected in the interface [Arith]; every
    function of the program is embedded once, over any carrier that
    implements the interface.  Three carriers are provided:
    - [ArithQ]: exact rational arithmetic (executable);
    - [ArithR]: the real numbers, with the real hyperbolic tangent;
    - [ArithF]: IEEE-754 binary64 with round-to-nearest-even, the numbers the
      Python program actually runs on (executable).  Python does not compute
      [x ** 2] itself: it calls the C library's [pow], which need not return
      the nearest float.  The carrier takes that function as a parameter,
      and what is proved over binary64 holds for every [pow] that returns
      one of the two floats enclosing the exact square ([faithful]).

    Arrays are lists; a raised Python exception is [None].  The counts [Nx]
    and [Nt] are natural numbers.  NumPy's [linspace], slicing, broadcasting
    and element-wise arithmetic are library code, embedded here after their
    documented behaviour. *)

From stdpp Require Import base option list gmap.
From Stdlib Require Import ZArith QArith Qminmax Qround Qabs Lia Lqa.
From Stdlib Require Import Reals Lra.
From Stdlib Require Import Floats.

Local Open Scope Z_scope.

(** ** The arithmetic interface *)

Class Arith (F : Type) := {
  (** conversion of a Python [int] *)
  of_int : Z -> F;
  (** a decimal literal such as [0.5] or [0.1] *)
  lit : Q -> F;
  fadd : F -> F -> F;
  fsub : F -> F -> F;
  fmul : F -> F -> F;
  (** the quotient when the divisor is not zero *)
  fdiv : F -> F -> F;
  (** [x == 0], the test behind [ZeroDivisionError] *)
  is_zero : F -> bool;
  (** [x <= y] and [x < y] *)
  fle : F -> F -> bool;
  flt : F -> F -> bool;
  (** [np.tanh] *)
  ftanh : F -> F;
  (** [int(np.ceil(x))]; [None] when [x] is not finite *)
  fceil : F -> option Z;
  (** the value of [x ** 2] *)
  fsqr : F -> F;
  (** [x ** 2] on Python floats: that value, or [None] when the power
      raises [OverflowError] *)
  fpow2 : F -> option F;
  fpow2_value : forall x y, fpow2 x = Some y -> y = fsqr x
}.

Declare Scope arith_scope.
Delimit Scope arith_scope with A.
Infix "+" := fadd : arith_scope.
Infix "-" := fsub : arith_scope.
Infix "*" := fmul : arith_scope.

Section Program.
Context {F : Type} {AF : Arith F}.

(** ** Python and NumPy primitives *)

(** [a / b] on Python floats raises [ZeroDivisionError] on a zero divisor. *)
Definition pydiv (a b : F) : option F :=
  if is_zero b then None else Some (fdiv a b).

(** [x ** 2] on a NumPy scalar, which does not raise *)
Definition sqr (x : F) : F := fsqr x.

(** A (possibly negative) Python index into a sequence of length [len];
    [None] is [IndexError]. *)
Definition norm_index (len : nat) (i : Z) : option nat :=
  let j := if i <? 0 then i + Z.of_nat len else i in
  if (0 <=? j) && (j <? Z.of_nat len) then Some (Z.to_nat j) else None.

(** A slice bound: negative bounds count from the end, and the result is
    clipped to [0 .. len]. *)
Definition clamp (len : nat) (i : Z) : nat :=
  let j := if i <? 0 then i + Z.of_nat len else i in
  Z.to_nat (Z.min (Z.max j 0) (Z.of_nat len)).

Definition slice_lo (len : nat) (lo : option Z) : nat :=
  from_option (clamp len) 0%nat lo.

Definition slice_hi (len : nat) (hi : option Z) : nat :=
  from_option (clamp len) len hi.

(** [l[lo:hi]] *)
Definition slice {A} (lo hi : option Z) (l : list A) : list A :=
  let a := slice_lo (length l) lo in
  let b := slice_hi (length l) hi in
  take (b - a) (drop a l).

(** NumPy broadcasting of a 1-D array to length [k]: the lengths agree, or
    the array has a single element; [None] is [ValueError]. *)
Definition broadcast {A} (k : nat) (v : list A) : option (list A) :=
  if decide (length v = k) then Some v
  else match v with
       | [x] => Some (replicate k x)
       | _ => None
       end.

(** Element-wise binary operation on two 1-D arrays. *)
Definition ewise (f : F -> F -> F) (u v : list F) : option (list F) :=
  if decide (length u = length v) then Some (zip_with f u v)
  else match u, v with
       | [x], _ => Some (fmap (f x) v)
       | _, [y] => Some (fmap (fun x => f x y) u)
       | _, _ => None
       end.

(** [l[lo:hi] = v] *)
Definition set_slice {A} (lo hi : option Z) (v l : list A)
  : option (list A) :=
  let a := slice_lo (length l) lo in
  let b := slice_hi (length l) hi in
  v' ← broadcast (b - a) v;
  Some (take a l ++ v' ++ drop (a + (b - a)) l).

(** [l[i] = x] *)
Definition set_item {A} (i : Z) (x : A) (l : list A) : option (list A) :=
  j ← norm_index (length l) i;
  Some (<[j := x]> l).

(** [np.zeros((rows, cols))] *)
Definition zeros (rows cols : nat) : list (list F) :=
  replicate rows (replicate cols (of_int 0)).

(** [M[n] = v] and [M[n, :] = v] for a row index [n >= 0] *)
Definition set_row (n : nat) (v : list F) (M : list (list F))
  : option (list (list F)) :=
  row ← M !! n;
  v' ← broadcast (length row) v;
  Some (<[n := v']> M).

(** [np.linspace(start, stop, num)] for [num >= 0], following NumPy's
    implementation: the samples are [i * step + start] with
    [step = (stop - start) / (num - 1)], and the last one is overwritten
    with [stop]. *)
Definition linspace (start stop : F) (num : nat) : list F :=
  let delta := (stop - start)%A in
  let idx := fmap (fun i => of_int (Z.of_nat i)) (seq 0 num) in
  let div := Z.of_nat num - 1 in
  let y :=
    if 0 <? div then
      let step := fdiv delta (of_int div) in
      if is_zero step
      then fmap (fun i => (fdiv i (of_int div) * delta)%A) idx
      else fmap (fun i => (i * step)%A) idx
    else fmap (fun i => (i * delta)%A) idx in
  let y := fmap (fun v => (v + start)%A) y in
  if (1 <? num)%nat then <[(num - 1)%nat := stop]> y else y.

(** ** The update rule shared by both solvers

    [U[1:-1] + r * (U[2:] - 2 * U[1:-1] + U[:-2])] *)
Definition interior (r : F) (U : list F) : option (list F) :=
  let mid := slice (Some 1) (Some (-1)) U in
  t1 ← ewise fsub (slice (Some 2) None U) (fmap (fmul (of_int 2)) mid);
  t2 ← ewise fadd t1 (slice None (Some (-2)) U);
  ewise fadd mid (fmap (fmul r) t2).

(** ** heat_eq_fr.py *)

(** One pass through the body of the loop of [explicit_heat], without the
    store into [U_all]: the new profile computed from [U]. *)
Definition heat_step (alpha U1 U2 : F) (U : list F) : option (list F) :=
  vals ← interior alpha U;
  U_new ← set_slice (Some 1) (Some (-1)) vals U;
  U_new ← set_item 0 U1 U_new;
  set_item (-1) U2 U_new.

(** [for n in range(Nt)], entered at iteration [n] with [k] iterations left. *)
Fixpoint heat_loop (alpha U1 U2 : F) (k n : nat) (U : list F)
    (U_all : list (list F)) : option (list (list F)) :=
  match k with
  | O => Some U_all
  | S k' =>
      U_new ← heat_step alpha U1 U2 U;
      U_all' ← set_row (S n) U_new U_all;
      heat_loop alpha U1 U2 k' (S n) U_new U_all'
  end.

(** [alpha = D * dt / dx**2] with [dx = L / (Nx - 1)] and [dt = T / Nt];
    returns [(alpha, dt)]. *)
Definition heat_ratio (Nx Nt : nat) (L T D : F) : option (F * F) :=
  dx ← pydiv L (of_int (Z.of_nat Nx - 1));
  dt ← pydiv T (of_int (Z.of_nat Nt));
  dx2 ← fpow2 dx;
  alpha ← pydiv (D * dt)%A dx2;
  Some (alpha, dt).

(** [explicit_heat(U_init, Nx, Nt, L, T, D, U1, U2)], returning
    [(U_all, alpha, dt)]. *)
Definition explicit_heat (U_init : list F) (Nx Nt : nat) (L T D U1 U2 : F)
  : option (list (list F) * F * F) :=
  '(alpha, dt) ← heat_ratio Nx Nt L T D;
  U_all ← set_row 0 U_init (zeros (S Nt) Nx);
  U_all ← heat_loop alpha U1 U2 Nt 0 U_init U_all;
  Some (U_all, alpha, dt).

(** The parameters and the two solver calls at the top level of the
    script. *)
Definition fr_L : F := lit 1.0.
Definition fr_T : F := lit 1.0.
Definition fr_D : F := lit 0.05.
Definition fr_Nx : nat := 100.
Definition fr_Nt : nat := 1500.
Definition fr_Nt_unstable : nat := 50.
Definition fr_A : F := lit 10.0.
Definition fr_B : F := lit 10.0.
Definition fr_U1 : F := (fr_A + fr_B)%A.
Definition fr_U2 : F := (fr_A - fr_B)%A.

(** The module-level grid: [x = np.linspace(0, L, Nx)] and
    [dx = x[1] - x[0]]. *)
Definition fr_x : list F := linspace (of_int 0) fr_L fr_Nx.

Definition fr_dx : option F :=
  x1 ← fr_x !! 1%nat;
  x0 ← fr_x !! 0%nat;
  Some (x1 - x0)%A.

(** [initial_profile(x)], with the module constants [A], [B] and [L]. *)
Definition initial_profile (A B L : F) (x : list F) : list F :=
  let scale := lit 0.1 in
  fmap (fun xi =>
         (A - B * ftanh (fdiv (xi - fdiv L (of_int 2)) scale))%A) x.

(** [U0 = initial_profile(x)] and
    [explicit_heat(U0, Nx, Nt, L, T, D, U1, U2)] *)
Definition fr_U0 : list F := initial_profile fr_A fr_B fr_L fr_x.

Definition fr_stable : option (list (list F) * F * F) :=
  explicit_heat fr_U0 fr_Nx fr_Nt fr_L fr_T fr_D fr_U1 fr_U2.

(** The stability table printed at the end of the script, which runs on
    the module constants.  [stability_line] is one pass of the loop
    [for Nt_val in Nt_list]: the ratio [alpha] and whether it is reported as
    [(Stable)].  Here [dx] is the NumPy scalar of the module, so neither the
    power [dx**2] nor the division by it raises. *)
Definition fr_Nt_list : list nat := [50; 200; 500; 1000; 1500; 3000]%nat.

Definition stability_line (Nt_val : nat) : option (F * bool) :=
  dx ← fr_dx;
  dt ← pydiv fr_T (of_int (Z.of_nat Nt_val));
  let alpha := fdiv (fr_D * dt)%A (sqr dx) in
  Some (alpha, flt alpha (lit 0.5)).

Definition stability_table : option (list (nat * (F * bool))) :=
  mapM (fun Nt_val => line ← stability_line Nt_val; Some (Nt_val, line))
    fr_Nt_list.

(** ** heat_equation.py *)

(** [initialize_conditions(Nx, L)], returning [(x, U0, A, B)]; [A], [B] and
    [c] are Python integers. *)
Definition initialize_conditions (Nx : nat) (L : F)
  : list F * list F * Z * Z :=
  let A := 10 in
  let B := 10 in
  let c := 0 in
  let x := linspace (of_int 0) L Nx in
  let U0 :=
    fmap (fun xi => (of_int A - of_int B * ftanh (of_int c - xi))%A) x in
  (x, U0, A, B).

(** [check_stability(D, T, Nt, Nx, L)], returning
    [(is_stable, stability_factor)]. *)
Definition check_stability (D T : F) (Nt Nx : nat) (L : F)
  : option (bool * F) :=
  dt ← pydiv T (of_int (Z.of_nat Nt));
  dx ← pydiv L (of_int (Z.of_nat Nx));
  dx2 ← fpow2 dx;
  stability_factor ← pydiv (D * dt)%A dx2;
  let is_stable := fle stability_factor (lit 0.5) in
  Some (is_stable, stability_factor).

(** The body of the time loop of [solve_heat_equation_euler] at iteration
    [n]: row [n + 1] of the matrix [U] is written in place, first its
    interior from row [n], then its two ends. *)
Definition euler_step (r : F) (A B : Z) (n : nat) (U : list (list F))
  : option (list (list F)) :=
  cur ← U !! n;
  vals ← interior r cur;
  next ← U !! S n;
  next ← set_slice (Some 1) (Some (-1)) vals next;
  let U := <[S n := next]> U in
  next ← U !! S n;
  next ← set_item 0 (of_int (A + B)) next;
  let U := <[S n := next]> U in
  next ← U !! S n;
  next ← set_item (-1) (of_int (A - B)) next;
  Some (<[S n := next]> U).

(** [for n in range(Nt)], entered at iteration [n] with [k] iterations left. *)
Fixpoint euler_loop (r : F) (A B : Z) (k n : nat) (U : list (list F))
  : option (list (list F)) :=
  match k with
  | O => Some U
  | S k' =>
      U' ← euler_step r A B n U;
      euler_loop r A B k' (S n) U'
  end.

(** [solve_heat_equation_euler(L, T, D, Nt, Nx)], returning [(x, t, U)]. *)
Definition solve_heat_equation_euler (L T D : F) (Nt Nx : nat)
  : option (list F * list F * list (list F)) :=
  let '(x, U0, A, B) := initialize_conditions Nx L in
  dt ← pydiv T (of_int (Z.of_nat Nt));
  dx ← pydiv L (of_int (Z.of_nat Nx));
  _ ← check_stability D T Nt Nx L;
  U ← set_row 0 U0 (zeros (S Nt) Nx);
  dx2 ← fpow2 dx;
  r ← pydiv (D * dt)%A dx2;
  U ← euler_loop r A B Nt 0 U;
  let t := linspace (of_int 0) T (S Nt) in
  Some (x, t, U).

(** ** stability_analysis.py *)

(** [int(np.ceil(2 * D * T * Nx**2 / L**2))] *)
Definition required_steps (L T D : F) (Nx : nat) : option Z :=
  L2 ← fpow2 L;
  q ← pydiv (of_int 2 * D * T * of_int (Z.of_nat Nx ^ 2))%A L2;
  fceil q.

(** [analyze_stability(L, T, D, Nt, Nx)]: the returned verdict [r <= 0.5],
    together with the ratio [r] and the step count [Nt_required] that the
    function prints when [r > 0.5]. *)
Definition analyze_stability (L T D : F) (Nt Nx : nat)
  : option (bool * F * option Z) :=
  dt ← pydiv T (of_int (Z.of_nat Nt));
  dx ← pydiv L (of_int (Z.of_nat Nx));
  dx2 ← fpow2 dx;
  r ← pydiv (D * dt)%A dx2;
  if flt (lit 0.5) r then
    Nt_required ← required_steps L T D Nx;
    Some (fle r (lit 0.5), r, Some Nt_required)
  else Some (fle r (lit 0.5), r, None).

(** ** The verdicts for the configuration of the scripts

    [L = 1.0], [T = 1.0], [D = 0.05] and [Nx = 100], with [Nt] steps. *)
Definition verdict_check_stability (Nt : nat) : option bool :=
  fst <$> check_stability fr_D fr_T Nt fr_Nx fr_L.

Definition verdict_analyze_stability (Nt : nat) : option bool :=
  (fun res => res.1.1) <$> analyze_stability fr_L fr_T fr_D Nt fr_Nx.

Definition verdict_stability_line (Nt : nat) : option bool :=
  snd <$> stability_line Nt.

End Program.

(** ** [explicit_heat] on mutable arrays

    NumPy arrays are objects: [U_init] is passed by reference, [.copy()]
    makes a new object, and item, slice and row assignments write into an
    existing one.  Here each array lives at a location of a store, and
    [explicit_heat] is embedded once more as a computation on the store. *)

Section Heap.
Context {F : Type} {AF : Arith F}.

(** A one- or two-dimensional array object. *)
Inductive array : Type :=
| Arr1 (data : list F)
| Arr2 (rows : list (list F)).

(** A computation that reads and writes the store, and may raise. *)
Definition st (A : Type) : Type :=
  gmap nat array -> option (A * gmap nat array).

Definition st_ret {A} (a : A) : st A := fun s => Some (a, s).

Definition st_bind {A B} (c : st A) (k : A -> st B) : st B :=
  fun s => match c s with
           | Some (a, s') => k a s'
           | None => None
           end.

(** An operation that only computes, and raises when that fails. *)
Definition st_lift {A} (o : option A) : st A :=
  fun s => match o with
           | Some a => Some (a, s)
           | None => None
           end.

(** A new array object, at a location not yet in use. *)
Definition st_alloc (a : array) : st nat :=
  fun s => let l := fresh (dom s) in Some (l, <[l := a]> s).

Definition st_read1 (l : nat) : st (list F) :=
  fun s => match s !! l with
           | Some (Arr1 d) => Some (d, s)
           | _ => None
           end.

Definition st_read2 (l : nat) : st (list (list F)) :=
  fun s => match s !! l with
           | Some (Arr2 rows) => Some (rows, s)
           | _ => None
           end.

Definition st_write (l : nat) (a : array) : st unit :=
  fun s => Some (tt, <[l := a]> s).

Notation "x <- c ;; k" := (st_bind c (fun x => k))
  (at level 20, c at level 99, k at level 200).
Notation "c ;; k" := (st_bind c (fun _ => k))
  (at level 100, k at level 200, right associativity).

(** [a.copy()] *)
Definition np_copy (a : nat) : st nat :=
  d <- st_read1 a ;; st_alloc (Arr1 d).

(** [np.zeros((rows, cols))] *)
Definition np_zeros (rows cols : nat) : st nat :=
  st_alloc (Arr2 (zeros rows cols)).

(** [M[n] = v] for a two-dimensional [M], a row index [n >= 0] and a
    one-dimensional [v] *)
Definition assign_row (M n v : nat) : st unit :=
  rows <- st_read2 M ;;
  d <- st_read1 v ;;
  rows' <- st_lift (set_row n d rows) ;;
  st_write M (Arr2 rows').

(** [U_new[1:-1] = U[1:-1] + alpha * (U[2:] - 2 * U[1:-1] + U[:-2])] *)
Definition assign_interior (alpha : F) (U_new U : nat) : st unit :=
  d <- st_read1 U ;;
  vals <- st_lift (interior alpha d) ;;
  d_new <- st_read1 U_new ;;
  d_new' <- st_lift (set_slice (Some 1) (Some (-1)) vals d_new) ;;
  st_write U_new (Arr1 d_new').

(** [a[i] = x] *)
Definition assign_item (a : nat) (i : Z) (x : F) : st unit :=
  d <- st_read1 a ;;
  d' <- st_lift (set_item i x d) ;;
  st_write a (Arr1 d').

(** [for n in range(Nt)], entered at iteration [n] with [k] iterations
    left; [U] and [U_all] are the objects the two variables refer to. *)
Fixpoint heat_loop_st (alpha U1 U2 : F) (k n : nat) (U U_all : nat)
  : st unit :=
  match k with
  | O => st_ret tt
  | S k' =>
      U_new <- np_copy U ;;
      assign_interior alpha U_new U ;;
      assign_item U_new 0 U1 ;;
      assign_item U_new (-1) U2 ;;
      assign_row U_all (S n) U_new ;;
      heat_loop_st alpha U1 U2 k' (S n) U_new U_all
  end.

(** [explicit_heat(U_init, Nx, Nt, L, T, D, U1, U2)] with [U_init] the
    location of the caller's array; the first component of the result is the
    location of [U_all]. *)
Definition explicit_heat_st (U_init : nat) (Nx Nt : nat) (L T D U1 U2 : F)
  : st (nat * F * F) :=
  ad <- st_lift (heat_ratio Nx Nt L T D) ;;
  U_all <- np_zeros (S Nt) Nx ;;
  tmp <- np_copy U_init ;;
  assign_row U_all 0 tmp ;;
  U <- np_copy U_init ;;
  heat_loop_st ad.1 U1 U2 Nt 0 U U_all ;;
  st_ret (U_all, ad.1, ad.2).

(** The stores that [explicit_heat_st] passes through before its loop:
    after [np.zeros], after the first [U_init.copy()], and after the row
    assignment and the second copy. *)
Definition store_zeros (s : gmap nat array) (Nx Nt : nat) : gmap nat array :=
  <[fresh (dom s) := Arr2 (zeros (S Nt) Nx)]> s.

Definition store_tmp (s : gmap nat array) (Nx Nt : nat) (U_init : list F)
  : gmap nat array :=
  let s1 := store_zeros s Nx Nt in
  <[fresh (dom s1) := Arr1 U_init]> s1.

Definition store_loop (s : gmap nat array) (Nx Nt : nat) (U_init : list F)
    (M : list (list F)) : gmap nat array :=
  let s3 := <[fresh (dom s) := Arr2 M]> (store_tmp s Nx Nt U_init) in
  <[fresh (dom s3) := Arr1 U_init]> s3.

End Heap.

(** ** Vocabulary of the specification *)

Section Vocabulary.
Context {F : Type} {AF : Arith F}.

(** The three-point stencil at a point with value [b] and neighbours [a]
    (left) and [c] (right), in the order in which the code evaluates it. *)
Definition stencil (r a b c : F) : F := (b + r * (c - of_int 2 * b + a))%A.

(** Entry [i] of the row that follows [cur], as the update rule states it. *)
Definition next_entry (r U_left U_right : F) (cur : list F) (i : nat)
  : option F :=
  if decide (i = length cur - 1)%nat then Some U_right
  else if decide (i = 0)%nat then Some U_left
  else
    a ← cur !! (i - 1)%nat;
    b ← cur !! i;
    c ← cur !! (i + 1)%nat;
    Some (stencil r a b c).

(** All rows of a matrix have [cols] entries. *)
Definition row_lengths (cols : nat) (M : list (list F)) : Prop :=
  Forall (fun row => length row = cols) M.

(** Row [m + 1] of [M] is what one step of the stepper makes of row [m]. *)
Definition stepped (r U1 U2 : F) (M : list (list F)) (m : nat) : Prop :=
  exists cur next,
    M !! m = Some cur /\ M !! S m = Some next /\
    heat_step r U1 U2 cur = Some next.

(** The initial profile of [heat_equation.py] for [Nx] points on [0, L]. *)
Definition euler_profile (Nx : nat) (L : F) : list F :=
  (initialize_conditions Nx L).1.1.2.

(** [r = D * dt / dx**2] *)
Definition ratio (D dt dx : F) : F := fdiv (D * dt)%A (sqr dx).

(** A run of one of the two steppers on [Nx] grid points for [Nt] time
    steps: the diffusion coefficient and the two grid spacings that make the
    ratio, the initial profile, the two boundary values, and the field that
    the call returns.  [explicit_heat] is run on a profile of [Nx] samples,
    as the script does; [solve_heat_equation_euler] builds its own profile
    and has the boundary values [A + B = 20] and [A - B = 0]. *)
Inductive stepper_run (Nx Nt : nat) (D dt dx : F)
  : list F -> F -> F -> list (list F) -> Prop :=
| run_explicit_heat (U_init : list F) (L T U1 U2 : F) (field : list (list F)) :
    length U_init = Nx ->
    dt = fdiv T (of_int (Z.of_nat Nt)) ->
    dx = fdiv L (of_int (Z.of_nat Nx - 1)) ->
    explicit_heat U_init Nx Nt L T D U1 U2 = Some (field, ratio D dt dx, dt) ->
    stepper_run Nx Nt D dt dx U_init U1 U2 field
| run_solve_euler (L T : F) (x t : list F) (U : list (list F)) :
    dt = fdiv T (of_int (Z.of_nat Nt)) ->
    dx = fdiv L (of_int (Z.of_nat Nx)) ->
    solve_heat_equation_euler L T D Nt Nx = Some (x, t, U) ->
    stepper_run Nx Nt D dt dx (euler_profile Nx L) (of_int 20) (of_int 0) U.

(** A profile with the boundary constants written over its two end
    samples. *)
Definition with_boundary (U_left U_right : F) (U : list F) : list F :=
  <[(length U - 1)%nat := U_right]> (<[0%nat := U_left]> U).

End Vocabulary.

(** ** Carriers *)

(** Exact rational arithmetic, with any function in the place of [tanh]. *)
Definition ArithQ (th : Q -> Q) : Arith Q := {|
  of_int := inject_Z;
  lit := fun q => q;
  fadd := Qplus;
  fsub := Qminus;
  fmul := Qmult;
  fdiv := Qdiv;
  is_zero := fun x => Qeq_bool x 0;
  fle := Qle_bool;
  flt := fun x y => negb (Qle_bool y x);
  ftanh := th;
  fceil := fun x => Some (Qceiling x);
  fsqr := fun x => (x * x)%Q;
  fpow2 := fun x => Some (x * x)%Q;
  fpow2_value := fun x y (E : Some (x * x)%Q = Some y) =>
    eq_sym (f_equal (default y) E)
|}.

(** The real numbers. *)
Definition ArithR : Arith R := {|
  of_int := IZR;
  lit := Q2R;
  fadd := Rplus;
  fsub := Rminus;
  fmul := Rmult;
  fdiv := Rdiv;
  is_zero := fun x => if Req_EM_T x 0 then true else false;
  fle := fun x y => if Rle_dec x y then true else false;
  flt := fun x y => if Rlt_dec x y then true else false;
  ftanh := tanh;
  fceil := fun x => Some (1 - up (- x));
  fsqr := fun x => (x * x)%R;
  fpow2 := fun x => Some (x * x)%R;
  fpow2_value := fun x y (E : Some (x * x)%R = Some y) =>
    eq_sym (f_equal (default y) E)
|}.

(** Binary64.  [float_of_Z] rounds an integer to the nearest float, ties to
    even. *)
Definition float_of_Z (z : Z) : float :=
  SF2Prim (binary_normalize prec emax z 0 false).

(** The ceiling of a finite float as an integer. *)
Definition float_ceil (x : float) : option Z :=
  match Prim2SF x with
  | S754_zero _ => Some 0
  | S754_finite negative m e =>
      (* the float is [(-1)^negative * m * 2^e] *)
      let ceil_abs :=
        if 0 <=? e then Z.pos m * 2 ^ e else - ((- Z.pos m) / 2 ^ (- e)) in
      let floor_abs :=
        if 0 <=? e then Z.pos m * 2 ^ e else Z.pos m / 2 ^ (- e) in
      Some (if negative then - floor_abs else ceil_abs)
  | _ => None
  end.

(** The exact value of a finite float. *)
Definition float_to_Q (x : float) : option Q :=
  match Prim2SF x with
  | S754_zero _ => Some 0%Q
  | S754_finite negative m e =>
      let v := (inject_Z (Z.pos m) * Qpower 2 e)%Q in
      Some (if negative then (- v)%Q else v)
  | _ => None
  end.

(** The two floats that enclose the exact square of a finite [x]: the
    largest float that is not above it and the smallest float that is not
    below it.  They are the same float when the square is a float; above
    the largest float the second one is [infinity]. *)
Definition square_neighbours (x : float) : float * float :=
  let y := PrimFloat.mul x x in
  match float_to_Q x, float_to_Q y with
  | Some qx, Some qy =>
      match (qy ?= qx * qx)%Q with
      | Eq => (y, y)
      | Lt => (y, next_up y)
      | Gt => (next_down y, y)
      end
  | _, _ => (next_down y, y)
  end.

(** What is assumed of the C library's [pow(x, 2.0)] on finite [x]: an
    error below one unit in the last place, so that it returns one of the
    two floats enclosing the exact square.  The product [x * x] is one such
    function. *)
Definition faithful (pw : float -> float) : Prop :=
  forall x, PrimFloat.is_finite x = true ->
    pw x = (square_neighbours x).1 \/ pw x = (square_neighbours x).2.

(** The value of [x ** 2]: [pow] of a NaN is a NaN and [pow] of an infinity
    is [infinity]; on a finite [x] it is what the library function [pw]
    returns. *)
Definition float_sq (pw : float -> float) (x : float) : float :=
  if PrimFloat.is_nan x then x
  else if PrimFloat.is_infinity x then infinity
  else pw x.

(** On Python floats [x ** 2] raises [OverflowError] when [x] is finite and
    the power is not. *)
Definition float_pow2 (pw : float -> float) (x : float) : option float :=
  let y := float_sq pw x in
  if PrimFloat.is_finite x && PrimFloat.is_infinity y then None else Some y.

(** A decimal literal [n/d] is the float nearest to it; that is what the
    division computes when [n] and [d] are below [2^53]. *)
Definition ArithF (th pw : float -> float) : Arith float := {|
  of_int := float_of_Z;
  lit := fun q =>
    PrimFloat.div (float_of_Z (Qnum q)) (float_of_Z (Z.pos (Qden q)));
  fadd := PrimFloat.add;
  fsub := PrimFloat.sub;
  fmul := PrimFloat.mul;
  fdiv := PrimFloat.div;
  is_zero := fun x => PrimFloat.eqb x 0%float;
  fle := PrimFloat.leb;
  flt := PrimFloat.ltb;
  ftanh := th;
  fceil := float_ceil;
  fsqr := float_sq pw;
  fpow2 := float_pow2 pw;
  fpow2_value :=
    ltac:(intros x y; unfold float_pow2;
          destruct (PrimFloat.is_finite x
                    && PrimFloat.is_infinity (float_sq pw x));
          [discriminate | congruence])
|}.

(** ** Bounds of a run, in exact arithmetic *)

(** [min(U_left, U_right, min(U0))] and [max(U_left, U_right, max(U0))] *)
Definition lower (U_left U_right : Q) (U0 : list Q) : Q :=
  foldr Qmin (Qmin U_left U_right) U0.

Definition upper (U_left U_right : Q) (U0 : list Q) : Q :=
  foldr Qmax (Qmax U_left U_right) U0.

(** Every entry of a profile lies in [[lo, hi]]. *)
Definition within (lo hi : Q) (row : list Q) : Prop :=
  Forall (fun v => lo <= v <= hi)%Q row.

(** ** Carriers used to run the program *)

(** Exact arithmetic with the identity in the place of [tanh].  What is
    proved below over exact arithmetic holds for every function in that
    place; the sample runs use this one. *)
Definition rational : Arith Q := ArithQ (fun x => x).

(** A run of [explicit_heat] on three points for two steps, in exact
    arithmetic: [dx = 1], [dt = 1/2] and [alpha = 1/4]. *)
Definition sample_init : list Q := [18; 10; 3]%Q.

Definition sample_field : list (list Q) :=
  Eval vm_compute in
    match explicit_heat (AF := rational) sample_init 3 2
            2%Q 1%Q (1 # 2)%Q 20%Q 0%Q
    with
    | Some (field, _, _) => field
    | None => []
    end.

(** The caller's store for the same call: [U_init] at location 0. *)
Definition sample_store : gmap nat (@array Q) :=
  {[ 0%nat := Arr1 sample_init ]}.

(** The largest float of a profile that the stepper overshoots by one unit
    in the last place: [1 + 3 * 2^-52]. *)
Definition overshoot_max : float := 0x1.0000000000003p+0%float.

(** ** The driver and the plotting code *)

(** Two more operations on numbers, used outside the solvers. *)
Class ArithPlot (F : Type) := {
  (** [np.abs] *)
  fabs : F -> F;
  (** [int(x)]: truncation toward zero; [None] when [x] is not finite *)
  fint : F -> option Z
}.

Section Driver.
Context {F : Type} {AF : Arith F} {AP : ArithPlot F}.

(** The loop of NumPy's [argmin] over the rest [a] of an array, entered at
    index [i] with the minimum [mp] found at index [best]. *)
Fixpoint argmin_from (mp : F) (best i : nat) (a : list F) : nat :=
  match a with
  | [] => best
  | v :: a' =>
      if fle mp v then argmin_from mp best (S i) a'
      else if fle v v then argmin_from v i (S i) a'
      else i
  end.

(** [np.argmin(a)]: the index of the first smallest entry, where a NaN (the
    only [v] without [v <= v]) counts as smallest; [None] is the
    [ValueError] on an empty array. *)
Definition argmin (a : list F) : option nat :=
  match a with
  | [] => None
  | v :: a' => Some (if fle v v then argmin_from v 0 1 a' else 0%nat)
  end.

(** [np.argmin(np.abs(t - time_value))] *)
Definition closest_index (t : list F) (time_value : F) : option nat :=
  argmin (fmap (fun ti => fabs (ti - time_value)%A) t).

(** [plot_temperature_profiles(x, t, U, times_to_plot)]: the curves handed
    to [plt.plot], one per requested time, each with the grid [x], the row
    [U[idx, :]] and the time [t[idx]] of its label. *)
Definition plot_temperature_profiles (x t : list F) (U : list (list F))
    (times_to_plot : list F) : option (list (list F * list F * F)) :=
  mapM (fun time_value =>
          idx ← closest_index t time_value;
          row ← U !! idx;
          t_idx ← t !! idx;
          Some (x, row, t_idx)) times_to_plot.

(** The number of time steps that [main] derives from its parameters:
    [dx = L / Nx], [dt_max = 0.5 * dx**2 / D] and
    [Nt = int(T / dt_max) + 1]. *)
Definition main_Nt (L T D : F) (Nx : nat) : option Z :=
  dx ← pydiv L (of_int (Z.of_nat Nx));
  dx2 ← fpow2 dx;
  dt_max ← pydiv (lit 0.5 * dx2)%A D;
  q ← pydiv T dt_max;
  n ← fint q;
  Some (n + 1).

(** The times that [main] asks [plot_temperature_profiles] for. *)
Definition main_times : list F :=
  [of_int 0; lit 0.2; lit 0.4; lit 0.6; lit 0.8; lit 1.0].

(** [main()]: the step count, what the solver returns, and the curves that
    are plotted.  A count [Nt < 0] makes the solver raise (in [np.zeros], or
    in [U[0, :] = U0] when [Nt = -1]).  The heat map drawn by
    [plot_2d_temperature] and the printed lines are left out, except for the
    division [T / Nt] in one of them. *)
Definition main
  : option (Z * list F * list F * list (list F)
            * list (list F * list F * F)) :=
  let L := lit 1.0 in
  let T := lit 1.0 in
  let D := lit 0.05 in
  let Nx := 100%nat in
  Nt ← main_Nt L T D Nx;
  _ ← pydiv T (of_int Nt);
  '(x, t, U) ←
    (if Nt <? 0 then None
     else solve_heat_equation_euler L T D (Z.to_nat Nt) Nx);
  curves ← plot_temperature_profiles x t U main_times;
  Some (Nt, x, t, U, curves).

End Driver.

Definition Qtrunc (x : Q) : Z := Z.quot (Qnum x) (Z.pos (Qden x)).

Definition PlotQ : ArithPlot Q := {|
  fabs := Qabs;
  fint := fun x => Some (Qtrunc x)
|}.

Definition float_trunc (x : float) : option Z :=
  match Prim2SF x with
  | S754_zero _ => Some 0
  | S754_finite negative m e =>
      let abs_part :=
        if 0 <=? e then Z.pos m * 2 ^ e else Z.pos m / 2 ^ (- e) in
      Some (if negative then - abs_part else abs_part)
  | _ => None
  end.

Definition PlotF : ArithPlot float := {|
  fabs := PrimFloat.abs;
  fint := float_trunc
|}.


(** ** More vocabulary, in exact arithmetic *)

(** The profile lies on the straight line from [U_left] at the first of
    its [Nx] points to [U_right] at the last. *)
Definition on_line (U_left U_right : Q) (Nx : nat) (row : list Q) : Prop :=
  length row = Nx /\
  forall i v, row !! i = Some v ->
    (v == U_left + inject_Z (Z.of_nat i)
                   * ((U_right - U_left) / inject_Z (Z.of_nat Nx - 1)))%Q.

(** ** What the update rule computes *)

(** Lengths of lists built from the primitives above. *)
Ltac list_len :=
  repeat first
    [ rewrite length_fmap | rewrite length_zip_with | rewrite length_take
    | rewrite length_drop | rewrite length_app | rewrite length_insert
    | rewrite length_replicate | rewrite length_seq ];
  try lia.

Section Stepper.
Context {F : Type} {AF : Arith F}.

Lemma clamp_pos (n : nat) (k : Z) :
  0 <= k -> clamp n k = Nat.min (Z.to_nat k) n.
Proof.
  intros Hk. unfold clamp.
  destruct (Z.ltb_spec k 0); lia.
Qed.

Lemma clamp_neg (n : nat) (k : Z) :
  k < 0 -> clamp n k = (n - Z.to_nat (- k))%nat.
Proof.
  intros Hk. unfold clamp.
  destruct (Z.ltb_spec k 0); lia.
Qed.

Lemma slice_mid {A} (U : list A) :
  slice (Some 1) (Some (-1)) U = take (length U - 2) (drop 1 U).
Proof.
  unfold slice, slice_lo, slice_hi. simpl from_option.
  rewrite (clamp_pos _ 1), (clamp_neg _ (-1)) by lia.
  destruct U as [|x U]; simpl; [reflexivity|].
  f_equal. lia.
Qed.

Lemma slice_right {A} (U : list A) : slice (Some 2) None U = drop 2 U.
Proof.
  unfold slice, slice_lo, slice_hi. simpl from_option.
  rewrite clamp_pos by lia.
  destruct (decide (2 <= length U)%nat) as [Hn|Hn].
  - replace (Nat.min (Z.to_nat 2) (length U)) with 2%nat by lia.
    apply take_ge. rewrite length_drop. lia.
  - rewrite (drop_ge U 2) by lia.
    rewrite drop_ge by lia. apply take_nil.
Qed.

Lemma slice_left {A} (U : list A) :
  slice None (Some (-2)) U = take (length U - 2) U.
Proof.
  unfold slice, slice_lo, slice_hi. simpl from_option.
  rewrite clamp_neg by lia. rewrite drop_0. f_equal. lia.
Qed.

Lemma ewise_same_length (f : F -> F -> F) (u v : list F) :
  length u = length v -> ewise f u v = Some (zip_with f u v).
Proof. intros Hl. unfold ewise. rewrite decide_True; done. Qed.

(** The vectorised expression never fails, and yields one stencil value per
    interior point. *)
Lemma interior_spec (r : F) (U : list F) :
  exists vals,
    interior r U = Some vals /\
    length vals = (length U - 2)%nat /\
    forall j a b c,
      U !! j = Some a -> U !! S j = Some b -> U !! S (S j) = Some c ->
      vals !! j = Some (stencil r a b c).
Proof.
  unfold interior.
  rewrite slice_mid, slice_right, slice_left.
  set (n := (length U - 2)%nat).
  rewrite ewise_same_length by list_len.
  cbn [mbind option_bind].
  rewrite ewise_same_length by list_len.
  cbn [mbind option_bind].
  rewrite ewise_same_length by list_len.
  eexists. split; [reflexivity|]. split.
  - list_len.
  - intros j a b c Ha Hb Hc.
    assert (Hj : (j < n)%nat) by (apply lookup_lt_Some in Hc; lia).
    rewrite !lookup_zip_with, !list_lookup_fmap, !lookup_zip_with.
    rewrite !list_lookup_fmap.
    rewrite !lookup_take_lt, !lookup_drop by lia.
    replace (2 + j)%nat with (S (S j)) by lia.
    replace (1 + j)%nat with (S j) by lia.
    rewrite Ha, Hb, Hc. reflexivity.
Qed.

Lemma norm_index_first (n : nat) : (0 < n)%nat -> norm_index n 0 = Some 0%nat.
Proof.
  intros Hn. unfold norm_index. simpl.
  destruct (Z.ltb_spec 0 (Z.of_nat n)); [reflexivity | lia].
Qed.

Lemma norm_index_last (n : nat) :
  (0 < n)%nat -> norm_index n (-1) = Some (n - 1)%nat.
Proof.
  intros Hn. unfold norm_index. simpl.
  destruct (Z.leb_spec 0 (-1 + Z.of_nat n)); [|lia].
  destruct (Z.ltb_spec (-1 + Z.of_nat n) (Z.of_nat n)); [|lia].
  simpl. f_equal. lia.
Qed.

Lemma broadcast_same {A} (v : list A) : broadcast (length v) v = Some v.
Proof. unfold broadcast. rewrite decide_True; done. Qed.

Lemma broadcast_length {A} (k : nat) (v v' : list A) :
  broadcast k v = Some v' -> length v' = k.
Proof.
  unfold broadcast. destruct (decide (length v = k)) as [Hl|Hl].
  - intros [= <-]. exact Hl.
  - destruct v as [|x [|y v]]; intros [= <-]. apply length_replicate.
Qed.

(** [U_new[1:-1] = vals] writes one value per interior point and leaves the
    two ends alone. *)
Lemma set_slice_mid {A} (vals U : list A) :
  length vals = (length U - 2)%nat ->
  set_slice (Some 1) (Some (-1)) vals U
  = Some (take 1 U ++ vals ++ drop (S (length vals)) U).
Proof.
  intros Hl. unfold set_slice, slice_lo, slice_hi. simpl from_option.
  rewrite (clamp_pos _ 1), (clamp_neg _ (-1)) by lia.
  replace (length U - Z.to_nat (- -1) - Nat.min (Z.to_nat 1) (length U))%nat
    with (length vals) by lia.
  rewrite broadcast_same. cbn [mbind option_bind].
  destruct U as [|x U].
  - destruct vals; [reflexivity | discriminate].
  - replace (Nat.min (Z.to_nat 1) (length (x :: U))) with 1%nat
      by (simpl; lia).
    reflexivity.
Qed.

(** One step of the stepper on a non-empty profile: it succeeds, keeps the
    length, and every entry of the new profile is the one the update rule
    prescribes. *)
Lemma heat_step_spec (r U1 U2 : F) (U : list F) :
  (0 < length U)%nat ->
  exists U',
    heat_step r U1 U2 U = Some U' /\
    length U' = length U /\
    forall i, (i < length U)%nat -> U' !! i = next_entry r U1 U2 U i.
Proof.
  intros Hn. unfold heat_step.
  destruct (interior_spec r U) as (vals & -> & Hlen & Hvals).
  cbn [mbind option_bind].
  rewrite set_slice_mid by exact Hlen. cbn [mbind option_bind].
  set (W := take 1 U ++ vals ++ drop (S (length vals)) U).
  assert (HW : length W = length U) by (unfold W; list_len).
  unfold set_item.
  rewrite HW, norm_index_first by lia. cbn [mbind option_bind].
  rewrite length_insert, HW, norm_index_last by lia. cbn [mbind option_bind].
  eexists. split; [reflexivity|]. split; [list_len|].
  intros i Hi. unfold next_entry.
  destruct (decide (i = length U - 1)%nat) as [->|Hlast].
  { apply list_lookup_insert_eq. list_len. }
  rewrite list_lookup_insert_ne by lia.
  destruct (decide (i = 0)%nat) as [->|Hfirst].
  { apply list_lookup_insert_eq. lia. }
  rewrite list_lookup_insert_ne by lia.
  destruct (lookup_lt_is_Some_2 U (i - 1)) as [a Ha]; [lia|].
  destruct (lookup_lt_is_Some_2 U i) as [b Hb]; [lia|].
  destruct (lookup_lt_is_Some_2 U (i + 1)) as [c Hc]; [lia|].
  rewrite Ha, Hb, Hc. cbn [mbind option_bind].
  unfold W. rewrite lookup_app_r by list_len.
  rewrite lookup_app_l by list_len.
  replace (i - length (take 1 U))%nat with (i - 1)%nat by list_len.
  apply Hvals; [exact Ha | |].
  - replace (S (i - 1)) with i by lia. exact Hb.
  - replace (S (S (i - 1))) with (i + 1)%nat by lia. exact Hc.
Qed.

(** On an empty profile [U_new[0] = U1] raises [IndexError]. *)
Lemma heat_step_empty (r U1 U2 : F) : heat_step r U1 U2 [] = None.
Proof. reflexivity. Qed.

(** *** The time loop of [explicit_heat] *)

Lemma zeros_shape (rows cols : nat) :
  length (zeros rows cols) = rows /\ row_lengths cols (zeros rows cols).
Proof.
  unfold zeros, row_lengths. split; [apply length_replicate|].
  apply Forall_replicate, length_replicate.
Qed.

(** A row assignment keeps the shape of the matrix, whatever is assigned. *)
Lemma set_row_shape (cols n : nat) (v : list F) (M M' : list (list F)) :
  set_row n v M = Some M' ->
  row_lengths cols M -> length M' = length M /\ row_lengths cols M'.
Proof.
  unfold set_row, row_lengths. intros Hset HM.
  destruct (M !! n) as [row|] eqn:Hrow; [|discriminate].
  cbn [mbind option_bind] in Hset.
  destruct (broadcast (length row) v) as [v'|] eqn:Hv; [|discriminate].
  cbn [mbind option_bind] in Hset. injection Hset as <-.
  split; [apply length_insert|].
  apply Forall_insert; [exact HM|].
  apply broadcast_length in Hv. rewrite Hv.
  exact (Forall_lookup_1 _ _ _ _ HM Hrow).
Qed.

(** Assigning a row of the right length stores it as it is. *)
Lemma set_row_same (n : nat) (v row : list F) (M : list (list F)) :
  M !! n = Some row -> length v = length row ->
  set_row n v M = Some (<[n := v]> M).
Proof.
  intros Hrow Hl. unfold set_row. rewrite Hrow. cbn [mbind option_bind].
  rewrite <- Hl, broadcast_same. reflexivity.
Qed.

Lemma heat_loop_shape (r U1 U2 : F) (cols k : nat) :
  forall n U M R,
    heat_loop r U1 U2 k n U M = Some R ->
    row_lengths cols M -> length R = length M /\ row_lengths cols R.
Proof.
  induction k as [|k IH]; intros n U M R Hrun HM; simpl in Hrun.
  - injection Hrun as <-. split; [reflexivity | exact HM].
  - destruct (heat_step r U1 U2 U) as [U_new|]; [|discriminate].
    cbn [mbind option_bind] in Hrun.
    destruct (set_row (S n) U_new M) as [M'|] eqn:Hset; [|discriminate].
    cbn [mbind option_bind] in Hrun.
    destruct (set_row_shape cols _ _ _ _ Hset HM) as [Hlen HM'].
    destruct (IH _ _ _ _ Hrun HM') as [HlenR HR].
    split; [congruence | exact HR].
Qed.

(** Started at iteration [n] on a matrix whose row [n] is the current
    profile, the loop runs to its end; it leaves rows [0 .. n] as they are
    and fills each of the rows [n + 1 .. n + k] from the row before it. *)
Lemma heat_loop_spec (r U1 U2 : F) (k : nat) :
  forall n U M,
    M !! n = Some U -> (0 < length U)%nat ->
    length M = (n + k + 1)%nat -> row_lengths (length U) M ->
    exists R,
      heat_loop r U1 U2 k n U M = Some R /\
      (forall m, (m <= n)%nat -> R !! m = M !! m) /\
      (forall m, (n <= m < n + k)%nat -> stepped r U1 U2 R m).
Proof.
  induction k as [|k IH]; intros n U M Hn Hpos Hlen HM; simpl.
  - exists M. split; [reflexivity|]. split; [reflexivity|]. intros m Hm. lia.
  - destruct (heat_step_spec r U1 U2 U Hpos) as (U' & Hstep & HlenU' & _).
    rewrite Hstep. cbn [mbind option_bind].
    destruct (lookup_lt_is_Some_2 M (S n)) as [row Hrow]; [lia|].
    assert (Hrowlen : length row = length U)
      by exact (Forall_lookup_1 _ _ _ _ HM Hrow).
    rewrite (set_row_same (S n) U' row M Hrow) by congruence.
    cbn [mbind option_bind].
    destruct (IH (S n) U' (<[S n := U']> M)) as (R & HR & Hbefore & Hafter).
    + apply list_lookup_insert_eq. lia.
    + lia.
    + rewrite length_insert. lia.
    + rewrite HlenU'. apply Forall_insert; [exact HM | exact HlenU'].
    + exists R. split; [exact HR|]. split.
      * intros m Hm. rewrite Hbefore by lia.
        apply list_lookup_insert_ne. lia.
      * intros m Hm. destruct (decide (m = n)) as [->|Hne].
        -- exists U, U'. split; [|split; [|exact Hstep]].
           ++ rewrite Hbefore by lia.
              rewrite list_lookup_insert_ne by lia. exact Hn.
           ++ rewrite Hbefore by lia. apply list_lookup_insert_eq. lia.
        -- apply Hafter. lia.
Qed.

(** [explicit_heat] on a profile of [Nx >= 1] samples, whenever the ratio
    [alpha] can be computed: the call returns, row 0 of the field is the
    profile it was given, and every later row is one step after the row
    before it. *)
Lemma explicit_heat_spec (U_init : list F) (Nx Nt : nat)
    (L T D U1 U2 alpha dt : F) :
  heat_ratio Nx Nt L T D = Some (alpha, dt) ->
  length U_init = Nx -> (0 < Nx)%nat ->
  exists field,
    explicit_heat U_init Nx Nt L T D U1 U2 = Some (field, alpha, dt) /\
    length field = S Nt /\ row_lengths Nx field /\
    field !! 0%nat = Some U_init /\
    forall m, (m < Nt)%nat -> stepped alpha U1 U2 field m.
Proof.
  intros Hratio Hlen Hpos. unfold explicit_heat.
  rewrite Hratio. cbn [mbind option_bind].
  destruct (zeros_shape (S Nt) Nx) as [Hrows Hcols].
  assert (Hrow0 : zeros (S Nt) Nx !! 0%nat = Some (replicate Nx (of_int 0)))
    by reflexivity.
  rewrite (set_row_same 0 U_init _ _ Hrow0) by (rewrite length_replicate; lia).
  cbn [mbind option_bind].
  set (M := <[0%nat := U_init]> (zeros (S Nt) Nx)).
  assert (HM0 : M !! 0%nat = Some U_init)
    by (apply list_lookup_insert_eq; lia).
  assert (HMlen : length M = S Nt) by (unfold M; list_len).
  assert (HMcols : row_lengths Nx M)
    by (apply Forall_insert; [exact Hcols | exact Hlen]).
  destruct (heat_loop_spec alpha U1 U2 Nt 0 U_init M)
    as (R & HR & Hbefore & Hafter); [exact HM0 | lia | lia | congruence |].
  rewrite HR. cbn [mbind option_bind].
  destruct (heat_loop_shape alpha U1 U2 Nx Nt _ _ _ _ HR HMcols) as [HlenR HRc].
  exists R. split; [reflexivity|].
  split; [congruence|]. split; [exact HRc|]. split.
  - rewrite Hbefore by lia. exact HM0.
  - intros m Hm. apply Hafter. lia.
Qed.

(** Whatever it is called with, a field that [explicit_heat] returns has
    [Nt + 1] rows of [Nx] entries. *)
Lemma explicit_heat_shape (U_init : list F) (Nx Nt : nat)
    (L T D U1 U2 alpha dt : F) (field : list (list F)) :
  explicit_heat U_init Nx Nt L T D U1 U2 = Some (field, alpha, dt) ->
  length field = S Nt /\ row_lengths Nx field.
Proof.
  unfold explicit_heat. intros Hrun.
  destruct (heat_ratio Nx Nt L T D) as [[a d]|]; [|discriminate].
  cbn [mbind option_bind] in Hrun.
  destruct (set_row 0 U_init (zeros (S Nt) Nx)) as [M|] eqn:HM; [|discriminate].
  cbn [mbind option_bind] in Hrun.
  destruct (heat_loop a U1 U2 Nt 0 U_init M) as [R|] eqn:HR; [|discriminate].
  cbn [mbind option_bind] in Hrun. injection Hrun as <- _ _.
  destruct (zeros_shape (S Nt) Nx) as [Hrows Hcols].
  destruct (set_row_shape Nx _ _ _ _ HM Hcols) as [HlenM HMc].
  destruct (heat_loop_shape a U1 U2 Nx Nt _ _ _ _ HR HMc) as [HlenR HRc].
  split; [congruence | exact HRc].
Qed.

(** *** The time loop of [solve_heat_equation_euler] *)

(** The row assembled by the three in-place writes does not depend on what
    the row held before. *)
Lemma assemble_lookup (a b : F) (vals X : list F) (i : nat) :
  (0 < length X)%nat -> length vals = (length X - 2)%nat ->
  (i < length X)%nat ->
  let W := take 1 X ++ vals ++ drop (S (length vals)) X in
  <[(length X - 1)%nat := b]> (<[0%nat := a]> W) !! i
  = if decide (i = length X - 1)%nat then Some b
    else if decide (i = 0)%nat then Some a
    else vals !! (i - 1)%nat.
Proof.
  intros Hpos Hvals Hi W.
  assert (HW : length W = length X) by (unfold W; list_len).
  destruct (decide (i = length X - 1)%nat) as [->|Hlast].
  { apply list_lookup_insert_eq. list_len. }
  rewrite list_lookup_insert_ne by lia.
  destruct (decide (i = 0)%nat) as [->|Hfirst].
  { apply list_lookup_insert_eq. lia. }
  rewrite list_lookup_insert_ne by lia.
  unfold W. rewrite lookup_app_r by list_len.
  rewrite lookup_app_l by list_len.
  f_equal. list_len.
Qed.

(** One iteration of the loop of [solve_heat_equation_euler] stores in row
    [n + 1] the profile that [heat_step] computes from row [n], with the
    boundary values [A + B] and [A - B]. *)
Lemma euler_step_spec (r : F) (A B : Z) (n : nat) (U : list (list F))
    (cur next : list F) :
  U !! n = Some cur -> U !! S n = Some next ->
  length next = length cur -> (0 < length cur)%nat ->
  exists row,
    heat_step r (of_int (A + B)) (of_int (A - B)) cur = Some row /\
    euler_step r A B n U = Some (<[S n := row]> U).
Proof.
  intros Hcur Hnext Hlen Hpos.
  assert (HSn : (S n < length U)%nat) by (eapply lookup_lt_Some; eauto).
  unfold euler_step, heat_step. rewrite Hcur. cbn [mbind option_bind].
  destruct (interior_spec r cur) as (vals & -> & Hvals & _).
  cbn [mbind option_bind]. rewrite Hnext. cbn [mbind option_bind].
  rewrite !set_slice_mid by lia. cbn [mbind option_bind].
  set (Wn := take 1 next ++ vals ++ drop (S (length vals)) next).
  set (Wc := take 1 cur ++ vals ++ drop (S (length vals)) cur).
  assert (HWn : length Wn = length cur) by (unfold Wn; list_len).
  assert (HWc : length Wc = length cur) by (unfold Wc; list_len).
  rewrite list_lookup_insert_eq by lia. cbn [mbind option_bind].
  unfold set_item.
  rewrite HWn, HWc, norm_index_first by lia. cbn [mbind option_bind].
  rewrite list_lookup_insert_eq by (rewrite length_insert; lia).
  cbn [mbind option_bind].
  rewrite !length_insert, HWn, HWc, norm_index_last by lia.
  cbn [mbind option_bind].
  eexists. split; [reflexivity|].
  rewrite !list_insert_insert_eq. do 2 f_equal.
  apply list_eq_same_length with (length cur); [list_len | list_len |].
  intros i x y Hi Hx Hy.
  rewrite <- Hlen in Hx at 1. unfold Wn in Hx.
  rewrite assemble_lookup in Hx by lia.
  unfold Wc in Hy. rewrite assemble_lookup in Hy by lia.
  rewrite Hlen in Hx. congruence.
Qed.

Lemma euler_loop_spec (r : F) (A B : Z) (cols k : nat) :
  forall n U,
    length U = (n + k + 1)%nat -> row_lengths cols U -> (0 < cols)%nat ->
    exists R,
      euler_loop r A B k n U = Some R /\
      length R = length U /\ row_lengths cols R /\
      (forall m, (m <= n)%nat -> R !! m = U !! m) /\
      (forall m, (n <= m < n + k)%nat ->
         stepped r (of_int (A + B)) (of_int (A - B)) R m).
Proof.
  induction k as [|k IH]; intros n U Hlen HU Hpos; simpl.
  - exists U. repeat split; try done. intros m Hm. lia.
  - destruct (lookup_lt_is_Some_2 U n) as [cur Hcur]; [lia|].
    destruct (lookup_lt_is_Some_2 U (S n)) as [next Hnext]; [lia|].
    assert (Hc : length cur = cols) by exact (Forall_lookup_1 _ _ _ _ HU Hcur).
    assert (Hn : length next = cols)
      by exact (Forall_lookup_1 _ _ _ _ HU Hnext).
    destruct (euler_step_spec r A B n U cur next Hcur Hnext)
      as (row & Hrow & ->); [congruence | lia |].
    cbn [mbind option_bind].
    destruct (heat_step_spec r (of_int (A + B)) (of_int (A - B)) cur)
      as (row' & Hrow' & Hrowlen & _); [lia|].
    assert (row' = row) as -> by congruence.
    destruct (IH (S n) (<[S n := row]> U)) as (R & HR & HlenR & HRc & Hb & Ha).
    + rewrite length_insert. lia.
    + apply Forall_insert; [exact HU | congruence].
    + exact Hpos.
    + exists R. split; [exact HR|]. rewrite length_insert in HlenR.
      split; [exact HlenR|]. split; [exact HRc|]. split.
      * intros m Hm. rewrite Hb by lia. apply list_lookup_insert_ne. lia.
      * intros m Hm. destruct (decide (m = n)) as [->|Hne].
        -- exists cur, row. split; [|split; [|exact Hrow]].
           ++ rewrite Hb by lia.
              rewrite list_lookup_insert_ne by lia. exact Hcur.
           ++ rewrite Hb by lia. apply list_lookup_insert_eq. lia.
        -- apply Ha. lia.
Qed.

Lemma linspace_length (start stop : F) (num : nat) :
  length (linspace start stop num) = num.
Proof.
  unfold linspace.
  destruct (1 <? num)%nat; destruct (0 <? Z.of_nat num - 1);
    try destruct (is_zero _); list_len.
Qed.

(** With at least two samples the last one is [stop] itself. *)
Lemma linspace_last (start stop : F) (num : nat) :
  (2 <= num)%nat -> linspace start stop num !! (num - 1)%nat = Some stop.
Proof.
  intros Hnum. unfold linspace.
  destruct (Nat.ltb_spec 1 num) as [_|]; [|lia].
  apply list_lookup_insert_eq.
  destruct (0 <? Z.of_nat num - 1); try destruct (is_zero _); list_len.
Qed.

(** The samples of [np.linspace] before the last one, as NumPy computes
    them. *)
Lemma linspace_inner (start stop : F) (num i : nat) :
  (i < num - 1)%nat ->
  linspace start stop num !! i
  = Some (let delta := (stop - start)%A in
          let step := fdiv delta (of_int (Z.of_nat num - 1)) in
          if is_zero step
          then (fdiv (of_int (Z.of_nat i)) (of_int (Z.of_nat num - 1)) * delta
                + start)%A
          else (of_int (Z.of_nat i) * step + start)%A).
Proof.
  intros Hi. unfold linspace.
  destruct (Nat.ltb_spec 1 num) as [_|]; [|lia].
  rewrite list_lookup_insert_ne by lia.
  destruct (Z.ltb_spec 0 (Z.of_nat num - 1)) as [_|]; [|lia].
  cbv zeta.
  destruct (is_zero (fdiv (stop - start)%A (of_int (Z.of_nat num - 1))));
    rewrite !list_lookup_fmap, lookup_seq_lt by lia;
    reflexivity.
Qed.

Lemma euler_profile_length (Nx : nat) (L : F) :
  length (euler_profile Nx L) = Nx.
Proof.
  unfold euler_profile, initialize_conditions. simpl.
  rewrite length_fmap. apply linspace_length.
Qed.

(** [solve_heat_equation_euler] for [Nx >= 1], whenever the stability ratio
    [r] can be computed: the call returns the two grids and a field of
    [Nt + 1] rows of [Nx] entries, whose row 0 is the initial profile and
    whose later rows are each one step after the row before, with the
    boundary values [A + B = 20] and [A - B = 0]. *)
Lemma solve_heat_equation_euler_spec (L T D : F) (Nt Nx : nat)
    (ok : bool) (r : F) :
  check_stability D T Nt Nx L = Some (ok, r) -> (0 < Nx)%nat ->
  exists U,
    solve_heat_equation_euler L T D Nt Nx
    = Some (linspace (of_int 0) L Nx, linspace (of_int 0) T (S Nt), U) /\
    length U = S Nt /\ row_lengths Nx U /\
    U !! 0%nat = Some (euler_profile Nx L) /\
    forall m, (m < Nt)%nat -> stepped r (of_int 20) (of_int 0) U m.
Proof.
  intros Hcheck Hpos.
  pose proof (euler_profile_length Nx L) as HU0.
  unfold solve_heat_equation_euler, euler_profile in *.
  unfold initialize_conditions in *. cbn [fst snd] in HU0.
  rewrite Hcheck. unfold check_stability in Hcheck.
  destruct (pydiv T (of_int (Z.of_nat Nt))) as [dt|]; [|discriminate].
  cbn [mbind option_bind] in *.
  destruct (pydiv L (of_int (Z.of_nat Nx))) as [dx|]; [|discriminate].
  cbn [mbind option_bind] in *.
  destruct (fpow2 dx) as [dx2|]; [|discriminate].
  cbn [mbind option_bind] in *.
  destruct (pydiv (D * dt)%A dx2) as [r'|]; [|discriminate].
  cbn [mbind option_bind] in *. injection Hcheck as _ ->.
  destruct (zeros_shape (S Nt) Nx) as [Hrows Hcols].
  assert (Hrow0 : zeros (S Nt) Nx !! 0%nat = Some (replicate Nx (of_int 0)))
    by reflexivity.
  rewrite (set_row_same 0 _ _ _ Hrow0) by (rewrite length_replicate; lia).
  cbn [mbind option_bind].
  match goal with |- context [euler_loop _ _ _ _ _ ?M0] => set (M := M0) end.
  destruct (euler_loop_spec r 10 10 Nx Nt 0 M)
    as (R & HR & HlenR & HRc & Hb & Ha).
  - unfold M. list_len.
  - apply Forall_insert; [exact Hcols | exact HU0].
  - exact Hpos.
  - rewrite HR. cbn [mbind option_bind].
    exists R. split; [reflexivity|].
    split; [rewrite HlenR; unfold M; list_len|]. split; [exact HRc|]. split.
    + rewrite Hb by lia. apply list_lookup_insert_eq. lia.
    + intros m Hm. apply Ha. lia.
Qed.

(** *** Runs of the two steppers *)

Lemma pydiv_Some (a b q : F) : pydiv a b = Some q -> q = fdiv a b.
Proof. unfold pydiv. destruct (is_zero b); [discriminate | congruence]. Qed.

Lemma heat_ratio_Some (Nx Nt : nat) (L T D alpha dt : F) :
  heat_ratio Nx Nt L T D = Some (alpha, dt) ->
  dt = fdiv T (of_int (Z.of_nat Nt)) /\
  alpha = ratio D dt (fdiv L (of_int (Z.of_nat Nx - 1))).
Proof.
  unfold heat_ratio. intros Hr.
  destruct (pydiv L _) as [dx|] eqn:Hdx; [|discriminate].
  cbn [mbind option_bind] in Hr.
  destruct (pydiv T _) as [dt'|] eqn:Hdt; [|discriminate].
  cbn [mbind option_bind] in Hr.
  destruct (fpow2 dx) as [dx2|] eqn:Hsq; [|discriminate].
  cbn [mbind option_bind] in Hr.
  destruct (pydiv (D * dt')%A _) as [a|] eqn:Ha; [|discriminate].
  cbn [mbind option_bind] in Hr. injection Hr as <- <-.
  apply pydiv_Some in Hdx, Hdt, Ha. apply fpow2_value in Hsq.
  subst. split; reflexivity.
Qed.

Lemma check_stability_Some (D T : F) (Nt Nx : nat) (L : F) (ok : bool) (r : F) :
  check_stability D T Nt Nx L = Some (ok, r) ->
  r = ratio D (fdiv T (of_int (Z.of_nat Nt))) (fdiv L (of_int (Z.of_nat Nx))) /\
  ok = fle r (lit 0.5).
Proof.
  unfold check_stability. intros Hc.
  destruct (pydiv T _) as [dt|] eqn:Hdt; [|discriminate].
  cbn [mbind option_bind] in Hc.
  destruct (pydiv L _) as [dx|] eqn:Hdx; [|discriminate].
  cbn [mbind option_bind] in Hc.
  destruct (fpow2 dx) as [dx2|] eqn:Hsq; [|discriminate].
  cbn [mbind option_bind] in Hc.
  destruct (pydiv (D * dt)%A _) as [a|] eqn:Ha; [|discriminate].
  cbn [mbind option_bind] in Hc. injection Hc as <- <-.
  apply pydiv_Some in Hdx, Hdt, Ha. apply fpow2_value in Hsq.
  subst. split; reflexivity.
Qed.

Lemma analyze_stability_Some (L T D : F) (Nt Nx : nat) (ok : bool) (r : F)
    (rec : option Z) :
  analyze_stability L T D Nt Nx = Some (ok, r, rec) -> ok = fle r (lit 0.5).
Proof.
  unfold analyze_stability. intros Ha.
  destruct (pydiv T _) as [dt|]; [|discriminate].
  cbn [mbind option_bind] in Ha.
  destruct (pydiv L _) as [dx|]; [|discriminate].
  cbn [mbind option_bind] in Ha.
  destruct (fpow2 dx) as [dx2|]; [|discriminate].
  cbn [mbind option_bind] in Ha.
  destruct (pydiv (D * dt)%A _) as [r'|]; [|discriminate].
  cbn [mbind option_bind] in Ha.
  destruct (flt (lit 0.5) r').
  - destruct (required_steps L T D Nx); [|discriminate].
    cbn [mbind option_bind] in Ha. congruence.
  - congruence.
Qed.

Lemma stability_line_Some (Nt_val : nat) (alpha : F) (ok : bool) :
  stability_line Nt_val = Some (alpha, ok) ->
  ok = flt alpha (lit 0.5) /\
  exists dx,
    fr_dx = Some dx /\
    alpha = ratio fr_D (fdiv fr_T (of_int (Z.of_nat Nt_val))) dx.
Proof.
  unfold stability_line. intros Hl.
  destruct fr_dx as [dx|]; [|discriminate].
  cbn [mbind option_bind] in Hl.
  destruct (pydiv fr_T _) as [dt|] eqn:Hdt; [|discriminate].
  cbn [mbind option_bind] in Hl. injection Hl as <- <-.
  apply pydiv_Some in Hdt. subst dt.
  split; [reflexivity|]. exists dx. split; reflexivity.
Qed.

(** The ratio of [explicit_heat], with the power as the code takes it. *)
Lemma heat_ratio_power (Nx Nt : nat) (L T D alpha dt : F) :
  heat_ratio Nx Nt L T D = Some (alpha, dt) ->
  exists dx2,
    dt = fdiv T (of_int (Z.of_nat Nt)) /\
    fpow2 (fdiv L (of_int (Z.of_nat Nx - 1))) = Some dx2 /\
    alpha = fdiv (D * dt)%A dx2.
Proof.
  unfold heat_ratio. intros Hr.
  destruct (pydiv L _) as [dx|] eqn:Hdx; [|discriminate].
  cbn [mbind option_bind] in Hr.
  destruct (pydiv T _) as [dt'|] eqn:Hdt; [|discriminate].
  cbn [mbind option_bind] in Hr.
  destruct (fpow2 dx) as [dx2|] eqn:Hsq; [|discriminate].
  cbn [mbind option_bind] in Hr.
  destruct (pydiv (D * dt')%A _) as [a|] eqn:Ha; [|discriminate].
  cbn [mbind option_bind] in Hr. injection Hr as <- <-.
  apply pydiv_Some in Hdx, Hdt, Ha. subst.
  exists dx2. repeat split; assumption || reflexivity.
Qed.

(** The stability factor of [check_stability], with the power as the code
    takes it. *)
Lemma check_stability_power (D T : F) (Nt Nx : nat) (L : F) (ok : bool)
    (r : F) :
  check_stability D T Nt Nx L = Some (ok, r) ->
  exists dx2,
    fpow2 (fdiv L (of_int (Z.of_nat Nx))) = Some dx2 /\
    r = fdiv (D * fdiv T (of_int (Z.of_nat Nt)))%A dx2.
Proof.
  unfold check_stability. intros Hc.
  destruct (pydiv T _) as [dt|] eqn:Hdt; [|discriminate].
  cbn [mbind option_bind] in Hc.
  destruct (pydiv L _) as [dx|] eqn:Hdx; [|discriminate].
  cbn [mbind option_bind] in Hc.
  destruct (fpow2 dx) as [dx2|] eqn:Hsq; [|discriminate].
  cbn [mbind option_bind] in Hc.
  destruct (pydiv (D * dt)%A _) as [a|] eqn:Ha; [|discriminate].
  cbn [mbind option_bind] in Hc. injection Hc as <- <-.
  apply pydiv_Some in Hdx, Hdt, Ha. subst.
  exists dx2. split; assumption || reflexivity.
Qed.

(** A call of [solve_heat_equation_euler] that returns has passed through
    [check_stability]. *)
Lemma solve_checks_stability (L T D : F) (Nt Nx : nat) res :
  solve_heat_equation_euler L T D Nt Nx = Some res ->
  exists ok r, check_stability D T Nt Nx L = Some (ok, r).
Proof.
  unfold solve_heat_equation_euler, initialize_conditions. intros Hs.
  destruct (pydiv T _) as [dt|]; [|discriminate].
  cbn [mbind option_bind] in Hs.
  destruct (pydiv L _) as [dx|]; [|discriminate].
  cbn [mbind option_bind] in Hs.
  destruct (check_stability D T Nt Nx L) as [[ok r]|]; [|discriminate].
  eauto.
Qed.

(** The common shape of a run: row 0 holds the initial profile, and each of
    the [Nt] later rows is one step after the row before it, with the run's
    ratio and boundary values. *)
Lemma stepper_run_rows (Nx Nt : nat) (D dt dx : F) (init : list F)
    (U_left U_right : F) (field : list (list F)) :
  stepper_run Nx Nt D dt dx init U_left U_right field -> (0 < Nx)%nat ->
  length field = S Nt /\ row_lengths Nx field /\
  field !! 0%nat = Some init /\
  forall m, (m < Nt)%nat -> stepped (ratio D dt dx) U_left U_right field m.
Proof.
  intros Hrun Hpos.
  destruct Hrun as [U_init L T U1 U2 field Hlen Hdt Hdx Hcall
                   | L T x t U Hdt Hdx Hcall].
  - destruct (heat_ratio Nx Nt L T D) as [[a d]|] eqn:Hr.
    + destruct (explicit_heat_spec U_init Nx Nt L T D U1 U2 a d Hr Hlen Hpos)
        as (field' & Hcall' & Hrows & Hcols & H0 & Hsteps).
      rewrite Hcall in Hcall'. injection Hcall' as <- <- <-.
      repeat split; assumption.
    + unfold explicit_heat in Hcall. rewrite Hr in Hcall. discriminate.
  - destruct (solve_checks_stability _ _ _ _ _ _ Hcall) as (ok & r & Hc).
    destruct (solve_heat_equation_euler_spec L T D Nt Nx ok r Hc Hpos)
      as (U' & Hcall' & Hrows & Hcols & H0 & Hsteps).
    rewrite Hcall in Hcall'. injection Hcall' as _ _ ->.
    destruct (check_stability_Some _ _ _ _ _ _ _ Hc) as [-> _].
    subst dt dx. repeat split; assumption.
Qed.

(** In a run on at least two points, every row after the first is the
    entry-wise image of the row before it under the update rule. *)
Lemma stepper_run_next (Nx Nt : nat) (D dt dx : F) (init : list F)
    (U_left U_right : F) (field : list (list F)) (n : nat) :
  stepper_run Nx Nt D dt dx init U_left U_right field ->
  (0 < Nx)%nat -> (n < Nt)%nat ->
  exists cur next,
    field !! n = Some cur /\ field !! S n = Some next /\
    length cur = Nx /\ length next = Nx /\
    forall i, (i < Nx)%nat ->
      next !! i = next_entry (ratio D dt dx) U_left U_right cur i.
Proof.
  intros Hrun Hpos Hn.
  destruct (stepper_run_rows _ _ _ _ _ _ _ _ _ Hrun Hpos)
    as (Hrows & Hcols & _ & Hsteps).
  destruct (Hsteps n Hn) as (cur & next & Hcur & Hnext & Hstep).
  assert (Hc : length cur = Nx) by exact (Forall_lookup_1 _ _ _ _ Hcols Hcur).
  destruct (heat_step_spec (ratio D dt dx) U_left U_right cur)
    as (next' & Hstep' & Hlen' & Hent); [lia|].
  assert (next' = next) as -> by congruence.
  exists cur, next. repeat split; try assumption; try congruence.
  intros i Hi. apply Hent. lia.
Qed.

(** Every call that returns is a run: of [explicit_heat] when the profile
    has [Nx] samples, of [solve_heat_equation_euler] always. *)
Lemma explicit_heat_is_run (U_init : list F) (Nx Nt : nat)
    (L T D U1 U2 alpha dt : F) (field : list (list F)) :
  length U_init = Nx ->
  explicit_heat U_init Nx Nt L T D U1 U2 = Some (field, alpha, dt) ->
  alpha = ratio D dt (fdiv L (of_int (Z.of_nat Nx - 1))) /\
  stepper_run Nx Nt D dt (fdiv L (of_int (Z.of_nat Nx - 1)))
    U_init U1 U2 field.
Proof.
  intros Hlen Hcall.
  assert (Hratio : heat_ratio Nx Nt L T D = Some (alpha, dt)).
  { unfold explicit_heat in Hcall.
    destruct (heat_ratio Nx Nt L T D) as [[a d]|]; [|discriminate].
    cbn [mbind option_bind] in Hcall.
    destruct (set_row 0 U_init _) as [M|]; [|discriminate].
    cbn [mbind option_bind] in Hcall.
    destruct (heat_loop a U1 U2 Nt 0 U_init M); [|discriminate].
    cbn [mbind option_bind] in Hcall. congruence. }
  destruct (heat_ratio_Some _ _ _ _ _ _ _ Hratio) as [Hdt Halpha].
  split; [exact Halpha|].
  apply run_explicit_heat with (L := L) (T := T); try done.
  rewrite <- Halpha. exact Hcall.
Qed.

Lemma solve_is_run (L T D : F) (Nt Nx : nat) (x t : list F)
    (U : list (list F)) :
  solve_heat_equation_euler L T D Nt Nx = Some (x, t, U) ->
  stepper_run Nx Nt D (fdiv T (of_int (Z.of_nat Nt)))
    (fdiv L (of_int (Z.of_nat Nx))) (euler_profile Nx L)
    (of_int 20) (of_int 0) U.
Proof.
  intros Hcall.
  exact (run_solve_euler _ _ _ _ _ L T x t U eq_refl eq_refl Hcall).
Qed.

(** In a field whose rows are built by the step, each row follows from the
    row before it by the update rule: the boundary values at the two ends,
    the three-point formula in between. *)
Lemma stepped_rows_rule (r U_left U_right : F) (Nx Nt : nat)
    (field : list (list F)) :
  row_lengths Nx field -> (3 <= Nx)%nat ->
  (forall m, (m < Nt)%nat -> stepped r U_left U_right field m) ->
  forall n, (n < Nt)%nat ->
    exists cur next,
      field !! n = Some cur /\ field !! S n = Some next /\
      length next = Nx /\
      next !! 0%nat = Some U_left /\
      next !! (Nx - 1)%nat = Some U_right /\
      forall i, (1 <= i <= Nx - 2)%nat ->
        exists a b c,
          cur !! (i - 1)%nat = Some a /\ cur !! i = Some b /\
          cur !! (i + 1)%nat = Some c /\
          next !! i = Some (b + r * (c - of_int 2 * b + a))%A.
Proof.
  intros Hcols HNx Hsteps n Hn.
  destruct (Hsteps n Hn) as (cur & next & Hcur & Hnext & Hstep).
  assert (Hc : length cur = Nx) by exact (Forall_lookup_1 _ _ _ _ Hcols Hcur).
  destruct (heat_step_spec r U_left U_right cur) as (W & HW & Hl & Hent);
    [lia|].
  rewrite Hstep in HW. injection HW as <-. rewrite Hc in Hl, Hent.
  exists cur, next. repeat split; try assumption.
  - rewrite Hent by lia. unfold next_entry.
    rewrite decide_False by lia. rewrite decide_True by reflexivity.
    reflexivity.
  - rewrite Hent by lia. unfold next_entry.
    rewrite decide_True by lia. reflexivity.
  - intros i Hi.
    destruct (lookup_lt_is_Some_2 cur (i - 1)) as [a Ha]; [lia|].
    destruct (lookup_lt_is_Some_2 cur i) as [b Hb]; [lia|].
    destruct (lookup_lt_is_Some_2 cur (i + 1)) as [c Hc']; [lia|].
    exists a, b, c. repeat split; try assumption.
    rewrite Hent by lia. unfold next_entry.
    rewrite !decide_False by lia.
    rewrite Ha, Hb, Hc'. reflexivity.
Qed.

End Stepper.

(** ** [explicit_heat] on the store agrees with [explicit_heat] on values *)

Section HeapFacts.
Context {F : Type} {AF : Arith F}.
Implicit Types s t : gmap nat (@array F).

Lemma fresh_unused s : s !! fresh (dom s) = None.
Proof. apply not_elem_of_dom, is_fresh. Qed.

Lemma fresh_frame t s : t ⊆ s -> t !! fresh (dom s) = None.
Proof.
  intros Hsub. destruct (t !! fresh (dom s)) as [a|] eqn:Ha; [|reflexivity].
  pose proof (lookup_weaken _ _ _ _ Ha Hsub) as Hs.
  rewrite fresh_unused in Hs. discriminate.
Qed.

Lemma fresh_ne s (l : nat) (a : array) :
  s !! l = Some a -> l ≠ fresh (dom s).
Proof. intros Hl ->. rewrite fresh_unused in Hl. discriminate. Qed.

Lemma np_copy_run s (a : nat) (d : list F) :
  s !! a = Some (Arr1 d) ->
  np_copy a s = Some (fresh (dom s), <[fresh (dom s) := Arr1 d]> s).
Proof. intros Ha. unfold np_copy, st_bind, st_read1. rewrite Ha. reflexivity. Qed.

Lemma assign_interior_run s (alpha : F) (V U : nat) (v u : list F) :
  s !! U = Some (Arr1 u) -> s !! V = Some (Arr1 v) ->
  assign_interior alpha V U s
  = match interior alpha u ≫= fun vals =>
            set_slice (Some 1) (Some (-1)) vals v with
    | Some v' => Some (tt, <[V := Arr1 v']> s)
    | None => None
    end.
Proof.
  intros HU HV. unfold assign_interior, st_bind, st_read1, st_lift, st_write.
  rewrite HU. destruct (interior alpha u) as [vals|]; [|reflexivity].
  rewrite HV. cbn [mbind option_bind].
  destruct (set_slice _ _ vals v); reflexivity.
Qed.

Lemma assign_item_run s (a : nat) (i : Z) (x : F) (d : list F) :
  s !! a = Some (Arr1 d) ->
  assign_item a i x s
  = match set_item i x d with
    | Some d' => Some (tt, <[a := Arr1 d']> s)
    | None => None
    end.
Proof.
  intros Ha. unfold assign_item, st_bind, st_read1, st_lift, st_write.
  rewrite Ha. destruct (set_item i x d); reflexivity.
Qed.

Lemma assign_row_run s (M n v : nat) (rows : list (list F)) (d : list F) :
  s !! M = Some (Arr2 rows) -> s !! v = Some (Arr1 d) ->
  assign_row M n v s
  = match set_row n d rows with
    | Some rows' => Some (tt, <[M := Arr2 rows']> s)
    | None => None
    end.
Proof.
  intros HM Hv. unfold assign_row, st_bind, st_read2, st_read1, st_lift, st_write.
  rewrite HM, Hv. destruct (set_row n d rows); reflexivity.
Qed.

(** One iteration on the store: a new array for [U_new], holding the next
    profile, and row [n + 1] of [U_all] overwritten with it. *)
Lemma heat_loop_st_step (alpha U1 U2 : F) (k n U U_all : nat) s
    (u : list F) (M : list (list F)) :
  s !! U = Some (Arr1 u) -> s !! U_all = Some (Arr2 M) ->
  heat_loop_st alpha U1 U2 (S k) n U U_all s
  = match heat_step alpha U1 U2 u with
    | Some w =>
        match set_row (S n) w M with
        | Some M' =>
            heat_loop_st alpha U1 U2 k (S n) (fresh (dom s)) U_all
              (<[U_all := Arr2 M']> (<[fresh (dom s) := Arr1 w]> s))
        | None => None
        end
    | None => None
    end.
Proof.
  intros HU HM.
  cbn [heat_loop_st]. unfold st_bind at 1.
  rewrite (np_copy_run s U u HU).
  set (V := fresh (dom s)).
  assert (HVM : U_all ≠ V) by exact (fresh_ne s U_all _ HM).
  assert (HVU : U ≠ V) by exact (fresh_ne s U _ HU).
  unfold st_bind at 1.
  rewrite (assign_interior_run _ alpha V U u u)
    by (rewrite ?lookup_insert_eq, ?lookup_insert_ne by done; done).
  unfold heat_step.
  destruct (interior alpha u) as [vals|]; [|reflexivity].
  cbn [mbind option_bind].
  destruct (set_slice (Some 1) (Some (-1)) vals u) as [w1|]; [|reflexivity].
  cbn [mbind option_bind]. rewrite insert_insert_eq.
  unfold st_bind at 1.
  rewrite (assign_item_run _ V 0 U1 w1) by apply lookup_insert_eq.
  destruct (set_item 0 U1 w1) as [w2|]; [|reflexivity].
  cbn [mbind option_bind]. rewrite insert_insert_eq.
  unfold st_bind at 1.
  rewrite (assign_item_run _ V (-1) U2 w2) by apply lookup_insert_eq.
  destruct (set_item (-1) U2 w2) as [w3|]; [|reflexivity].
  rewrite insert_insert_eq.
  unfold st_bind at 1.
  rewrite (assign_row_run _ U_all (S n) V M w3)
    by (rewrite ?lookup_insert_eq, ?lookup_insert_ne by done; done).
  destruct (set_row (S n) w3 M) as [M'|]; reflexivity.
Qed.

(** The loop on the store computes what the loop on values computes, and
    writes only to [U_all] and to arrays that it has created itself. *)
Lemma heat_loop_st_run (alpha U1 U2 : F) (k : nat) :
  forall (n U U_all : nat) s t (u : list F) (M : list (list F)),
    s !! U = Some (Arr1 u) -> s !! U_all = Some (Arr2 M) ->
    t ⊆ s -> t !! U_all = None ->
    match heat_loop alpha U1 U2 k n u M with
    | Some R =>
        exists s',
          heat_loop_st alpha U1 U2 k n U U_all s = Some (tt, s') /\
          s' !! U_all = Some (Arr2 R) /\ t ⊆ s'
    | None => heat_loop_st alpha U1 U2 k n U U_all s = None
    end.
Proof.
  induction k as [|k IH]; intros n U U_all s t u M HU HM Hsub Hfree.
  { simpl. exists s. repeat split; assumption. }
  rewrite (heat_loop_st_step alpha U1 U2 k n U U_all s u M HU HM).
  cbn [heat_loop].
  destruct (heat_step alpha U1 U2 u) as [w|]; [|reflexivity].
  cbn [mbind option_bind].
  destruct (set_row (S n) w M) as [M'|]; [|reflexivity].
  cbn [mbind option_bind].
  assert (HVM : U_all ≠ fresh (dom s)) by exact (fresh_ne s U_all _ HM).
  apply IH.
  - rewrite lookup_insert_ne by done. apply lookup_insert_eq.
  - apply lookup_insert_eq.
  - apply insert_subseteq_r; [exact Hfree|].
    apply insert_subseteq_r; [exact (fresh_frame t s Hsub) | exact Hsub].
  - exact Hfree.
Qed.

Lemma explicit_heat_st_unfold (p Nx Nt : nat) (L T D U1 U2 : F) s
    (U_init : list F) :
  s !! p = Some (Arr1 U_init) ->
  explicit_heat_st p Nx Nt L T D U1 U2 s
  = match heat_ratio Nx Nt L T D with
    | Some ad =>
        match set_row 0 U_init (zeros (S Nt) Nx) with
        | Some M =>
            let s4 := store_loop s Nx Nt U_init M in
            let U :=
              fresh (dom (<[fresh (dom s) := Arr2 M]>
                            (store_tmp s Nx Nt U_init))) in
            match heat_loop_st ad.1 U1 U2 Nt 0 U (fresh (dom s)) s4 with
            | Some (_, s') => Some ((fresh (dom s), ad.1, ad.2), s')
            | None => None
            end
        | None => None
        end
    | None => None
    end.
Proof.
  intros Hp. unfold explicit_heat_st.
  unfold st_bind at 1. unfold st_lift.
  destruct (heat_ratio Nx Nt L T D) as [ad|]; [|reflexivity].
  unfold st_bind at 1. unfold np_zeros, st_alloc.
  fold (store_zeros s Nx Nt).
  set (q := fresh (dom s)).
  assert (Hpq : p ≠ q) by exact (fresh_ne s p _ Hp).
  assert (Hp1 : store_zeros s Nx Nt !! p = Some (Arr1 U_init))
    by (unfold store_zeros; rewrite lookup_insert_ne by done; exact Hp).
  unfold st_bind at 1. rewrite (np_copy_run _ p U_init Hp1).
  fold (store_tmp s Nx Nt U_init).
  set (tmp := fresh (dom (store_zeros s Nx Nt))).
  assert (Hqtmp : q ≠ tmp).
  { apply (fresh_ne _ q (Arr2 (zeros (S Nt) Nx))). apply lookup_insert_eq. }
  assert (Hptmp : p ≠ tmp) by exact (fresh_ne _ p _ Hp1).
  unfold st_bind at 1.
  rewrite (assign_row_run _ q 0 tmp (zeros (S Nt) Nx) U_init).
  2: { unfold store_tmp. rewrite lookup_insert_ne by done.
       apply lookup_insert_eq. }
  2: { apply lookup_insert_eq. }
  destruct (set_row 0 U_init (zeros (S Nt) Nx)) as [M|]; [|reflexivity].
  assert (Hp3 : <[q := Arr2 M]> (store_tmp s Nx Nt U_init) !! p
                = Some (Arr1 U_init)).
  { rewrite lookup_insert_ne by done. unfold store_tmp.
    rewrite lookup_insert_ne by done. exact Hp1. }
  unfold st_bind at 1. rewrite (np_copy_run _ p U_init Hp3).
  unfold st_bind at 1. unfold store_loop. fold q.
  cbv zeta.
  destruct (heat_loop_st ad.1 U1 U2 Nt 0 _ q _) as [[[] s']|]; reflexivity.
Qed.

(** [explicit_heat] on the store returns what [explicit_heat] on values
    returns, in a new array, and leaves every array of the caller as it
    was. *)
Lemma explicit_heat_st_run (p Nx Nt : nat) (L T D U1 U2 : F) s
    (U_init : list F) :
  s !! p = Some (Arr1 U_init) ->
  match explicit_heat U_init Nx Nt L T D U1 U2 with
  | Some (field, alpha, dt) =>
      exists q s',
        explicit_heat_st p Nx Nt L T D U1 U2 s = Some ((q, alpha, dt), s') /\
        s' !! q = Some (Arr2 field) /\ s !! q = None /\ s ⊆ s'
  | None => explicit_heat_st p Nx Nt L T D U1 U2 s = None
  end.
Proof.
  intros Hp. rewrite (explicit_heat_st_unfold p Nx Nt L T D U1 U2 s U_init Hp).
  unfold explicit_heat.
  destruct (heat_ratio Nx Nt L T D) as [[alpha dt]|]; [|reflexivity].
  cbn [mbind option_bind fst snd].
  destruct (set_row 0 U_init (zeros (S Nt) Nx)) as [M|]; [|reflexivity].
  cbn [mbind option_bind]. cbv zeta.
  set (q := fresh (dom s)).
  set (s3 := <[q := Arr2 M]> (store_tmp s Nx Nt U_init)).
  assert (Hsub3 : s ⊆ s3).
  { unfold s3, store_tmp, store_zeros. fold q.
    apply insert_subseteq_r; [apply fresh_unused|].
    apply insert_subseteq_r.
    - apply fresh_frame. apply insert_subseteq, fresh_unused.
    - apply insert_subseteq, fresh_unused. }
  assert (Hq3 : s3 !! q = Some (Arr2 M)) by apply lookup_insert_eq.
  pose proof (heat_loop_st_run alpha U1 U2 Nt 0 (fresh (dom s3)) q
                (store_loop s Nx Nt U_init M) s U_init M) as Hloop.
  unfold store_loop in *. fold q in Hloop |- *. fold s3 in Hloop |- *.
  cbv zeta in Hloop.
  destruct (heat_loop alpha U1 U2 Nt 0 U_init M) as [R|].
  - destruct Hloop as (s' & Hrun & HR & Hsub).
    + apply lookup_insert_eq.
    + rewrite lookup_insert_ne
        by exact (not_eq_sym (fresh_ne s3 q _ Hq3)).
      exact Hq3.
    + apply insert_subseteq_r; [exact (fresh_frame s s3 Hsub3) | exact Hsub3].
    + apply fresh_unused.
    + rewrite Hrun. cbn [mbind option_bind].
      exists q, s'. repeat split; try assumption. apply fresh_unused.
  - rewrite Hloop; try reflexivity.
    + apply lookup_insert_eq.
    + rewrite lookup_insert_ne
        by exact (not_eq_sym (fresh_ne s3 q _ Hq3)).
      exact Hq3.
    + apply insert_subseteq_r; [exact (fresh_frame s s3 Hsub3) | exact Hsub3].
    + apply fresh_unused.
Qed.

End HeapFacts.

(** ** Exact arithmetic: the maximum principle *)

Section Exact.
Variable th : Q -> Q.
#[local] Hint Extern 0 (Arith Q) => exact (ArithQ th) : typeclass_instances.

Lemma lower_le_bounds (Ul Ur : Q) (U0 : list Q) :
  (lower Ul Ur U0 <= Ul /\ lower Ul Ur U0 <= Ur)%Q.
Proof.
  unfold lower. induction U0 as [|x U0 [IHl IHr]]; simpl.
  - split; [apply Q.le_min_l | apply Q.le_min_r].
  - pose proof (Q.le_min_r x (foldr Qmin (Qmin Ul Ur) U0)).
    split; eapply Qle_trans; eauto.
Qed.

Lemma upper_ge_bounds (Ul Ur : Q) (U0 : list Q) :
  (Ul <= upper Ul Ur U0 /\ Ur <= upper Ul Ur U0)%Q.
Proof.
  unfold upper. induction U0 as [|x U0 [IHl IHr]]; simpl.
  - split; [apply Q.le_max_l | apply Q.le_max_r].
  - pose proof (Q.le_max_r x (foldr Qmax (Qmax Ul Ur) U0)).
    split; eapply Qle_trans; eauto.
Qed.

Lemma within_initial (Ul Ur : Q) (U0 : list Q) :
  within (lower Ul Ur U0) (upper Ul Ur U0) U0.
Proof.
  unfold within, lower, upper. induction U0 as [|x U0 IH]; simpl.
  - constructor.
  - constructor.
    + split; [apply Q.le_min_l | apply Q.le_max_l].
    + eapply Forall_impl; [exact IH|]. intros v [Hlo Hhi]. simpl in *.
      split.
      * eapply Qle_trans; [apply Q.le_min_r | exact Hlo].
      * eapply Qle_trans; [exact Hhi | apply Q.le_max_r].
Qed.

(** With [0 <= r <= 1/2] the stencil is a weighted mean of its three
    arguments, with weights [r], [1 - 2r] and [r]. *)
Lemma stencil_within (r a b c lo hi : Q) :
  (0 <= r)%Q -> (r <= 1 # 2)%Q ->
  (lo <= a <= hi)%Q -> (lo <= b <= hi)%Q -> (lo <= c <= hi)%Q ->
  (lo <= stencil r a b c <= hi)%Q.
Proof.
  intros Hr0 Hr1 [Ha1 Ha2] [Hb1 Hb2] [Hc1 Hc2].
  unfold stencil. cbn [fadd fsub fmul of_int ArithQ].
  change (inject_Z 2) with 2%Q.
  assert (H1 : (0 <= r * (a - lo))%Q) by (apply Qmult_le_0_compat; Lqa.lra).
  assert (H2 : (0 <= r * (c - lo))%Q) by (apply Qmult_le_0_compat; Lqa.lra).
  assert (H3 : (0 <= (1 - 2 * r) * (b - lo))%Q)
    by (apply Qmult_le_0_compat; Lqa.lra).
  assert (H4 : (0 <= r * (hi - a))%Q) by (apply Qmult_le_0_compat; Lqa.lra).
  assert (H5 : (0 <= r * (hi - c))%Q) by (apply Qmult_le_0_compat; Lqa.lra).
  assert (H6 : (0 <= (1 - 2 * r) * (hi - b))%Q)
    by (apply Qmult_le_0_compat; Lqa.lra).
  split; Lqa.lra.
Qed.

(** One step keeps a profile within bounds that contain the two boundary
    values. *)
Lemma heat_step_within (r Ul Ur lo hi : Q) (U U' : list Q) :
  (0 <= r)%Q -> (r <= 1 # 2)%Q ->
  (lo <= Ul <= hi)%Q -> (lo <= Ur <= hi)%Q ->
  heat_step r Ul Ur U = Some U' -> within lo hi U -> within lo hi U'.
Proof.
  intros Hr0 Hr1 HUl HUr Hstep HU.
  destruct U as [|u0 U]; [discriminate|].
  destruct (heat_step_spec r Ul Ur (u0 :: U)) as (W & HW & Hlen & Hent);
    [simpl; lia|].
  assert (W = U') as -> by congruence.
  apply Forall_lookup_2. intros i v Hv.
  assert (Hi : (i < length (u0 :: U))%nat)
    by (rewrite <- Hlen; eapply lookup_lt_Some; eauto).
  rewrite Hent in Hv by exact Hi. unfold next_entry in Hv.
  destruct (decide _); [congruence|].
  destruct (decide _); [congruence|].
  destruct ((u0 :: U) !! (i - 1)%nat) as [a|] eqn:Ha; [|discriminate].
  destruct ((u0 :: U) !! i) as [b|] eqn:Hb; [|discriminate].
  destruct ((u0 :: U) !! (i + 1)%nat) as [c|] eqn:Hc; [|discriminate].
  cbn [mbind option_bind] in Hv. injection Hv as <-.
  apply stencil_within; try assumption.
  - exact (Forall_lookup_1 _ _ _ _ HU Ha).
  - exact (Forall_lookup_1 _ _ _ _ HU Hb).
  - exact (Forall_lookup_1 _ _ _ _ HU Hc).
Qed.

(** Rows related by the stepper stay within the bounds of the first. *)
Lemma stepped_rows_within (r Ul Ur lo hi : Q) (field : list (list Q))
    (init : list Q) (Nt : nat) :
  (0 <= r)%Q -> (r <= 1 # 2)%Q ->
  (lo <= Ul <= hi)%Q -> (lo <= Ur <= hi)%Q ->
  field !! 0%nat = Some init -> within lo hi init ->
  (forall m, (m < Nt)%nat -> stepped r Ul Ur field m) ->
  forall n row, (n <= Nt)%nat -> field !! n = Some row -> within lo hi row.
Proof.
  intros Hr0 Hr1 HUl HUr H0 Hinit Hsteps n.
  induction n as [|n IH]; intros row Hn Hrow.
  - assert (row = init) as -> by congruence. exact Hinit.
  - destruct (Hsteps n) as (cur & next & Hcur & Hnext & Hstep); [lia|].
    assert (next = row) as -> by congruence.
    apply (heat_step_within r Ul Ur lo hi cur row); try assumption.
    apply IH; [lia | exact Hcur].
Qed.

(** *** The stability checks in exact arithmetic *)

Lemma pydiv_exact (a b : Q) : ~ (b == 0)%Q -> pydiv a b = Some (a / b)%Q.
Proof.
  intros Hb. unfold pydiv. cbn [is_zero fdiv ArithQ].
  destruct (Qeq_bool b 0) eqn:E; [|reflexivity].
  apply Qeq_bool_iff in E. contradiction.
Qed.

Lemma inject_Z_nonzero (n : Z) : n <> 0 -> ~ (inject_Z n == 0)%Q.
Proof. intros Hn Heq. apply Hn. unfold Qeq in Heq. simpl in Heq. lia. Qed.

Lemma sqr_nonzero (x : Q) : ~ (x == 0)%Q -> ~ (sqr x == 0)%Q.
Proof.
  intros Hx Hs. unfold sqr in Hs. cbn [fsqr ArithQ] in Hs.
  apply Qmult_integral in Hs. tauto.
Qed.

Lemma quotient_nonzero (a : Q) (n : Z) :
  ~ (a == 0)%Q -> n <> 0 -> ~ (a / inject_Z n == 0)%Q.
Proof.
  intros Ha Hn Hq. pose proof (inject_Z_nonzero n Hn) as Hz.
  apply Ha. rewrite <- (Qmult_div_r a (inject_Z n)) by exact Hz.
  rewrite Hq. ring.
Qed.

Lemma flt_exact (x y : Q) : flt x y = true <-> (x < y)%Q.
Proof.
  cbn [flt ArithQ]. rewrite negb_true_iff.
  destruct (Qle_bool y x) eqn:E.
  - apply Qle_bool_iff in E. split; [discriminate | Lqa.lra].
  - split; [|reflexivity]. intros _. apply Qnot_le_lt. intros Hle.
    apply Qle_bool_iff in Hle. congruence.
Qed.

Lemma fle_exact (x y : Q) : fle x y = true <-> (x <= y)%Q.
Proof. cbn [fle ArithQ]. apply Qle_bool_iff. Qed.

(** For a valid discretisation [check_stability] returns the ratio
    [D * (T / Nt) / (L / Nx)**2] and the verdict [ratio <= 0.5]. *)
Lemma check_stability_exact (D T L : Q) (Nt Nx : nat) :
  (1 <= Nt)%nat -> (1 <= Nx)%nat -> ~ (L == 0)%Q ->
  let r := ratio D (T / inject_Z (Z.of_nat Nt))%Q
                   (L / inject_Z (Z.of_nat Nx))%Q in
  check_stability D T Nt Nx L = Some (fle r (lit 0.5), r).
Proof.
  intros HNt HNx HL r. unfold check_stability.
  cbn [of_int ArithQ].
  rewrite pydiv_exact by (apply inject_Z_nonzero; lia).
  cbn [mbind option_bind].
  rewrite pydiv_exact by (apply inject_Z_nonzero; lia).
  cbn [mbind option_bind fpow2 ArithQ].
  rewrite pydiv_exact
    by (apply sqr_nonzero, quotient_nonzero; [exact HL | lia]).
  reflexivity.
Qed.

(** The value that [required_steps] takes the ceiling of is twice the
    ratio times [Nt]. *)
Lemma ratio_as_quotient (D T L : Q) (n x : Z) :
  ~ (L == 0)%Q -> n <> 0 -> x <> 0 ->
  (ratio D (T / inject_Z n) (L / inject_Z x)
   == (inject_Z 2 * D * T * inject_Z (x ^ 2) / (L * L)) / (2 * inject_Z n))%Q.
Proof.
  intros HL Hn Hx. unfold ratio, sqr.
  cbn [fsqr fmul fdiv ArithQ].
  pose proof (inject_Z_nonzero n Hn) as Hn'.
  pose proof (inject_Z_nonzero x Hx) as Hx'.
  replace (x ^ 2)%Z with (x * x)%Z by ring.
  rewrite inject_Z_mult. change (inject_Z 2) with 2%Q.
  field. repeat split; assumption.
Qed.

(** The time grid of [solve_heat_equation_euler]: [Nt + 1] samples,
    sample [i] being [i * (T / Nt)], the last one [T] itself. *)
Lemma time_grid_exact (T : Q) (Nt : nat) :
  (1 <= Nt)%nat ->
  let t := linspace (of_int 0) T (S Nt) in
  length t = S Nt /\
  t !! Nt = Some T /\
  forall i, (i <= Nt)%nat ->
    exists v, t !! i = Some v /\
      (v == inject_Z (Z.of_nat i) * (T / inject_Z (Z.of_nat Nt)))%Q.
Proof.
  intros HNt t. split; [apply linspace_length|].
  assert (Hd : ~ (inject_Z (Z.of_nat Nt) == 0)%Q)
    by (apply inject_Z_nonzero; lia).
  assert (Hlast : t !! Nt = Some T).
  { unfold t. rewrite <- (linspace_last (of_int 0) T (S Nt)) by lia.
    f_equal. lia. }
  split; [exact Hlast|].
  intros i Hi. destruct (decide (i = Nt)) as [->|Hne].
  { exists T. split; [exact Hlast|]. field. exact Hd. }
  unfold t, linspace.
  destruct (Nat.ltb_spec 1 (S Nt)) as [_|]; [|lia].
  rewrite list_lookup_insert_ne by lia.
  destruct (Z.ltb_spec 0 (Z.of_nat (S Nt) - 1)) as [_|]; [|lia].
  replace (Z.of_nat (S Nt) - 1) with (Z.of_nat Nt) by lia.
  cbn [of_int fsub fmul fadd fdiv is_zero ArithQ].
  destruct (Qeq_bool _ 0);
    rewrite !list_lookup_fmap, lookup_seq_lt by lia;
    cbn [fmap option_fmap option_map Nat.add];
    eexists; (split; [reflexivity|]);
    change (inject_Z 0) with 0%Q; field; exact Hd.
Qed.

(** For a valid discretisation [analyze_stability] returns the verdict
    [r <= 0.5] and recommends a step count exactly when [r > 0.5]. *)
Lemma analyze_stability_exact (L T D : Q) (Nt Nx : nat) :
  (1 <= Nt)%nat -> (1 <= Nx)%nat -> ~ (L == 0)%Q ->
  let r := ratio D (T / inject_Z (Z.of_nat Nt))%Q
                   (L / inject_Z (Z.of_nat Nx))%Q in
  analyze_stability L T D Nt Nx
  = Some (fle r (lit 0.5), r,
          if flt (lit 0.5) r
          then Some (Qceiling (inject_Z 2 * D * T
                               * inject_Z (Z.of_nat Nx ^ 2) / (L * L)))
          else None).
Proof.
  intros HNt HNx HL r. unfold analyze_stability.
  cbn [of_int ArithQ].
  rewrite pydiv_exact by (apply inject_Z_nonzero; lia).
  cbn [mbind option_bind].
  rewrite pydiv_exact by (apply inject_Z_nonzero; lia).
  cbn [mbind option_bind fpow2 ArithQ].
  rewrite pydiv_exact
    by (apply sqr_nonzero, quotient_nonzero; [exact HL | lia]).
  cbn [mbind option_bind]. unfold r, ratio.
  cbn [fdiv ArithQ].
  destruct (flt (lit 0.5) _); [|reflexivity].
  unfold required_steps. cbn [of_int fmul fpow2 mbind option_bind ArithQ].
  rewrite pydiv_exact by (apply sqr_nonzero; exact HL).
  reflexivity.
Qed.

(** For a valid discretisation [explicit_heat] computes the ratio
    [D * (T / Nt) / (L / (Nx - 1))**2] and the step [T / Nt]. *)
Lemma heat_ratio_exact (D T L : Q) (Nt Nx : nat) :
  (1 <= Nt)%nat -> (2 <= Nx)%nat -> ~ (L == 0)%Q ->
  heat_ratio Nx Nt L T D
  = Some (ratio D (T / inject_Z (Z.of_nat Nt))%Q
            (L / inject_Z (Z.of_nat Nx - 1))%Q,
          (T / inject_Z (Z.of_nat Nt))%Q).
Proof.
  intros HNt HNx HL. unfold heat_ratio.
  cbn [of_int ArithQ].
  rewrite pydiv_exact by (apply inject_Z_nonzero; lia).
  cbn [mbind option_bind].
  rewrite pydiv_exact by (apply inject_Z_nonzero; lia).
  cbn [mbind option_bind fpow2 ArithQ].
  rewrite pydiv_exact
    by (apply sqr_nonzero, quotient_nonzero; [exact HL | lia]).
  reflexivity.
Qed.

End Exact.

(** ** The real numbers: values of the initial profiles *)

Section Real.
#[local] Existing Instance ArithR.
Local Open Scope R_scope.

Lemma tanh_0 : tanh 0 = 0.
Proof. unfold tanh. rewrite sinh_0, cosh_0. Lra.lra. Qed.

Lemma cosh_pos (x : R) : 0 < cosh x.
Proof.
  unfold cosh. pose proof (exp_pos x). pose proof (exp_pos (- x)). Lra.lra.
Qed.

Lemma tanh_neg (x : R) : x < 0 -> tanh x < 0.
Proof.
  intros Hx. unfold tanh.
  pose proof (sinh_lt x 0 Hx) as Hs. rewrite sinh_0 in Hs.
  pose proof (cosh_pos x) as Hc.
  apply Ropp_lt_cancel. rewrite Ropp_0, <- Rdiv_opp_l.
  apply Rdiv_lt_0_compat; Lra.lra.
Qed.

Lemma tanh_above (x : R) : -1 < tanh x.
Proof.
  unfold tanh. pose proof (cosh_pos x) as Hc.
  assert (Hsum : sinh x + cosh x = exp x) by (unfold sinh, cosh; Lra.lra).
  pose proof (exp_pos x) as He.
  assert (Hq : 0 < (sinh x + cosh x) / cosh x)
    by (apply Rdiv_lt_0_compat; Lra.lra).
  replace ((sinh x + cosh x) / cosh x) with (sinh x / cosh x + 1) in Hq
    by (field; Lra.lra).
  Lra.lra.
Qed.

Lemma pydiv_real (a b : R) : b <> 0 -> pydiv a b = Some (a / b).
Proof.
  intros Hb. unfold pydiv. cbn [is_zero fdiv ArithR].
  destruct (Req_EM_T b 0); [contradiction | reflexivity].
Qed.

(** The first grid point is [0]. *)
Lemma linspace_real_first (L : R) (num : nat) :
  (1 <= num)%nat ->
  exists x0, linspace (of_int 0) L num !! 0%nat = Some x0 /\ x0 = 0.
Proof.
  intros Hnum. destruct num as [|k]; [lia|].
  unfold linspace.
  assert (Hins : forall y : list R,
            (if (1 <? S k)%nat then <[(S k - 1)%nat := L]> y else y) !! 0%nat
            = if (1 <? S k)%nat then y !! 0%nat else y !! 0%nat).
  { intros y. destruct (Nat.ltb_spec 1 (S k)); [|reflexivity].
    apply list_lookup_insert_ne. lia. }
  rewrite Hins. clear Hins.
  cbn [seq fmap list_fmap]. cbn [of_int fsub fmul fadd fdiv is_zero ArithR].
  destruct (0 <? Z.of_nat (S k) - 1)%Z;
    [destruct (Req_EM_T _ 0)|]; destruct (1 <? S k)%nat;
    cbn [fmap list_fmap lookup list_lookup];
    eexists; (split; [reflexivity|]);
    change (Z.of_nat 0) with 0%Z; unfold Rdiv; ring.
Qed.

(** Every grid point but the last is [i * L / (num - 1)]. *)
Lemma linspace_real_inner (L : R) (num i : nat) :
  (i < num - 1)%nat ->
  exists xi,
    linspace (of_int 0) L num !! i = Some xi /\
    xi = IZR (Z.of_nat i) * L / IZR (Z.of_nat num - 1).
Proof.
  intros Hi. unfold linspace.
  destruct (Nat.ltb_spec 1 num) as [_|]; [|lia].
  rewrite list_lookup_insert_ne by lia.
  destruct (Z.ltb_spec 0 (Z.of_nat num - 1)) as [Hdiv|]; [|lia].
  assert (Hd : IZR (Z.of_nat num - 1) <> 0) by (apply not_0_IZR; lia).
  cbn [of_int fsub fmul fadd fdiv is_zero ArithR].
  destruct (Req_EM_T _ 0);
    rewrite !list_lookup_fmap, lookup_seq_lt by lia;
    cbn [fmap option_fmap option_map Nat.add];
    eexists; (split; [reflexivity|]); field; exact Hd.
Qed.

(** In the reals [check_stability] succeeds for any positive discretisation
    of a rod of non-zero length. *)
Lemma check_stability_real (D T L : R) (Nt Nx : nat) :
  (1 <= Nt)%nat -> (1 <= Nx)%nat -> L <> 0 ->
  exists ok r, check_stability D T Nt Nx L = Some (ok, r).
Proof.
  intros HNt HNx HL. unfold check_stability.
  assert (Ht : IZR (Z.of_nat Nt) <> 0) by (apply not_0_IZR; lia).
  assert (Hx : IZR (Z.of_nat Nx) <> 0) by (apply not_0_IZR; lia).
  cbn [of_int ArithR].
  rewrite (pydiv_real T _ Ht). cbn [mbind option_bind].
  rewrite (pydiv_real L _ Hx). cbn [mbind option_bind fpow2 ArithR].
  rewrite pydiv_real.
  - cbn [mbind option_bind]. eauto.
  - unfold sqr. cbn [fsqr ArithR].
    apply Rmult_integral_contrapositive_currified;
      apply Rmult_integral_contrapositive_currified;
      auto using Rinv_neq_0_compat.
Qed.

(** In the reals the ratio of [explicit_heat] can be computed for any
    [Nx >= 2], [Nt >= 1] and rod of non-zero length. *)
Lemma heat_ratio_real (D T L : R) (Nt Nx : nat) :
  (1 <= Nt)%nat -> (2 <= Nx)%nat -> L <> 0 ->
  exists alpha dt, heat_ratio Nx Nt L T D = Some (alpha, dt).
Proof.
  intros HNt HNx HL. unfold heat_ratio.
  assert (Ht : IZR (Z.of_nat Nt) <> 0) by (apply not_0_IZR; lia).
  assert (Hx : IZR (Z.of_nat Nx - 1) <> 0) by (apply not_0_IZR; lia).
  cbn [of_int ArithR].
  rewrite (pydiv_real L _ Hx). cbn [mbind option_bind].
  rewrite (pydiv_real T _ Ht). cbn [mbind option_bind fpow2 ArithR].
  rewrite pydiv_real.
  - cbn [mbind option_bind]. eauto.
  - unfold sqr. cbn [fsqr ArithR].
    apply Rmult_integral_contrapositive_currified;
      apply Rmult_integral_contrapositive_currified;
      auto using Rinv_neq_0_compat.
Qed.

Lemma lit_real_one : lit 1.0 = 1.
Proof. cbn [lit ArithR]. unfold Q2R. cbn [Qnum Qden]. Lra.lra. Qed.

End Real.

(** ** The stability table of heat_eq_fr.py, in exact arithmetic *)

Section Table.
Variable th : Q -> Q.
#[local] Hint Extern 0 (Arith Q) => exact (ArithQ th) : typeclass_instances.

(** The grid spacing of the script, [x[1] - x[0]], is [1/99]. *)
Lemma fr_dx_exact : exists dx : Q, fr_dx = Some dx /\ (dx == 1 # 99)%Q.
Proof. eexists. split; [vm_compute; reflexivity | reflexivity]. Qed.

(** The line of the table for [Nt_val] steps: [alpha] is
    [D * (T / Nt_val) / dx**2 = 9801 / (20 * Nt_val)], which is never
    [1/2]. *)
Lemma stability_line_exact (Nt_val : nat) :
  (1 <= Nt_val)%nat ->
  exists alpha : Q,
    stability_line Nt_val = Some (alpha, flt alpha (lit 0.5)) /\
    (alpha == (1 # 20) * (1 / inject_Z (Z.of_nat Nt_val))
              / ((1 # 99) * (1 # 99)))%Q /\
    ~ (alpha == 1 # 2)%Q.
Proof.
  intros HNt. destruct fr_dx_exact as (dx & Hdx & Edx).
  unfold stability_line. rewrite Hdx. cbn [mbind option_bind].
  cbn [of_int ArithQ].
  rewrite pydiv_exact by (apply inject_Z_nonzero; lia).
  cbn [mbind option_bind].
  assert (Hn : ~ (inject_Z (Z.of_nat Nt_val) == 0)%Q)
    by (apply inject_Z_nonzero; lia).
  assert (Ealpha :
            (fdiv (fr_D * (fr_T / inject_Z (Z.of_nat Nt_val)))%A (sqr dx)
             == (1 # 20) * (1 / inject_Z (Z.of_nat Nt_val))
                / ((1 # 99) * (1 # 99)))%Q).
  { unfold sqr, fr_D, fr_T. cbn [fdiv fmul fsqr lit ArithQ].
    rewrite Edx. field. exact Hn. }
  eexists. split; [reflexivity|]. split; [exact Ealpha|].
  rewrite Ealpha. intros E.
  assert (E' : (inject_Z 19602 == inject_Z (20 * Z.of_nat Nt_val))%Q).
  { rewrite inject_Z_mult.
    apply (Qmult_inj_r _ _ (1 / inject_Z (Z.of_nat Nt_val) / (2 * 9801))%Q).
    - intros H0. apply Hn.
      assert (H1 : (1 == 0 * (inject_Z (Z.of_nat Nt_val) * (2 * 9801)))%Q).
      { rewrite <- H0. field. exact Hn. }
      exfalso. revert H1. rewrite Qmult_0_l. discriminate.
    - change (inject_Z 19602) with 19602%Q. change (inject_Z 20) with 20%Q.
      transitivity ((1 # 20) * (1 / inject_Z (Z.of_nat Nt_val))
                    / ((1 # 99) * (1 # 99)) * (20 # 9801))%Q;
        [field; exact Hn|].
      rewrite E. field. exact Hn. }
  unfold Qeq in E'. simpl in E'. lia.
Qed.

End Table.

(** ** Running the program in binary64

    A function of the program is a chain of steps in the option monad.  Over
    [ArithF th pw] every step but the power [x ** 2] is evaluated; the power
    is taken from what is known of [pw] at [x]. *)

Lemma bind_Some {A B} (o : option A) (a : A) (k : A -> option B)
    (r : option B) :
  o = Some a -> k a = r -> o ≫= k = r.
Proof. intros -> <-. reflexivity. Qed.

Lemma fmap_Some_eq {A B} (f : A -> B) (o : option A) (a : A) (b : B) :
  o = Some a -> f a = b -> f <$> o = Some b.
Proof. intros -> <-. reflexivity. Qed.

Lemma float_sq_at (pw : float -> float) (x v : float) :
  pw x = v -> PrimFloat.is_finite x = true -> float_sq pw x = v.
Proof.
  unfold float_sq, PrimFloat.is_finite. intros <- Hx.
  destruct (PrimFloat.is_nan x), (PrimFloat.is_infinity x);
    try discriminate. reflexivity.
Qed.

Lemma float_pow2_at (pw : float -> float) (x v : float) :
  pw x = v -> PrimFloat.is_finite x = true ->
  PrimFloat.is_infinity v = false -> float_pow2 pw x = Some v.
Proof.
  intros E Hx Hv. unfold float_pow2.
  rewrite (float_sq_at pw x v E Hx), Hv, andb_false_r. reflexivity.
Qed.

(** The correctly rounded square is a faithful power function. *)
Lemma faithful_mul : faithful (fun x => PrimFloat.mul x x).
Proof.
  intros x _. unfold square_neighbours.
  destruct (float_to_Q x), (float_to_Q (x * x)); simpl; auto.
  destruct (_ ?= _)%Q; simpl; auto.
Qed.

(** What a faithful power function returns at [x], as a choice between the
    two floats around the exact square. *)
Ltac square_at Hpw x H :=
  pose proof (Hpw x) as H; vm_compute in H; specialize (H eq_refl).

(** One step that does not take a power, and the step [x ** 2] with [E]
    what [pw] returns at [x]. *)
Ltac bind_closed :=
  lazymatch goal with
  | |- mbind _ _ = _ =>
      eapply bind_Some; [vm_compute; reflexivity | cbv beta]
  end.

Ltac bind_pow E :=
  lazymatch goal with
  | |- mbind _ _ = _ =>
      eapply bind_Some;
        [eapply float_pow2_at; [exact E | |]; vm_compute; reflexivity
        | cbv beta]
  end.

(** The test of an [if], when it takes no power. *)
Ltac if_closed :=
  lazymatch goal with
  | |- (if ?c then _ else _) = _ =>
      let v := eval vm_compute in c in
      replace c with v by (vm_compute; reflexivity); cbv iota
  end.

(** [check_stability], [heat_ratio], [main_Nt]-like chains: steps, one of
    them the power, and the value returned at the end. *)
Ltac run_chain E :=
  repeat first [ bind_closed | bind_pow E ]; vm_compute; reflexivity.

(** [analyze_stability], with [E1] what [pw] returns for [L ** 2]. *)
Ltac run_analyze E E1 :=
  unfold analyze_stability;
  repeat first [ bind_closed | bind_pow E ];
  if_closed;
  first [ eapply bind_Some;
          [unfold required_steps; run_chain E1 | vm_compute; reflexivity]
        | vm_compute; reflexivity ].

(** One line of the table of heat_eq_fr.py, with [E] what [pw] returns at
    the grid spacing. *)
Ltac run_line E :=
  unfold stability_line; bind_closed; bind_closed;
  unfold sqr; cbn [fsqr ArithF];
  lazymatch type of E with
  | ?pw ?x = ?v => rewrite (float_sq_at pw x v E eq_refl)
  end;
  vm_compute; reflexivity.

(** * The properties of the specification *)

(** From here on, functions applied to rationals and reals run on the
    carriers [rational] and [ArithR]; the theorems over exact arithmetic
    name their carrier [ArithQ th], for any function [th] in the place of
    [tanh], and those over binary64 their carrier [ArithF th pw], for any
    [th] and any [faithful] power function [pw]. *)
#[local] Existing Instance rational.
#[local] Existing Instance ArithR.

(** The sample call of [explicit_heat] is a run of the stepper. *)
Lemma sample_run :
  stepper_run (AF := rational) 3 2 (1 # 2)%Q (1 # 2)%Q (2 # 2)%Q
    sample_init 20%Q 0%Q sample_field.
Proof.
  apply run_explicit_heat with (L := 2%Q) (T := 1%Q); reflexivity.
Qed.

(** ** C1: boundary values *)

(** C1 (as amended).  In every run on [Nx >= 3] points and [Nt >= 1] steps,
    every row [n >= 1] of the returned field has [U_left] as its first entry
    and [U_right] as its last entry, exactly.  Row 0 is not part of this: it
    is the initial profile, copied as it is. *)
Theorem boundary_rows_after_initial {F : Type} {AF : Arith F}
    (Nx Nt : nat) (D dt dx : F) (init : list F) (U_left U_right : F)
    (field : list (list F)) :
  stepper_run Nx Nt D dt dx init U_left U_right field ->
  (1 <= Nt)%nat -> (3 <= Nx)%nat ->
  forall n, (1 <= n <= Nt)%nat ->
    exists row,
      field !! n = Some row /\
      row !! 0%nat = Some U_left /\ row !! (Nx - 1)%nat = Some U_right.
Proof.
  intros Hrun HNt HNx n Hn.
  destruct n as [|m]; [lia|].
  destruct (stepper_run_next Nx Nt D dt dx init U_left U_right field m Hrun)
    as (cur & next & _ & Hnext & Hc & _ & Hent); [lia | lia |].
  exists next. split; [exact Hnext|]. split.
  - rewrite Hent by lia. unfold next_entry.
    rewrite decide_False by lia. rewrite decide_True by reflexivity.
    reflexivity.
  - rewrite Hent by lia. unfold next_entry.
    rewrite decide_True by lia. reflexivity.
Qed.

Lemma boundary_rows_after_initial_witness :
  (exists row,
     sample_field !! 1%nat = Some row /\
     row !! 0%nat = Some 20%Q /\ row !! (3 - 1)%nat = Some 0%Q) /\
  (exists row,
     sample_field !! 2%nat = Some row /\
     row !! 0%nat = Some 20%Q /\ row !! (3 - 1)%nat = Some 0%Q).
Proof.
  split;
    apply (boundary_rows_after_initial (AF := rational) 3 2 (1 # 2)%Q
             (1 # 2)%Q (2 # 2)%Q sample_init 20%Q 0%Q sample_field sample_run);
    lia.
Defined.

(** C1, as stated, fails at row 0.  [solve_heat_equation_euler] with the
    parameters of [main] ([L = T = 1], [D = 0.05], [Nx = 100],
    [Nt = 1001]) returns a field whose row 0 starts with
    [A - B * tanh(0) = 10], not with [U_left = A + B = 20]. *)
Lemma initial_row_misses_left_boundary :
  exists x t U (row : list R),
    solve_heat_equation_euler (AF := ArithR) (lit 1.0) (lit 1.0) (lit 0.05)
      1001 100 = Some (x, t, U) /\
    U !! 0%nat = Some row /\
    row !! 0%nat = Some 10%R /\
    row !! 0%nat <> Some (of_int 20).
Proof.
  assert (HL : lit 1.0 <> 0%R) by (rewrite lit_real_one; Lra.lra).
  destruct (check_stability_real (lit 0.05) (lit 1.0) (lit 1.0) 1001 100)
    as (ok & r & Hcheck); [lia | lia | exact HL |].
  destruct (solve_heat_equation_euler_spec _ _ _ _ _ ok r Hcheck)
    as (U & Hcall & _ & _ & H0 & _); [lia|].
  assert (Hrow : euler_profile 100 (lit 1.0) !! 0%nat = Some 10%R).
  { unfold euler_profile, initialize_conditions. cbn [fst snd].
    rewrite list_lookup_fmap.
    destruct (linspace_real_first (lit 1.0) 100) as (x0 & -> & ->); [lia|].
    cbn [fmap option_fmap option_map]. f_equal.
    cbn [of_int fsub fmul ftanh ArithR].
    rewrite Rminus_diag, tanh_0. Lra.lra. }
  eexists _, _, U, _. split; [exact Hcall|]. split; [exact H0|].
  split; [exact Hrow|]. rewrite Hrow.
  cbn [of_int ArithR]. intros [= Heq]. Lra.lra.
Qed.

(** Runs are calls on a profile of [Nx] samples.  A profile of one sample
    is accepted too, and broadcast: every later row is then filled with the
    value written last, [U2]. *)
Lemma one_sample_profile_is_broadcast :
  explicit_heat (AF := rational) [7%Q] 3 1 2%Q 1%Q (1 # 2)%Q 20%Q 0%Q
  = Some ([[7; 7; 7]; [0; 0; 0]]%Q,
          ratio (AF := rational) (1 # 2) (1 / 1) (2 / 2), 1 / 1)%Q.
Proof. reflexivity. Qed.

(** ** C2: the update rule *)

(** C2.  Both steppers return a field whose every row [n + 1], [n < Nt],
    follows from row [n] by the update rule and by nothing else: entry 0 is
    [U_left], entry [Nx - 1] is [U_right], and every interior entry [i] is
    [U[n][i] + r * (U[n][i+1] - 2 * U[n][i] + U[n][i-1])], where [r] is the
    number that the code computes as [D * dt / dx**2].

    [explicit_heat], on a profile of [Nx >= 3] samples, returns such a field
    whenever its ratio [alpha] can be computed, and
    [solve_heat_equation_euler] whenever [check_stability] returns.  In
    exact arithmetic that is the case for every [Nt >= 1], [Nx >= 3] and
    [L <> 0]. *)
Theorem update_rule :
  (forall (F : Type) (AF : Arith F) (U_init : list F) (Nx Nt : nat)
          (L T D U1 U2 alpha dt : F),
     (3 <= Nx)%nat -> length U_init = Nx ->
     heat_ratio Nx Nt L T D = Some (alpha, dt) ->
     exists field dx2,
       explicit_heat U_init Nx Nt L T D U1 U2 = Some (field, alpha, dt) /\
       dt = fdiv T (of_int (Z.of_nat Nt)) /\
       fpow2 (fdiv L (of_int (Z.of_nat Nx - 1))) = Some dx2 /\
       alpha = fdiv (D * dt)%A dx2 /\
       field !! 0%nat = Some U_init /\
       forall n, (n < Nt)%nat ->
         exists cur next,
           field !! n = Some cur /\ field !! S n = Some next /\
           length next = Nx /\
           next !! 0%nat = Some U1 /\
           next !! (Nx - 1)%nat = Some U2 /\
           forall i, (1 <= i <= Nx - 2)%nat ->
             exists a b c,
               cur !! (i - 1)%nat = Some a /\ cur !! i = Some b /\
               cur !! (i + 1)%nat = Some c /\
               next !! i = Some (b + alpha * (c - of_int 2 * b + a))%A) /\
  (forall (F : Type) (AF : Arith F) (L T D : F) (Nt Nx : nat)
          (ok : bool) (r : F),
     (3 <= Nx)%nat ->
     check_stability D T Nt Nx L = Some (ok, r) ->
     exists x t U dx2,
       solve_heat_equation_euler L T D Nt Nx = Some (x, t, U) /\
       fpow2 (fdiv L (of_int (Z.of_nat Nx))) = Some dx2 /\
       r = fdiv (D * fdiv T (of_int (Z.of_nat Nt)))%A dx2 /\
       U !! 0%nat = Some (euler_profile Nx L) /\
       forall n, (n < Nt)%nat ->
         exists cur next,
           U !! n = Some cur /\ U !! S n = Some next /\
           length next = Nx /\
           next !! 0%nat = Some (of_int 20) /\
           next !! (Nx - 1)%nat = Some (of_int 0) /\
           forall i, (1 <= i <= Nx - 2)%nat ->
             exists a b c,
               cur !! (i - 1)%nat = Some a /\ cur !! i = Some b /\
               cur !! (i + 1)%nat = Some c /\
               next !! i = Some (b + r * (c - of_int 2 * b + a))%A) /\
  (forall (th : Q -> Q) (L T D : Q) (Nt Nx : nat),
     (1 <= Nt)%nat -> (3 <= Nx)%nat -> ~ (L == 0)%Q ->
     heat_ratio (AF := ArithQ th) Nx Nt L T D
     = Some ((D * (T / inject_Z (Z.of_nat Nt)))
             / ((L / inject_Z (Z.of_nat Nx - 1))
                * (L / inject_Z (Z.of_nat Nx - 1))),
             T / inject_Z (Z.of_nat Nt))%Q /\
     check_stability (AF := ArithQ th) D T Nt Nx L
     = Some (Qle_bool
               ((D * (T / inject_Z (Z.of_nat Nt)))
                / ((L / inject_Z (Z.of_nat Nx))
                   * (L / inject_Z (Z.of_nat Nx)))) 0.5,
             (D * (T / inject_Z (Z.of_nat Nt)))
             / ((L / inject_Z (Z.of_nat Nx))
                * (L / inject_Z (Z.of_nat Nx))))%Q).
Proof.
  split; [|split].
  - intros F AF U_init Nx Nt L T D U1 U2 alpha dt HNx Hlen Hratio.
    destruct (explicit_heat_spec U_init Nx Nt L T D U1 U2 alpha dt Hratio Hlen)
      as (field & Hcall & _ & Hcols & H0 & Hsteps); [lia|].
    destruct (heat_ratio_power Nx Nt L T D alpha dt Hratio)
      as (dx2 & Hdt & Hsq & Ha).
    exists field, dx2. repeat split; try assumption.
    exact (stepped_rows_rule alpha U1 U2 Nx Nt field Hcols HNx Hsteps).
  - intros F AF L T D Nt Nx ok r HNx Hcheck.
    destruct (solve_heat_equation_euler_spec L T D Nt Nx ok r Hcheck)
      as (U & Hcall & _ & Hcols & H0 & Hsteps); [lia|].
    destruct (check_stability_power D T Nt Nx L ok r Hcheck)
      as (dx2 & Hsq & Hr).
    eexists _, _, U, dx2. repeat split; try eassumption.
    exact (stepped_rows_rule r (of_int 20) (of_int 0) Nx Nt U Hcols HNx
             Hsteps).
  - intros th L T D Nt Nx HNt HNx HL. split.
    + apply (heat_ratio_exact th); [exact HNt | lia | exact HL].
    + apply (check_stability_exact th); [exact HNt | lia | exact HL].
Qed.

Lemma update_rule_witness :
  (exists field dx2,
     explicit_heat (AF := rational) sample_init 3 2 2%Q 1%Q (1 # 2)%Q 20%Q 0%Q
     = Some (field, ratio (AF := rational) (1 # 2) (1 / inject_Z 2)
                      (2 / inject_Z 2), 1 / inject_Z 2)%Q /\
     (1 / inject_Z 2)%Q = fdiv (Arith := rational) 1%Q (of_int (Z.of_nat 2)) /\
     fpow2 (Arith := rational)
       (fdiv (Arith := rational) 2%Q (of_int (Z.of_nat 3 - 1))) = Some dx2 /\
     ratio (AF := rational) (1 # 2) (1 / inject_Z 2)%Q (2 / inject_Z 2)%Q
     = fdiv (Arith := rational) ((1 # 2) * (1 / inject_Z 2))%Q dx2 /\
     field !! 0%nat = Some sample_init /\
     forall n, (n < 2)%nat ->
       exists cur next,
         field !! n = Some cur /\ field !! S n = Some next /\
         length next = 3%nat /\
         next !! 0%nat = Some 20%Q /\
         next !! (3 - 1)%nat = Some 0%Q /\
         forall i, (1 <= i <= 3 - 2)%nat ->
           exists a b c,
             cur !! (i - 1)%nat = Some a /\ cur !! i = Some b /\
             cur !! (i + 1)%nat = Some c /\
             next !! i
             = Some (b + ratio (AF := rational) (1 # 2) (1 / inject_Z 2)
                           (2 / inject_Z 2)
                         * (c - inject_Z 2 * b + a))%Q) /\
  (exists x t U dx2,
     solve_heat_equation_euler (AF := rational) 2%Q 1%Q (1 # 2)%Q 2 4
     = Some (x, t, U) /\
     fpow2 (Arith := rational)
       (fdiv (Arith := rational) 2%Q (of_int (Z.of_nat 4))) = Some dx2 /\
     ratio (AF := rational) (1 # 2) (1 / inject_Z 2)%Q (2 / inject_Z 4)%Q
     = fdiv (Arith := rational)
         ((1 # 2) * fdiv (Arith := rational) 1 (of_int (Z.of_nat 2)))%Q dx2 /\
     U !! 0%nat = Some (euler_profile (AF := rational) 4 2%Q) /\
     forall n, (n < 2)%nat ->
       exists cur next,
         U !! n = Some cur /\ U !! S n = Some next /\
         length next = 4%nat /\
         next !! 0%nat = Some (of_int (Arith := rational) 20) /\
         next !! (4 - 1)%nat = Some (of_int (Arith := rational) 0) /\
         forall i, (1 <= i <= 4 - 2)%nat ->
           exists a b c,
             cur !! (i - 1)%nat = Some a /\ cur !! i = Some b /\
             cur !! (i + 1)%nat = Some c /\
             next !! i
             = Some (b + ratio (AF := rational) (1 # 2) (1 / inject_Z 2)
                           (2 / inject_Z 4)
                         * (c - inject_Z 2 * b + a))%Q).
Proof.
  split.
  - apply (proj1 update_rule Q rational sample_init 3%nat 2%nat 2%Q 1%Q
             (1 # 2)%Q 20%Q 0%Q); try lia; reflexivity.
  - apply (proj1 (proj2 update_rule) Q rational 2%Q 1%Q (1 # 2)%Q 2%nat 4%nat
             false); try lia; reflexivity.
Defined.

(** ** C3: stability verdicts *)



(** ** C4: unstable runs *)



(** ** C5: row 0 *)

(** C5 (as amended).  Row 0 of the returned field is the initial profile
    itself, entry for entry; the boundary constants are not written into
    it. *)
Theorem first_row_is_initial_profile {F : Type} {AF : Arith F}
    (Nx Nt : nat) (D dt dx : F) (init : list F) (U_left U_right : F)
    (field : list (list F)) :
  stepper_run Nx Nt D dt dx init U_left U_right field -> (3 <= Nx)%nat ->
  field !! 0%nat = Some init.
Proof.
  intros Hrun HNx.
  destruct (stepper_run_rows Nx Nt D dt dx init U_left U_right field Hrun)
    as (_ & _ & H0 & _); [lia | exact H0].
Qed.

Lemma first_row_is_initial_profile_witness :
  sample_field !! 0%nat = Some sample_init.
Proof.
  apply (first_row_is_initial_profile (AF := rational) 3 2 (1 # 2)%Q (1 # 2)%Q
           (2 # 2)%Q sample_init 20%Q 0%Q sample_field sample_run); lia.
Defined.

(** C5, as stated, fails.  The first call of the script,
    [explicit_heat(U0, Nx, Nt, L, T, D, U1, U2)], returns a field whose
    row 0 is [U0]; that is not [U0] with [U1] and [U2] written over its
    ends, since [U0[0] = 10 - 10 * tanh(-5) < 20 = U1]. *)
Lemma initial_row_without_boundary_constants :
  exists field alpha dt (row : list R),
    fr_stable (AF := ArithR) = Some (field, alpha, dt) /\
    field !! 0%nat = Some row /\
    row <> with_boundary (F := R) fr_U1 fr_U2 fr_U0.
Proof.
  assert (HL : fr_L <> 0%R) by (unfold fr_L; rewrite lit_real_one; Lra.lra).
  assert (Hlen : length (fr_U0 (AF := ArithR)) = fr_Nx).
  { unfold fr_U0, initial_profile, fr_x. rewrite length_fmap.
    apply linspace_length. }
  destruct (heat_ratio_real fr_D fr_T fr_L fr_Nt fr_Nx)
    as (alpha & dt & Hratio);
    [unfold fr_Nt; lia | unfold fr_Nx; lia | exact HL |].
  destruct (explicit_heat_spec (AF := ArithR) fr_U0 fr_Nx fr_Nt fr_L fr_T fr_D
              fr_U1 fr_U2 alpha dt Hratio Hlen)
    as (field & Hcall & _ & _ & H0 & _); [unfold fr_Nx; lia|].
  exists field, alpha, dt, fr_U0. split; [exact Hcall|]. split; [exact H0|].
  intros Heq.
  assert (H1 : with_boundary (F := R) fr_U1 fr_U2 fr_U0 !! 0%nat
               = Some fr_U1).
  { unfold with_boundary.
    rewrite list_lookup_insert_ne by (rewrite Hlen; unfold fr_Nx; lia).
    apply list_lookup_insert_eq. rewrite Hlen. unfold fr_Nx. lia. }
  rewrite <- Heq in H1. unfold fr_U0, initial_profile, fr_x in H1.
  rewrite list_lookup_fmap in H1.
  destruct (linspace_real_first fr_L fr_Nx) as (x0 & Hx0 & ->);
    [unfold fr_Nx; lia|].
  rewrite Hx0 in H1. cbn [fmap option_fmap option_map] in H1.
  injection H1 as H1. unfold fr_U1, fr_A, fr_B in H1.
  cbn [lit fadd fsub fmul ArithR] in H1.
  unfold Q2R in H1. cbn [Qnum Qden] in H1.
  match type of H1 with context [tanh ?z] => pose proof (tanh_above z) end.
  Lra.lra.
Qed.

(** ** C6: the initial profiles *)

(** C6.  [initial_profile] of heat_eq_fr.py builds
    [A - B * tanh((x_i - L/2) / scale)] with [scale = 0.1] at every grid
    point.  [initialize_conditions] of heat_equation.py does not: on the
    three-point grid of [L = 1] its value at the midpoint [x = 1/2] is
    [10 - 10 * tanh(0 - 1/2) > 10], while the formula gives
    [10 - 10 * tanh(0) = 10] there, whatever [scale] is. *)
Theorem initialize_conditions_off_formula :
  (forall (F : Type) (AF : Arith F) (A B L : F) (x : list F) (i : nat) (xi : F),
     x !! i = Some xi ->
     initial_profile A B L x !! i
     = Some (A - B * ftanh (fdiv (xi - fdiv L (of_int 2)) (lit 0.1)))%A) /\
  (forall scale : R,
     exists xi u : R,
       linspace (AF := ArithR) (of_int 0) (lit 1.0) 3 !! 1%nat = Some xi /\
       euler_profile (AF := ArithR) 3 (lit 1.0) !! 1%nat = Some u /\
       (10 - 10 * tanh ((xi - lit 1.0 / 2) / scale) = 10)%R /\
       (10 < u)%R).
Proof.
  split.
  - intros F AF A B L x i xi Hxi. unfold initial_profile.
    rewrite list_lookup_fmap, Hxi. reflexivity.
  - intros scale.
    destruct (linspace_real_inner (lit 1.0) 3 1) as (xi & Hxi & Hval); [lia|].
    rewrite lit_real_one in Hval.
    change (Z.of_nat 3 - 1)%Z with 2%Z in Hval.
    change (Z.of_nat 1) with 1%Z in Hval.
    assert (Hhalf : xi = (1 / 2)%R) by (rewrite Hval; Lra.lra).
    exists xi, (10 - 10 * tanh (0 - xi))%R.
    split; [exact Hxi|]. split; [|split].
    + unfold euler_profile, initialize_conditions. cbn [fst snd].
      rewrite list_lookup_fmap, Hxi. reflexivity.
    + rewrite lit_real_one, Hhalf.
      replace ((1 / 2 - 1 / 2) / scale)%R with 0%R by (unfold Rdiv; ring).
      rewrite tanh_0. Lra.lra.
    + pose proof (tanh_neg (0 - xi)) as Hneg.
      assert (Hlt : (tanh (0 - xi) < 0)%R) by (apply Hneg; Lra.lra).
      Lra.lra.
Qed.

(** ** C7: the maximum principle *)

(** C7 (as amended).  In exact arithmetic, in every run with valid
    parameters whose ratio is at most [0.5], every entry of every row of the
    returned field lies between [min(U_left, U_right, min(U0))] and
    [max(U_left, U_right, max(U0))]. *)
Theorem bounded_under_stability (th : Q -> Q)
    (Nx Nt : nat) (D dt dx : Q) (init : list Q) (U_left U_right : Q)
    (field : list (list Q)) :
  stepper_run (AF := ArithQ th) Nx Nt D dt dx init U_left U_right field ->
  (1 <= Nt)%nat -> (3 <= Nx)%nat -> (0 < D)%Q -> (0 < dt)%Q ->
  (ratio (AF := ArithQ th) D dt dx <= 1 # 2)%Q ->
  forall n row i v,
    field !! n = Some row -> row !! i = Some v ->
    (lower U_left U_right init <= v <= upper U_left U_right init)%Q.
Proof.
  intros Hrun HNt HNx HD Hdt Hr n row i v Hrow Hv.
  destruct (stepper_run_rows Nx Nt D dt dx init U_left U_right field Hrun)
    as (Hrows & _ & H0 & Hsteps); [lia|].
  assert (Hr0 : (0 <= ratio (AF := ArithQ th) D dt dx)%Q).
  { unfold ratio, sqr. cbn [fdiv fmul fsqr ArithQ].
    apply Qmult_le_0_compat.
    - apply Qmult_le_0_compat; Lqa.lra.
    - apply Qinv_le_0_compat. Lqa.nra. }
  pose proof (lower_le_bounds U_left U_right init) as [Hl1 Hl2].
  pose proof (upper_ge_bounds U_left U_right init) as [Hu1 Hu2].
  assert (Hn : (n <= Nt)%nat)
    by (apply lookup_lt_Some in Hrow; lia).
  pose proof (stepped_rows_within th (ratio (AF := ArithQ th) D dt dx)
                U_left U_right
                (lower U_left U_right init) (upper U_left U_right init)
                field init Nt Hr0 Hr (conj Hl1 Hu1) (conj Hl2 Hu2) H0
                (within_initial U_left U_right init) Hsteps n row Hn Hrow)
    as Hwithin.
  exact (Forall_lookup_1 _ _ _ _ Hwithin Hv).
Qed.

Lemma bounded_under_stability_witness :
  exists row v,
    sample_field !! 2%nat = Some row /\ row !! 1%nat = Some v /\
    (lower 20 0 sample_init <= v <= upper 20 0 sample_init)%Q.
Proof.
  eexists _, _. split; [reflexivity|]. split; [reflexivity|].
  refine (bounded_under_stability (fun x => x) 3 2 (1 # 2)%Q (1 # 2)%Q
            (2 # 2)%Q sample_init 20%Q 0%Q sample_field sample_run
            _ _ _ _ _ 2%nat _ 1%nat _ _ _);
    try lia; try reflexivity; vm_compute; discriminate.
Defined.

(** C7, as stated, fails in binary64, whatever faithful power function the
    C library has.  With ratio exactly [0.5], boundary values and outer
    samples [1 + 3 * 2^-52] and the middle sample [-1], the first step
    rounds the middle entry up to [1 + 4 * 2^-52], above the largest of the
    initial and boundary values. *)
Lemma rounding_overshoots_the_maximum :
  exists field alpha dt v,
    (forall th pw : float -> float, faithful pw ->
       explicit_heat (AF := ArithF th pw)
         [overshoot_max; (-1)%float; overshoot_max] 3 1
         2%float 1%float 0.5%float overshoot_max overshoot_max
       = Some (field, alpha, dt)) /\
    PrimFloat.leb alpha 0.5%float = true /\
    Forall (fun u => PrimFloat.leb u overshoot_max = true)
      [overshoot_max; (-1)%float; overshoot_max] /\
    field !! 1%nat ≫= (fun row => row !! 1%nat) = Some v /\
    PrimFloat.ltb overshoot_max v = true.
Proof.
  exists [[overshoot_max; (-1)%float; overshoot_max];
          [overshoot_max; 0x1.0000000000004p+0%float; overshoot_max]],
    0.5%float, 1%float, 0x1.0000000000004p+0%float.
  split; [|split; [|split; [|split]]].
  - intros th pw Hpw. square_at Hpw 1%float Hone.
    assert (H1 : pw 1%float = 1%float) by (destruct Hone; assumption).
    unfold explicit_heat.
    eapply bind_Some; [unfold heat_ratio; run_chain H1 | cbv beta].
    vm_compute. reflexivity.
  - reflexivity.
  - repeat constructor.
  - reflexivity.
  - reflexivity.
Qed.

(** ** C8: the caller's array *)

(** C8.  [explicit_heat] does not modify the array it is given: when the
    call returns, the caller's [U_init] holds the same entries as before
    (and so does every other array that existed before the call). *)
Theorem explicit_heat_keeps_U_init {F : Type} {AF : Arith F}
    (s s' : gmap nat array) (p : nat) (U_init : list F) (Nx Nt : nat)
    (L T D U1 U2 : F) (res : nat * F * F) :
  s !! p = Some (Arr1 U_init) ->
  explicit_heat_st p Nx Nt L T D U1 U2 s = Some (res, s') ->
  s' !! p = Some (Arr1 U_init) /\
  forall l a, s !! l = Some a -> s' !! l = Some a.
Proof.
  intros Hp Hcall.
  pose proof (explicit_heat_st_run p Nx Nt L T D U1 U2 s U_init Hp) as Hrun.
  destruct (explicit_heat U_init Nx Nt L T D U1 U2) as [[[field a] d]|].
  - destruct Hrun as (q & s'' & Hcall' & _ & _ & Hsub).
    rewrite Hcall in Hcall'. injection Hcall' as _ ->.
    split; [exact (lookup_weaken _ _ _ _ Hp Hsub)|].
    intros l a' Hl. exact (lookup_weaken _ _ _ _ Hl Hsub).
  - rewrite Hcall in Hrun. discriminate.
Qed.

Lemma explicit_heat_keeps_U_init_witness :
  match explicit_heat_st (AF := rational) 0 3 2 2%Q 1%Q (1 # 2)%Q 20%Q 0%Q
          sample_store with
  | Some (_, s') => s' !! 0%nat = Some (Arr1 sample_init)
  | None => False
  end.
Proof.
  destruct (explicit_heat_st (AF := rational) 0 3 2 2%Q 1%Q (1 # 2)%Q 20%Q 0%Q
              sample_store) as [[res s']|] eqn:Hcall.
  - assert (Hp : sample_store !! 0%nat = Some (Arr1 sample_init))
      by reflexivity.
    exact (proj1 (explicit_heat_keeps_U_init (AF := rational) sample_store s'
                    0 sample_init 3 2 2%Q 1%Q (1 # 2)%Q 20%Q 0%Q res
                    Hp Hcall)).
  - vm_compute in Hcall. discriminate.
Defined.

(** ** C9: shapes *)

(** C9 (as amended).  For valid inputs the returned field has exactly
    [Nt + 1] rows of [Nx] entries.  The time grid that
    [solve_heat_equation_euler] returns has exactly [Nt + 1] values; the
    last one is [T], and the value at an index [i < Nt] is computed as
    [i * step + 0] with [step = (T - 0) / Nt] (as [(i / Nt) * (T - 0) + 0]
    should [step] be zero).  In exact arithmetic these values are evenly
    spaced from [0] to [T]: the first is [0], the value at index [i] is
    [i * (T / Nt)], and neighbours differ by [T / Nt].  ([explicit_heat]
    returns the spacing [dt = T / Nt], and no grid.) *)
Theorem field_shape_and_time_grid (th : Q -> Q) :
  (forall (F : Type) (AF : Arith F) (Nx Nt : nat) (D dt dx : F)
          (init : list F) (U_left U_right : F) (field : list (list F)),
     stepper_run Nx Nt D dt dx init U_left U_right field ->
     (1 <= Nt)%nat -> (3 <= Nx)%nat ->
     length field = S Nt /\ Forall (fun row => length row = Nx) field) /\
  (forall (F : Type) (AF : Arith F) (L T D : F) (Nt Nx : nat)
          (x t : list F) (U : list (list F)),
     solve_heat_equation_euler L T D Nt Nx = Some (x, t, U) ->
     (1 <= Nt)%nat -> (3 <= Nx)%nat ->
     length t = S Nt /\ t !! Nt = Some T /\
     forall i, (i < Nt)%nat ->
       t !! i
       = Some (let step := fdiv (T - of_int 0)%A (of_int (Z.of_nat Nt)) in
               if is_zero step
               then (fdiv (of_int (Z.of_nat i)) (of_int (Z.of_nat Nt))
                     * (T - of_int 0) + of_int 0)%A
               else (of_int (Z.of_nat i) * step + of_int 0)%A)) /\
  (forall (L T D : Q) (Nt Nx : nat) (x t : list Q) (U : list (list Q)),
     solve_heat_equation_euler (AF := ArithQ th) L T D Nt Nx
     = Some (x, t, U) ->
     (1 <= Nt)%nat -> (3 <= Nx)%nat ->
     (exists t0, t !! 0%nat = Some t0 /\ (t0 == 0)%Q) /\
     (forall i, (i <= Nt)%nat ->
        exists v, t !! i = Some v /\
          (v == inject_Z (Z.of_nat i) * (T / inject_Z (Z.of_nat Nt)))%Q) /\
     (forall i, (i < Nt)%nat ->
        exists u v, t !! i = Some u /\ t !! S i = Some v /\
          (v - u == T / inject_Z (Z.of_nat Nt))%Q)).
Proof.
  assert (Hgrid : forall (F : Type) (AF : Arith F) (L T D : F) (Nt Nx : nat)
                         (x t : list F) (U : list (list F)),
            solve_heat_equation_euler L T D Nt Nx = Some (x, t, U) ->
            (3 <= Nx)%nat -> t = linspace (of_int 0) T (S Nt)).
  { intros F AF L T D Nt Nx x t U Hcall HNx.
    destruct (solve_checks_stability _ _ _ _ _ _ Hcall) as (ok & r & Hc).
    destruct (solve_heat_equation_euler_spec L T D Nt Nx ok r Hc)
      as (U' & Hcall' & _); [lia|].
    rewrite Hcall in Hcall'. injection Hcall' as _ -> _. reflexivity. }
  split; [|split].
  - intros F AF Nx Nt D dt dx init U_left U_right field Hrun HNt HNx.
    destruct (stepper_run_rows Nx Nt D dt dx init U_left U_right field Hrun)
      as (Hrows & Hcols & _); [lia|]. split; assumption.
  - intros F AF L T D Nt Nx x t U Hcall HNt HNx.
    rewrite (Hgrid F AF L T D Nt Nx x t U Hcall HNx).
    split; [apply linspace_length|]. split.
    + rewrite <- (linspace_last (of_int 0) T (S Nt)) by lia. f_equal. lia.
    + intros i Hi. rewrite linspace_inner by lia.
      replace (Z.of_nat (S Nt) - 1) with (Z.of_nat Nt) by lia. reflexivity.
  - intros L T D Nt Nx x t U Hcall HNt HNx.
    rewrite (Hgrid Q (ArithQ th) L T D Nt Nx x t U Hcall HNx).
    destruct (time_grid_exact th T Nt HNt) as (_ & _ & Hall).
    split; [|split; [exact Hall|]].
    + destruct (Hall 0%nat) as (t0 & Ht0 & Heq); [lia|].
      exists t0. split; [exact Ht0|]. rewrite Heq.
      change (inject_Z (Z.of_nat 0)) with 0%Q. ring.
    + intros i Hi.
      destruct (Hall i) as (u & Hu & Eu); [lia|].
      destruct (Hall (S i)) as (v & Hv & Ev); [lia|].
      exists u, v. split; [exact Hu|]. split; [exact Hv|].
      rewrite Eu, Ev. rewrite Nat2Z.inj_succ. unfold Z.succ.
      rewrite inject_Z_plus. change (inject_Z 1) with 1%Q. ring.
Qed.

Lemma field_shape_and_time_grid_witness :
  (length sample_field = 3%nat /\
   Forall (fun row => length row = 3%nat) sample_field) /\
  match solve_heat_equation_euler (AF := rational) 1%Q 1%Q (1 # 20)%Q 2 3 with
  | Some (x, t, U) =>
      (length t = 3%nat /\ t !! 2%nat = Some 1%Q /\
       forall i, (i < 2)%nat ->
         t !! i
         = Some (let step := fdiv (Arith := rational) (1 - of_int 0)%Q
                               (of_int (Z.of_nat 2)) in
                 if is_zero step
                 then (fdiv (Arith := rational) (of_int (Z.of_nat i))
                         (of_int (Z.of_nat 2)) * (1 - of_int 0) + of_int 0)%Q
                 else (of_int (Z.of_nat i) * step + of_int 0)%Q)) /\
      (exists t0, t !! 0%nat = Some t0 /\ (t0 == 0)%Q) /\
      (forall i, (i <= 2)%nat ->
         exists v, t !! i = Some v /\
           (v == inject_Z (Z.of_nat i) * (1 / inject_Z (Z.of_nat 2)))%Q) /\
      (forall i, (i < 2)%nat ->
         exists u v, t !! i = Some u /\ t !! S i = Some v /\
           (v - u == 1 / inject_Z (Z.of_nat 2))%Q)
  | None => False
  end.
Proof.
  split.
  - apply (proj1 (field_shape_and_time_grid (fun x => x)) Q rational 3%nat
             2%nat (1 # 2)%Q (1 # 2)%Q (2 # 2)%Q sample_init 20%Q 0%Q
             sample_field sample_run); lia.
  - destruct (solve_heat_equation_euler (AF := rational)
                1%Q 1%Q (1 # 20)%Q 2 3) as [[[x t] U]|] eqn:Hcall.
    + split.
      * apply (proj1 (proj2 (field_shape_and_time_grid (fun x => x)))
                 Q rational 1%Q 1%Q (1 # 20)%Q 2%nat 3%nat x t U Hcall); lia.
      * apply (proj2 (proj2 (field_shape_and_time_grid (fun x => x)))
                 1%Q 1%Q (1 # 20)%Q 2%nat 3%nat x t U Hcall); lia.
    + vm_compute in Hcall. discriminate.
Defined.

(** C9, as stated, fails in binary64, whatever faithful power function the
    C library has: the time grid is not evenly spaced.  For [T = 1.0] and
    [Nt = 10] (with [L = 1.0], [D = 0.05], [Nx = 100]) the grid starts
    [0, 0.1, 0.2, 0.30000000000000004], and [t[3] - t[2]] is not
    [t[1] - t[0]]. *)
Lemma time_grid_uneven_in_binary64 :
  exists t1 t2 t3 : float,
    (forall th pw : float -> float, faithful pw ->
       exists x t U,
         solve_heat_equation_euler (AF := ArithF th pw)
           (lit (Arith := ArithF th pw) 1.0) (lit (Arith := ArithF th pw) 1.0)
           (lit (Arith := ArithF th pw) 0.05) 10 100 = Some (x, t, U) /\
         t !! 0%nat = Some 0%float /\ t !! 1%nat = Some t1 /\
         t !! 2%nat = Some t2 /\ t !! 3%nat = Some t3) /\
    PrimFloat.eqb (t3 - t2) (t1 - 0) = false.
Proof.
  exists 0x1.999999999999ap-4%float, 0x1.999999999999ap-3%float,
    0x1.3333333333334p-2%float.
  split; [|reflexivity].
  intros th pw Hpw.
  assert (Hc : exists ok r,
            check_stability (AF := ArithF th pw)
              (lit (Arith := ArithF th pw) 0.05)
              (lit (Arith := ArithF th pw) 1.0) 10 100
              (lit (Arith := ArithF th pw) 1.0) = Some (ok, r)).
  { square_at Hpw (1 / 100)%float Hdx.
    destruct Hdx as [E|E]; eexists _, _; unfold check_stability;
      run_chain E. }
  destruct Hc as (ok & r & Hc).
  destruct (solve_heat_equation_euler_spec (AF := ArithF th pw) _ _ _ _ _ ok r
              Hc) as (U & Hcall & _); [lia|].
  eexists _, _, U. split; [exact Hcall|].
  repeat split; vm_compute; reflexivity.
Qed.

(** ** C10: the recommended number of steps *)

(** C10 (as amended).  In exact arithmetic, for positive [L], [T], [D] and
    [Nt >= 1], [Nx >= 1]: whenever [r = D * (T / Nt) / (L / Nx)**2] exceeds
    [0.5], [analyze_stability] recommends
    [Nt_required = ceil(2 * D * T * Nx**2 / L**2)], this is at least 1, the
    ratio for [Nt_required] steps is at most [0.5], and
    [analyze_stability] run with [Nt_required] steps reports "stable". *)
Theorem recommended_steps_are_stable (th : Q -> Q) (L T D : Q)
    (Nt Nx : nat) :
  (0 < L)%Q -> (0 < T)%Q -> (0 < D)%Q -> (1 <= Nt)%nat -> (1 <= Nx)%nat ->
  let r := ratio (AF := ArithQ th) D (T / inject_Z (Z.of_nat Nt))%Q
             (L / inject_Z (Z.of_nat Nx))%Q in
  (1 # 2 < r)%Q ->
  exists Nt_required r',
    analyze_stability (AF := ArithQ th) L T D Nt Nx
    = Some (false, r, Some Nt_required) /\
    Nt_required
    = Qceiling (inject_Z 2 * D * T * inject_Z (Z.of_nat Nx ^ 2) / (L * L)) /\
    1 <= Nt_required /\
    r' = ratio (AF := ArithQ th) D (T / inject_Z Nt_required)%Q
           (L / inject_Z (Z.of_nat Nx))%Q /\
    (r' <= 1 # 2)%Q /\
    analyze_stability (AF := ArithQ th) L T D (Z.to_nat Nt_required) Nx
    = Some (true, r', None).
Proof.
  intros HL HT HD HNt HNx r Hr.
  assert (HL0 : ~ (L == 0)%Q) by (intros E; rewrite E in HL; Lqa.lra).
  set (K := (inject_Z 2 * D * T * inject_Z (Z.of_nat Nx ^ 2) / (L * L))%Q).
  set (half := lit (Arith := ArithQ th) 0.5).
  assert (Hhalf : (half == 1 # 2)%Q) by reflexivity.
  (* the first call *)
  pose proof (analyze_stability_exact th L T D Nt Nx HNt HNx HL0) as Hcall.
  cbv zeta in Hcall. fold r in Hcall. fold K in Hcall. fold half in Hcall.
  assert (Hflt : flt (Arith := ArithQ th) half r = true)
    by (apply (flt_exact th); rewrite Hhalf; exact Hr).
  assert (Hfle : fle (Arith := ArithQ th) r half = false).
  { destruct (fle (Arith := ArithQ th) r half) eqn:E; [|reflexivity].
    apply (fle_exact th) in E. rewrite Hhalf in E. Lqa.lra. }
  rewrite Hflt, Hfle in Hcall.
  (* K exceeds Nt, so its ceiling is positive *)
  assert (HrK : (r == K / (2 * inject_Z (Z.of_nat Nt)))%Q)
    by (apply ratio_as_quotient; [exact HL0 | lia | lia]).
  assert (HNtpos : (0 < inject_Z (Z.of_nat Nt))%Q)
    by (unfold Qlt; simpl; lia).
  assert (HK : (inject_Z (Z.of_nat Nt) < K)%Q).
  { rewrite HrK in Hr. apply Qnot_le_lt. intros Hle.
    apply (Qlt_not_le _ _ Hr). apply Qle_shift_div_r; Lqa.lra. }
  pose proof (Qle_ceiling K) as Hceil.
  assert (Hnpos : (0 < inject_Z (Qceiling K))%Q) by Lqa.lra.
  assert (Hn1 : 1 <= Qceiling K)
    by (unfold Qlt in Hnpos; simpl in Hnpos; lia).
  (* the ratio for the recommended number of steps *)
  set (r' := ratio (AF := ArithQ th) D (T / inject_Z (Qceiling K))%Q
               (L / inject_Z (Z.of_nat Nx))%Q).
  assert (Hr'K : (r' == K / (2 * inject_Z (Qceiling K)))%Q)
    by (apply ratio_as_quotient; [exact HL0 | lia | lia]).
  assert (Hr' : (r' <= 1 # 2)%Q).
  { rewrite Hr'K. apply Qle_shift_div_r; Lqa.lra. }
  exists (Qceiling K), r'.
  split; [exact Hcall|]. split; [reflexivity|]. split; [exact Hn1|].
  split; [reflexivity|]. split; [exact Hr'|].
  (* the second call *)
  pose proof (analyze_stability_exact th L T D (Z.to_nat (Qceiling K)) Nx)
    as Hcall2.
  cbv zeta in Hcall2. rewrite Z2Nat.id in Hcall2 by lia.
  fold r' in Hcall2. fold K in Hcall2. fold half in Hcall2.
  assert (Hflt2 : flt (Arith := ArithQ th) half r' = false).
  { destruct (flt (Arith := ArithQ th) half r') eqn:E; [|reflexivity].
    apply (flt_exact th) in E. rewrite Hhalf in E. Lqa.lra. }
  assert (Hfle2 : fle (Arith := ArithQ th) r' half = true)
    by (apply (fle_exact th); rewrite Hhalf; exact Hr').
  rewrite Hflt2, Hfle2 in Hcall2. apply Hcall2; [lia | exact HNx | exact HL0].
Qed.

Lemma recommended_steps_are_stable_witness :
  exists Nt_required r',
    analyze_stability (AF := rational) 1%Q 1%Q (1 # 20)%Q 50 100
    = Some (false,
            ratio (AF := rational) (1 # 20)
              (1 / inject_Z 50) (1 / inject_Z 100),
            Some Nt_required)%Q /\
    Nt_required
    = Qceiling (inject_Z 2 * (1 # 20) * 1 * inject_Z (Z.of_nat 100 ^ 2)
                / (1 * 1)) /\
    1 <= Nt_required /\
    r' = ratio (AF := rational) (1 # 20) (1 / inject_Z Nt_required)%Q
           (1 / inject_Z (Z.of_nat 100))%Q /\
    (r' <= 1 # 2)%Q /\
    analyze_stability (AF := rational) 1%Q 1%Q (1 # 20)%Q
      (Z.to_nat Nt_required) 100
    = Some (true, r', None).
Proof.
  apply (recommended_steps_are_stable (fun x => x) 1%Q 1%Q (1 # 20)%Q 50 100);
    try lia; vm_compute; reflexivity.
Defined.

(** C10, as stated, fails in binary64, whatever faithful power function
    the C library has.  For [L = T = 1], [D = 0.05], [Nx = 70] and
    [Nt = 100] the ratio is above [0.5] and the recommended step count is
    [490]; with [Nt = 490] the computed ratio is still above [0.5], and
    [analyze_stability] reports "unstable" again. *)
Lemma recommended_steps_unstable_in_binary64 :
  exists r' : float,
    (forall th pw : float -> float, faithful pw ->
       (exists r,
          analyze_stability (AF := ArithF th pw) (lit (Arith := ArithF th pw) 1.0)
            (lit (Arith := ArithF th pw) 1.0) (lit (Arith := ArithF th pw) 0.05)
            100 70
          = Some (false, r, Some 490)) /\
       analyze_stability (AF := ArithF th pw) (lit (Arith := ArithF th pw) 1.0)
         (lit (Arith := ArithF th pw) 1.0) (lit (Arith := ArithF th pw) 0.05)
         490 70
       = Some (false, r', Some 490)) /\
    PrimFloat.leb r' 0.5%float = false.
Proof.
  exists 0x1.0000000000001p-1%float.
  split; [|reflexivity].
  intros th pw Hpw.
  square_at Hpw (1 / 70)%float Hdx.
  square_at Hpw 1%float Hone.
  assert (H1 : pw 1%float = 1%float) by (destruct Hone; assumption).
  split.
  - destruct Hdx as [E|E]; eexists; run_analyze E H1.
  - destruct Hdx as [E|E]; run_analyze E H1.
Qed.

(** * Further properties of the code *)

#[local] Existing Instance rational.
#[local] Existing Instance ArithR.

Section Edge.
Context {F : Type} {AF : Arith F}.

Lemma broadcast_Some_iff {A} (k : nat) (v : list A) :
  is_Some (broadcast k v) <-> length v = k \/ length v = 1%nat.
Proof.
  unfold broadcast. destruct (decide (length v = k)) as [E|E].
  - split; [intros _; left; exact E | intros _; eexists; reflexivity].
  - destruct v as [|x [|y v]]; simpl in *.
    + split; [intros [? ?]; discriminate | intros [?|?]; [lia | discriminate]].
    + split; [intros _; right; reflexivity | intros _; eexists; reflexivity].
    + split; [intros [? ?]; discriminate | intros [?|?]; [lia | discriminate]].
Qed.

Lemma set_row_Some (cols n : nat) (v : list F) (M : list (list F)) :
  (n < length M)%nat -> row_lengths cols M ->
  length v = cols \/ length v = 1%nat ->
  exists M', set_row n v M = Some M'.
Proof.
  intros Hn HM Hv. unfold set_row.
  destruct (lookup_lt_is_Some_2 M n Hn) as [row Hrow]. rewrite Hrow.
  cbn [mbind option_bind].
  assert (Hlen : length row = cols) by exact (Forall_lookup_1 _ _ _ _ HM Hrow).
  destruct (proj2 (broadcast_Some_iff (length row) v)) as [v' Hv'];
    [rewrite Hlen; exact Hv|].
  rewrite Hv'. cbn [mbind option_bind]. eexists. reflexivity.
Qed.

(** The loop of [explicit_heat] runs to its end on every profile that is
    not empty and that a row of the matrix can take. *)
Lemma heat_loop_runs (r U1 U2 : F) (cols k : nat) :
  forall n U M,
    (0 < length U)%nat -> length U = cols \/ length U = 1%nat ->
    length M = (n + k + 1)%nat -> row_lengths cols M ->
    exists R, heat_loop r U1 U2 k n U M = Some R.
Proof.
  induction k as [|k IH]; intros n U M Hpos HU Hlen HM; simpl.
  - eexists. reflexivity.
  - destruct (heat_step_spec r U1 U2 U Hpos) as (U' & -> & HlenU' & _).
    cbn [mbind option_bind].
    destruct (set_row_Some cols (S n) U' M) as [M' HM'];
      [lia | exact HM | rewrite HlenU'; exact HU |].
    rewrite HM'. cbn [mbind option_bind].
    destruct (set_row_shape cols _ _ _ _ HM' HM) as [HlenM' HM'c].
    apply IH; [lia | rewrite HlenU'; exact HU | lia | exact HM'c].
Qed.


(** [explicit_heat] returns on a profile that is not empty and has [Nx]
    samples or a single one, once the ratio is computed. *)
Lemma explicit_heat_runs (U_init : list F) (Nx Nt : nat)
    (L T D U1 U2 alpha dt : F) :
  heat_ratio Nx Nt L T D = Some (alpha, dt) ->
  (0 < length U_init)%nat ->
  length U_init = Nx \/ length U_init = 1%nat ->
  exists field,
    explicit_heat U_init Nx Nt L T D U1 U2 = Some (field, alpha, dt).
Proof.
  intros Hratio Hpos HU. unfold explicit_heat.
  rewrite Hratio. cbn [mbind option_bind].
  destruct (zeros_shape (S Nt) Nx) as [Hrows Hcols].
  destruct (set_row_Some Nx 0 U_init (zeros (S Nt) Nx)) as [M HM];
    [lia | exact Hcols | exact HU |].
  rewrite HM. cbn [mbind option_bind].
  destruct (set_row_shape Nx _ _ _ _ HM Hcols) as [HlenM HMc].
  destruct (heat_loop_runs alpha U1 U2 Nx Nt 0 U_init M) as [R HR];
    [exact Hpos | exact HU | lia | exact HMc |].
  rewrite HR. cbn [mbind option_bind]. eexists. reflexivity.
Qed.

Lemma explicit_heat_empty (Nx Nt : nat) (L T D U1 U2 : F) :
  (1 <= Nt)%nat -> explicit_heat [] Nx Nt L T D U1 U2 = None.
Proof.
  intros HNt. unfold explicit_heat.
  destruct (heat_ratio Nx Nt L T D) as [[a d]|]; [|reflexivity].
  cbn [mbind option_bind].
  destruct (set_row 0 [] (zeros (S Nt) Nx)) as [M|]; [|reflexivity].
  cbn [mbind option_bind].
  destruct Nt as [|k]; [lia|]. reflexivity.
Qed.

Lemma explicit_heat_mismatch (U_init : list F) (Nx Nt : nat)
    (L T D U1 U2 : F) :
  length U_init <> Nx -> length U_init <> 1%nat ->
  explicit_heat U_init Nx Nt L T D U1 U2 = None.
Proof.
  intros HNx H1. unfold explicit_heat.
  destruct (heat_ratio Nx Nt L T D) as [[a d]|]; [|reflexivity].
  cbn [mbind option_bind].
  unfold set_row. cbn [zeros replicate lookup list_lookup mbind option_bind].
  destruct (broadcast (length (replicate Nx (of_int 0))) U_init) as [v|] eqn:Hv;
    [|reflexivity].
  destruct (proj1 (broadcast_Some_iff _ U_init) (ex_intro _ v Hv)) as [E|E].
  - rewrite length_replicate in E. contradiction.
  - contradiction.
Qed.

End Edge.

(** ** Errors raised by [explicit_heat] *)



Section OneSample.
Context {F : Type} {AF : Arith F}.

Lemma broadcast_single {A} (k : nat) (x : A) (v : list A) :
  broadcast k [x] = Some v -> v = replicate k x.
Proof.
  unfold broadcast. destruct (decide (length [x] = k)) as [<-|E].
  - intros [= <-]. reflexivity.
  - intros [= <-]. reflexivity.
Qed.

Lemma set_row_single (cols n : nat) (x : F) (M M' : list (list F)) :
  row_lengths cols M -> set_row n [x] M = Some M' ->
  M' = <[n := replicate cols x]> M.
Proof.
  intros HM. unfold set_row.
  destruct (M !! n) as [row|] eqn:Hrow; [|discriminate].
  cbn [mbind option_bind].
  destruct (broadcast (length row) [x]) as [v|] eqn:Hv; [|discriminate].
  cbn [mbind option_bind]. intros [= <-].
  apply broadcast_single in Hv.
  rewrite (Forall_lookup_1 _ _ _ _ HM Hrow) in Hv. rewrite Hv. reflexivity.
Qed.

Lemma heat_step_single (r U1 U2 v : F) : heat_step r U1 U2 [v] = Some [U2].
Proof. reflexivity. Qed.

Lemma heat_loop_single (r U1 U2 : F) (cols k : nat) :
  forall n v M R,
    length M = (n + k + 1)%nat -> row_lengths cols M ->
    heat_loop r U1 U2 k n [v] M = Some R ->
    (forall m, (m <= n)%nat -> R !! m = M !! m) /\
    (forall m, (n < m <= n + k)%nat -> R !! m = Some (replicate cols U2)).
Proof.
  induction k as [|k IH]; intros n v M R Hlen HM Hrun;
    cbn [heat_loop] in Hrun.
  - injection Hrun as <-. split; [reflexivity | intros m Hm; lia].
  - rewrite heat_step_single in Hrun. cbn [mbind option_bind] in Hrun.
    destruct (set_row (S n) [U2] M) as [M'|] eqn:HM'; [|discriminate].
    cbn [mbind option_bind] in Hrun.
    pose proof (set_row_single cols _ _ _ _ HM HM') as ->.
    destruct (set_row_shape cols _ _ _ _ HM' HM) as [HlenM' HM'c].
    destruct (IH (S n) U2 (<[S n := replicate cols U2]> M) R)
      as [Hbefore Hafter];
      [rewrite length_insert; lia | exact HM'c | exact Hrun |].
    split.
    + intros m Hm. rewrite Hbefore by lia. apply list_lookup_insert_ne. lia.
    + intros m Hm. destruct (decide (m = S n)) as [->|Hne].
      * rewrite Hbefore by lia. apply list_lookup_insert_eq. lia.
      * apply Hafter. lia.
Qed.

End OneSample.


(** ** A profile of one sample *)

(** X2.  [explicit_heat] accepts a profile of a single sample for every [Nx]:
    NumPy broadcasts it.  Whenever the ratio [alpha] can be computed, the
    call returns; row 0 of the field is then the sample repeated [Nx]
    times, and every later row is [U2] repeated [Nx] times, since
    [U_new[-1] = U2] overwrites the only entry of the working profile. *)
Theorem one_sample_profile_fills_rows {F : Type} {AF : Arith F}
    (u : F) (Nx Nt : nat) (L T D U1 U2 alpha dt : F) :
  heat_ratio Nx Nt L T D = Some (alpha, dt) ->
  exists field,
    explicit_heat [u] Nx Nt L T D U1 U2 = Some (field, alpha, dt) /\
    field !! 0%nat = Some (replicate Nx u) /\
    forall n, (1 <= n <= Nt)%nat -> field !! n = Some (replicate Nx U2).
Proof.
  intros Hratio.
  destruct (explicit_heat_runs [u] Nx Nt L T D U1 U2 alpha dt Hratio)
    as [field Hrun]; [simpl; lia | right; reflexivity |].
  exists field. split; [exact Hrun|].
  unfold explicit_heat in Hrun. rewrite Hratio in Hrun.
  cbn [mbind option_bind] in Hrun.
  destruct (set_row 0 [u] (zeros (S Nt) Nx)) as [M|] eqn:HM; [|discriminate].
  cbn [mbind option_bind] in Hrun.
  destruct (heat_loop alpha U1 U2 Nt 0 [u] M) as [R|] eqn:HR; [|discriminate].
  cbn [mbind option_bind] in Hrun.
  assert (R = field) as <- by congruence.
  destruct (zeros_shape (S Nt) Nx) as [Hrows Hcols].
  pose proof (set_row_single Nx _ _ _ _ Hcols HM) as HMeq.
  destruct (set_row_shape Nx _ _ _ _ HM Hcols) as [HlenM HMc].
  destruct (heat_loop_single alpha U1 U2 Nx Nt 0 u M R) as [Hbefore Hafter];
    [lia | exact HMc | exact HR |].
  split.
  - rewrite Hbefore by lia. rewrite HMeq. apply list_lookup_insert_eq. lia.
  - intros n Hn. apply Hafter. lia.
Qed.

Lemma one_sample_profile_fills_rows_witness :
  exists alpha dt field,
    explicit_heat (AF := rational) [7%Q] 3 2 2%Q 1%Q (1 # 2)%Q 20%Q 0%Q
    = Some (field, alpha, dt) /\
    field !! 0%nat = Some (replicate 3 7%Q) /\
    forall n, (1 <= n <= 2)%nat -> field !! n = Some (replicate 3 0%Q).
Proof.
  eexists _, _.
  apply (one_sample_profile_fills_rows (AF := rational) 7%Q 3 2 2%Q 1%Q
           (1 # 2)%Q 20%Q 0%Q).
  vm_compute. reflexivity.
Defined.


(** ** Grids without interior points *)

Lemma stepper_run_without_interior {F : Type} {AF : Arith F}
    (Nx Nt : nat) (D dt dx : F) (init : list F) (U_left U_right : F)
    (field : list (list F)) :
  stepper_run Nx Nt D dt dx init U_left U_right field ->
  (1 <= Nx <= 2)%nat ->
  forall n, (1 <= n <= Nt)%nat ->
    field !! n
    = Some (if decide (Nx = 1%nat) then [U_right] else [U_left; U_right]).
Proof.
  intros Hrun HNx n Hn.
  destruct (stepper_run_next Nx Nt D dt dx init U_left U_right field (n - 1)
              Hrun) as (cur & next & _ & Hnext & Hcur & Hlen & Hentries);
    [lia | lia |].
  replace (S (n - 1)) with n in Hnext by lia. rewrite Hnext. f_equal.
  destruct (decide (Nx = 1%nat)) as [->|HNx1].
  - destruct next as [|a [|b next]]; simpl in Hlen; try lia.
    pose proof (Hentries 0%nat) as H0. unfold next_entry in H0.
    rewrite Hcur in H0. simpl in H0. specialize (H0 ltac:(lia)). congruence.
  - assert (Nx = 2%nat) as -> by lia.
    destruct next as [|a [|b [|c next]]]; simpl in Hlen; try lia.
    pose proof (Hentries 0%nat) as H0. pose proof (Hentries 1%nat) as H1.
    unfold next_entry in H0, H1. rewrite Hcur in H0, H1. simpl in H0, H1.
    specialize (H0 ltac:(lia)). specialize (H1 ltac:(lia)). congruence.
Qed.

(** X3.  On a grid of one or two points there is nothing for the update rule to
    compute, and the ratio plays no part.  [explicit_heat] on two points
    returns whenever its ratio can be computed, and every row after the
    first is [[U1; U2]], whatever the initial profile.
    [solve_heat_equation_euler] on one or two points returns whenever
    [check_stability] does, and every row after the first is [[20; 0]] on
    two points and [[0]] on one: the right boundary value, written last, is
    the one that stays.  ([explicit_heat] on one point always raises:
    [dx = L / (Nx - 1)].) *)
Theorem rows_without_interior {F : Type} {AF : Arith F} :
  (forall (U_init : list F) (Nt : nat) (L T D U1 U2 alpha dt : F),
     length U_init = 2%nat ->
     heat_ratio 2 Nt L T D = Some (alpha, dt) ->
     exists field,
       explicit_heat U_init 2 Nt L T D U1 U2 = Some (field, alpha, dt) /\
       forall n, (1 <= n <= Nt)%nat -> field !! n = Some [U1; U2]) /\
  (forall (L T D r : F) (Nt Nx : nat) (ok : bool),
     (1 <= Nx <= 2)%nat ->
     check_stability D T Nt Nx L = Some (ok, r) ->
     exists x t U,
       solve_heat_equation_euler L T D Nt Nx = Some (x, t, U) /\
       forall n, (1 <= n <= Nt)%nat ->
         U !! n
         = Some (if decide (Nx = 1%nat) then [of_int 0]
                 else [of_int 20; of_int 0])).
Proof.
  split.
  - intros U_init Nt L T D U1 U2 alpha dt Hlen Hratio.
    destruct (explicit_heat_spec U_init 2 Nt L T D U1 U2 alpha dt Hratio Hlen)
      as (field & Hcall & _); [lia|].
    exists field. split; [exact Hcall|]. intros n Hn.
    destruct (explicit_heat_is_run U_init 2 Nt L T D U1 U2 alpha dt field
                Hlen Hcall) as [_ Hrun].
    rewrite (stepper_run_without_interior _ _ _ _ _ _ _ _ _ Hrun ltac:(lia)
               n Hn).
    reflexivity.
  - intros L T D r Nt Nx ok HNx Hc.
    destruct (solve_heat_equation_euler_spec L T D Nt Nx ok r Hc)
      as (U & Hcall & _); [lia|].
    eexists _, _, U. split; [exact Hcall|]. intros n Hn.
    pose proof (solve_is_run _ _ _ _ _ _ _ _ Hcall) as Hrun.
    exact (stepper_run_without_interior _ _ _ _ _ _ _ _ _ Hrun HNx n Hn).
Qed.

Lemma rows_without_interior_witness :
  (exists alpha dt field,
     explicit_heat (AF := rational) [5; 6]%Q 2 2 2%Q 1%Q (1 # 2)%Q 20%Q 0%Q
     = Some (field, alpha, dt) /\
     forall n, (1 <= n <= 2)%nat -> field !! n = Some [20; 0]%Q) /\
  (exists x t U,
     solve_heat_equation_euler (AF := rational) 1%Q 1%Q (1 # 20)%Q 2 1
     = Some (x, t, U) /\
     forall n, (1 <= n <= 2)%nat -> U !! n = Some [0%Q]).
Proof.
  split.
  - eexists _, _.
    apply (proj1 (rows_without_interior (AF := rational)) [5; 6]%Q 2%nat 2%Q
             1%Q (1 # 2)%Q 20%Q 0%Q); [reflexivity|].
    vm_compute. reflexivity.
  - apply (proj2 (rows_without_interior (AF := rational)) 1%Q 1%Q (1 # 20)%Q
             (ratio (AF := rational) (1 # 20) (1 / inject_Z 2)
                (1 / inject_Z 1))%Q 2%nat 1%nat true); [lia|].
    reflexivity.
Defined.

Section Rows.
Context {F : Type} {AF : Arith F}.

(** Two fields built by the same step agree from a common row on. *)
Lemma stepped_rows_agree (r U1 U2 : F) (f g : list (list F)) (n K : nat) :
  (forall m, (m < K)%nat -> stepped r U1 U2 f (n + m)) ->
  (forall m, (m < K)%nat -> stepped r U1 U2 g m) ->
  g !! 0%nat = f !! n ->
  forall k, (k <= K)%nat -> g !! k = f !! (n + k)%nat.
Proof.
  intros Hf Hg H0 k. induction k as [|k IH]; intros Hk.
  - rewrite Nat.add_0_r. exact H0.
  - destruct (Hf k) as (cur & next & Hcur & Hnext & Hstep); [lia|].
    destruct (Hg k) as (cur' & next' & Hcur' & Hnext' & Hstep'); [lia|].
    rewrite IH in Hcur' by lia. rewrite Hcur in Hcur'.
    injection Hcur' as <-.
    replace (n + S k)%nat with (S (n + k)) by lia.
    rewrite Hnext, Hnext'. congruence.
Qed.

End Rows.


(** ** Restarting from a row *)




(** ** The two solvers *)

(** X5.  [solve_heat_equation_euler] of heat_equation.py and [explicit_heat] of
    heat_eq_fr.py take the same steps.  Whenever [check_stability] returns
    a ratio [r] for [solve_heat_equation_euler], and the parameters given
    to [explicit_heat] make it compute the same ratio
    ([solve_heat_equation_euler] takes [dx = L / Nx], where [explicit_heat]
    takes [L / (Nx - 1)]), both calls return, and [explicit_heat], run on
    the profile that [initialize_conditions] builds with the boundary values
    [20] and [0], returns the very field that [solve_heat_equation_euler]
    returns. *)
Theorem both_solvers_take_the_same_steps {F : Type} {AF : Arith F}
    (L T D L' T' D' r dt' : F) (Nt Nx : nat) (ok : bool) :
  (1 <= Nx)%nat ->
  check_stability D T Nt Nx L = Some (ok, r) ->
  heat_ratio Nx Nt L' T' D' = Some (r, dt') ->
  exists x t U,
    solve_heat_equation_euler L T D Nt Nx = Some (x, t, U) /\
    explicit_heat (euler_profile Nx L) Nx Nt L' T' D' (of_int 20) (of_int 0)
    = Some (U, r, dt').
Proof.
  intros HNx Hc Hratio.
  destruct (solve_heat_equation_euler_spec L T D Nt Nx ok r Hc)
    as (U & Hsolve & HlenU & _ & H0 & Hsteps); [lia|].
  destruct (explicit_heat_spec (euler_profile Nx L) Nx Nt L' T' D'
              (of_int 20) (of_int 0) r dt' Hratio (euler_profile_length Nx L))
    as (field & Hcall & Hlenf & _ & H0' & Hsteps'); [lia|].
  eexists _, _, U. split; [exact Hsolve|].
  rewrite Hcall. do 3 f_equal.
  apply list_eq. intros k.
  destruct (decide (k <= Nt)%nat) as [Hk|Hk].
  - apply (stepped_rows_agree r (of_int 20) (of_int 0) U field 0 Nt);
      [exact Hsteps | exact Hsteps' | congruence | exact Hk].
  - rewrite !lookup_ge_None_2 by lia. reflexivity.
Qed.

Lemma both_solvers_take_the_same_steps_witness :
  exists r dt' x t U,
    solve_heat_equation_euler (AF := rational) 3%Q 1%Q (4 # 8)%Q 1 3
    = Some (x, t, U) /\
    explicit_heat (AF := rational) (euler_profile (AF := rational) 3 3%Q)
      3 1 2%Q 1%Q (9 # 18)%Q 20%Q 0%Q = Some (U, r, dt').
Proof.
  eexists _, _.
  apply (both_solvers_take_the_same_steps (AF := rational) 3%Q 1%Q (4 # 8)%Q
           2%Q 1%Q (9 # 18)%Q _ _ 1 3 true); [lia | |].
  - vm_compute. reflexivity.
  - vm_compute. reflexivity.
Defined.

(** ** The stability checks and the solvers *)



(** X7.  [analyze_stability] of stability_analysis.py computes the ratio and the
    verdict of [check_stability] of heat_equation.py.  Whenever it returns,
    [check_stability] returns the same two values for the same parameters,
    and it has worked out a recommended step count exactly when [r > 0.5].
    Whenever [check_stability] returns a ratio that is not above [0.5],
    [analyze_stability] returns the same verdict; for a ratio above [0.5]
    it returns the same verdict with the recommended step count, or raises
    where that count cannot be computed.  Where [check_stability] raises,
    so does [analyze_stability]. *)
Theorem analyze_stability_agrees_with_check_stability
    {F : Type} {AF : Arith F} (L T D : F) (Nt Nx : nat) :
  (forall (ok : bool) (r : F) (rec : option Z),
     analyze_stability L T D Nt Nx = Some (ok, r, rec) ->
     check_stability D T Nt Nx L = Some (ok, r) /\
     (is_Some rec <-> flt (lit 0.5) r = true)) /\
  (forall (ok : bool) (r : F),
     check_stability D T Nt Nx L = Some (ok, r) ->
     analyze_stability L T D Nt Nx
     = if flt (lit 0.5) r
       then (fun n => (ok, r, Some n)) <$> required_steps L T D Nx
       else Some (ok, r, None)) /\
  (check_stability D T Nt Nx L = None ->
   analyze_stability L T D Nt Nx = None).
Proof.
  unfold analyze_stability, check_stability.
  destruct (pydiv T (of_int (Z.of_nat Nt))) as [dt|];
    [|repeat split; intros; discriminate].
  cbn [mbind option_bind].
  destruct (pydiv L (of_int (Z.of_nat Nx))) as [dx|];
    [|repeat split; intros; discriminate].
  cbn [mbind option_bind].
  destruct (fpow2 dx) as [dx2|]; [|repeat split; intros; discriminate].
  cbn [mbind option_bind].
  destruct (pydiv (D * dt)%A dx2) as [r'|];
    [|repeat split; intros; discriminate].
  cbn [mbind option_bind].
  split; [|split; [|discriminate]].
  - intros ok r rec Ha.
    destruct (flt (lit 0.5) r') eqn:Hflt.
    + destruct (required_steps L T D Nx) as [n|]; [|discriminate].
      cbn [mbind option_bind] in Ha. injection Ha as <- <- <-.
      split; [reflexivity|]. rewrite Hflt. split; [reflexivity | eauto].
    + injection Ha as <- <- <-.
      split; [reflexivity|]. rewrite Hflt.
      split; [intros [? ?]; discriminate | discriminate].
  - intros ok r Hc. injection Hc as <- <-.
    destruct (flt (lit 0.5) r'); [|reflexivity].
    destruct (required_steps L T D Nx); reflexivity.
Qed.

Lemma analyze_stability_agrees_with_check_stability_witness :
  check_stability (AF := rational) (1 # 20)%Q 1%Q 100 1500 1%Q
  = Some (false,
          ratio (AF := rational) (1 # 20) (1 / inject_Z 100)
            (1 / inject_Z 1500))%Q /\
  (is_Some (Some 225000)
   <-> flt (Arith := rational) (lit (Arith := rational) 0.5)
         (ratio (AF := rational) (1 # 20) (1 / inject_Z 100)
            (1 / inject_Z 1500))%Q = true).
Proof.
  apply (proj1 (analyze_stability_agrees_with_check_stability (AF := rational)
                  1%Q 1%Q (1 # 20)%Q 100%nat 1500%nat) false _
           (Some 225000)).
  reflexivity.
Defined.

(** X8.  The two files measure the grid differently: [explicit_heat] takes
    [dx = L / (Nx - 1)], [check_stability] takes [dx = L / Nx].  So the
    ratio [alpha] of [explicit_heat] on [Nx] points is the stability factor
    that [check_stability] reports for [Nx - 1] points, and the one raises
    where the other does. *)
Theorem explicit_heat_ratio_is_check_stability_on_one_point_less
    {F : Type} {AF : Arith F} (Nx Nt : nat) (L T D : F) :
  (1 <= Nx)%nat ->
  check_stability D T Nt (Nx - 1) L
  = (fun ad => (fle ad.1 (lit 0.5), ad.1)) <$> heat_ratio Nx Nt L T D.
Proof.
  intros HNx. unfold check_stability, heat_ratio.
  replace (Z.of_nat (Nx - 1)) with (Z.of_nat Nx - 1) by lia.
  destruct (pydiv T (of_int (Z.of_nat Nt))) as [dt|];
    destruct (pydiv L (of_int (Z.of_nat Nx - 1))) as [dx|];
    cbn [mbind option_bind fmap option_fmap option_map]; try reflexivity.
  destruct (fpow2 dx) as [dx2|];
    cbn [mbind option_bind fmap option_fmap option_map]; [|reflexivity].
  destruct (pydiv (D * dt)%A dx2) as [alpha|];
    cbn [mbind option_bind fmap option_fmap option_map]; reflexivity.
Qed.

Lemma explicit_heat_ratio_is_check_stability_on_one_point_less_witness :
  check_stability (AF := rational) (1 # 20)%Q 1%Q 1500 (100 - 1) 1%Q
  = (fun ad => (fle (Arith := rational) ad.1 (lit (Arith := rational) 0.5),
                ad.1))
      <$> heat_ratio (AF := rational) 100 1500 1%Q 1%Q (1 # 20)%Q.
Proof.
  apply (explicit_heat_ratio_is_check_stability_on_one_point_less
           (AF := rational)). lia.
Defined.

Section ExactChecks.
Variable th : Q -> Q.
#[local] Hint Extern 0 (Arith Q) => exact (ArithQ th) : typeclass_instances.

Lemma pydiv_zero (a b : Q) : (b == 0)%Q -> pydiv a b = None.
Proof.
  intros Hb. unfold pydiv. cbn [is_zero ArithQ].
  apply Qeq_bool_iff in Hb. rewrite Hb. reflexivity.
Qed.

Lemma pydiv_nonzero (a b q : Q) : pydiv a b = Some q -> ~ (b == 0)%Q.
Proof.
  intros Hq Hb. rewrite (pydiv_zero a b Hb) in Hq. discriminate.
Qed.

(** [check_stability] returns only for counts that are not zero and a
    length that is not zero. *)
Lemma check_stability_valid (D T L r : Q) (Nt Nx : nat) (ok : bool) :
  check_stability D T Nt Nx L = Some (ok, r) ->
  (1 <= Nt)%nat /\ (1 <= Nx)%nat /\ ~ (L == 0)%Q.
Proof.
  unfold check_stability. intros Hc.
  destruct (pydiv T (of_int (Z.of_nat Nt))) as [dt|] eqn:Hdt; [|discriminate].
  cbn [mbind option_bind] in Hc.
  destruct (pydiv L (of_int (Z.of_nat Nx))) as [dx|] eqn:Hdx; [|discriminate].
  cbn [mbind option_bind fpow2 ArithQ] in Hc.
  destruct (pydiv (D * dt)%A (dx * dx)%Q) as [q|] eqn:Hq; [|discriminate].
  apply pydiv_nonzero in Hdt, Hq. pose proof (pydiv_nonzero _ _ _ Hdx) as Hx.
  apply pydiv_Some in Hdx. cbn [of_int fdiv ArithQ] in *.
  split; [|split].
  - destruct Nt; [exfalso; apply Hdt; reflexivity | lia].
  - destruct Nx; [exfalso; apply Hx; reflexivity | lia].
  - intros HL. apply Hq. rewrite Hdx, HL. unfold Qdiv. ring.
Qed.

(** The ratio falls when the number of steps grows. *)
Lemma ratio_antitone (D T dx : Q) (n n' : Z) :
  (0 <= D)%Q -> (0 <= T)%Q -> 1 <= n <= n' ->
  (ratio D (T / inject_Z n') dx <= ratio D (T / inject_Z n) dx)%Q.
Proof.
  intros HD HT Hn. unfold ratio, sqr. cbn [fdiv fmul fsqr ArithQ].
  assert (Hpos : (0 < inject_Z n)%Q) by (unfold Qlt; simpl; lia).
  assert (Hpos' : (0 < inject_Z n')%Q) by (unfold Qlt; simpl; lia).
  assert (Hle : (inject_Z n <= inject_Z n')%Q) by (unfold Qle; simpl; lia).
  assert (Hinv : (/ inject_Z n' <= / inject_Z n)%Q).
  { apply Qle_shift_inv_l; [exact Hpos|].
    rewrite Qmult_comm. apply Qle_shift_div_r; [exact Hpos' | Lqa.lra]. }
  assert (Hsq : (0 <= / (dx * dx))%Q) by (apply Qinv_le_0_compat; Lqa.nra).
  unfold Qdiv.
  set (a := (/ inject_Z n')%Q) in *. set (b := (/ inject_Z n)%Q) in *.
  set (c := (/ (dx * dx))%Q) in *.
  assert (H1 : (T * a <= T * b)%Q) by Lqa.nra.
  assert (H2 : (D * (T * a) <= D * (T * b))%Q) by Lqa.nra.
  Lqa.nra.
Qed.

End ExactChecks.

(** ** The stability table and the solver of heat_eq_fr.py *)

(** X9.  The table printed at the end of heat_eq_fr.py is about the solver it
    follows, although the table measures [dx] on the grid ([x[1] - x[0]])
    and the solver divides [L] by [Nx - 1].  In exact arithmetic, for every
    [Nt_val >= 1], the ratio of the table's line is the [alpha] that
    [explicit_heat] computes for the constants of the script and [Nt_val]
    steps.  In binary64 the two are the same float for each of the six step
    counts of the table. *)
Theorem stability_table_reports_the_solver_ratio (th : Q -> Q) :
  (forall Nt_val : nat,
     (1 <= Nt_val)%nat ->
     exists alpha dt alpha' : Q,
       heat_ratio (AF := ArithQ th) fr_Nx Nt_val (fr_L (AF := ArithQ th))
         (fr_T (AF := ArithQ th)) (fr_D (AF := ArithQ th))
       = Some (alpha, dt) /\
       stability_line (AF := ArithQ th) Nt_val
       = Some (alpha', flt (Arith := ArithQ th) alpha'
                         (lit (Arith := ArithQ th) 0.5)) /\
       (alpha' == alpha)%Q) /\
  (forall fth pw : float -> float, faithful pw ->
     Forall (fun Nt_val =>
               exists (alpha dt : float) (ok : bool),
                 heat_ratio (AF := ArithF fth pw) fr_Nx Nt_val
                   (fr_L (AF := ArithF fth pw)) (fr_T (AF := ArithF fth pw))
                   (fr_D (AF := ArithF fth pw)) = Some (alpha, dt) /\
                 stability_line (AF := ArithF fth pw) Nt_val
                 = Some (alpha, ok))
       fr_Nt_list).
Proof.
  split.
  - intros Nt_val HNt.
    destruct (stability_line_exact th Nt_val HNt) as (alpha' & Hl & Ea & _).
    eexists _, _, alpha'. split; [|split; [exact Hl|]].
    + apply (heat_ratio_exact th); [exact HNt | unfold fr_Nx; lia |].
      vm_compute. discriminate.
    + rewrite Ea. unfold ratio, sqr, fr_D, fr_T, fr_L, fr_Nx.
      cbn [fdiv fmul fsqr lit ArithQ].
      change (inject_Z (Z.of_nat 100 - 1)) with 99%Q.
      field. apply inject_Z_nonzero. lia.
  - intros fth pw Hpw. square_at Hpw (1 / 99)%float Hdx.
    destruct Hdx as [E|E]; repeat constructor; eexists _, _, _;
      (split; [unfold heat_ratio; run_chain E | run_line E]).
Qed.

Lemma stability_table_reports_the_solver_ratio_witness :
  exists alpha dt alpha' : Q,
    heat_ratio (AF := rational) fr_Nx 1500 (fr_L (AF := rational))
      (fr_T (AF := rational)) (fr_D (AF := rational)) = Some (alpha, dt) /\
    stability_line (AF := rational) 1500
    = Some (alpha', flt (Arith := rational) alpha'
                      (lit (Arith := rational) 0.5)) /\
    (alpha' == alpha)%Q.
Proof.
  apply (proj1 (stability_table_reports_the_solver_ratio (fun x => x))). lia.
Defined.

(** ** The grid of heat_equation.py *)

(** X10.  In exact arithmetic, for [Nx >= 2], [Nt >= 1] and [L <> 0],
    [solve_heat_equation_euler] returns a grid [x] with the spacing
    [L / (Nx - 1)] between neighbours, while the update rule is run with
    [dx = L / Nx]: the ratio [r] of the update (the stability factor that
    [check_stability] reports) is the ratio for the spacing of the returned
    grid times [(Nx / (Nx - 1))**2]. *)
Theorem returned_grid_is_wider_than_dx (th : Q -> Q) (L T D : Q)
    (Nt Nx : nat) :
  (2 <= Nx)%nat -> (1 <= Nt)%nat -> ~ (L == 0)%Q ->
  exists (x t : list Q) (U : list (list Q)) (ok : bool) (r : Q),
    solve_heat_equation_euler (AF := ArithQ th) L T D Nt Nx = Some (x, t, U) /\
    check_stability (AF := ArithQ th) D T Nt Nx L = Some (ok, r) /\
    (forall i, (i + 1 < Nx)%nat ->
       exists a b, x !! i = Some a /\ x !! (i + 1)%nat = Some b /\
         (b - a == L / inject_Z (Z.of_nat Nx - 1))%Q) /\
    (r * inject_Z (Z.of_nat Nx - 1) ^ 2
     == ratio (AF := ArithQ th) D (T / inject_Z (Z.of_nat Nt))
          (L / inject_Z (Z.of_nat Nx - 1)) * inject_Z (Z.of_nat Nx) ^ 2)%Q.
Proof.
  intros HNx HNt HL.
  pose proof (check_stability_exact th D T L Nt Nx HNt ltac:(lia) HL)
    as Hcheck.
  cbv zeta in Hcheck.
  destruct (solve_heat_equation_euler_spec (AF := ArithQ th) L T D Nt Nx _ _
              Hcheck) as (U & Hcall & _); [lia|].
  eexists _, _, U, _, _. split; [exact Hcall|]. split; [exact Hcheck|].
  split.
  - intros i Hi.
    destruct (time_grid_exact th L (Nx - 1)) as (_ & _ & Hall); [lia|].
    replace (S (Nx - 1)) with Nx in Hall by lia.
    destruct (Hall i) as (a & Ha & Ea); [lia|].
    destruct (Hall (i + 1)%nat) as (b & Hb & Eb); [lia|].
    exists a, b. split; [exact Ha|]. split; [exact Hb|].
    rewrite Ea, Eb. replace (Z.of_nat (Nx - 1)) with (Z.of_nat Nx - 1) by lia.
    rewrite Nat2Z.inj_add, inject_Z_plus. change (inject_Z (Z.of_nat 1)) with 1%Q.
    ring.
  - unfold ratio, sqr. cbn [fdiv fmul fsqr ArithQ].
    field. repeat split; try exact HL; apply inject_Z_nonzero; lia.
Qed.

Lemma returned_grid_is_wider_than_dx_witness :
  exists (x t : list Q) (U : list (list Q)) (ok : bool) (r : Q),
    solve_heat_equation_euler (AF := rational) 1%Q 1%Q (1 # 20)%Q 2 3
    = Some (x, t, U) /\
    check_stability (AF := rational) (1 # 20)%Q 1%Q 2 3 1%Q = Some (ok, r) /\
    (forall i, (i + 1 < 3)%nat ->
       exists a b, x !! i = Some a /\ x !! (i + 1)%nat = Some b /\
         (b - a == 1 / inject_Z (Z.of_nat 3 - 1))%Q) /\
    (r * inject_Z (Z.of_nat 3 - 1) ^ 2
     == ratio (AF := rational) (1 # 20) (1 / inject_Z (Z.of_nat 2))
          (1 / inject_Z (Z.of_nat 3 - 1)) * inject_Z (Z.of_nat 3) ^ 2)%Q.
Proof.
  apply (returned_grid_is_wider_than_dx (fun x => x) 1%Q 1%Q (1 # 20)%Q 2 3);
    try lia.
  vm_compute. discriminate.
Defined.

(** ** More steps *)

(** X11.  In exact arithmetic, taking more time steps never turns a stable
    verdict into an unstable one.  For [D >= 0] and [T >= 0]: if
    [check_stability] reports "stable" for [Nt] steps, it reports "stable"
    for every [Nt' >= Nt], with a ratio that is no larger.  And if a line of
    the table of heat_eq_fr.py reads [(Stable)] for [Nt] steps, so does the
    line for every [Nt' >= Nt]. *)
Theorem more_steps_stay_stable (th : Q -> Q) (Nt Nt' : nat) :
  (Nt <= Nt')%nat ->
  (forall (D T L r : Q) (Nx : nat),
     (0 <= D)%Q -> (0 <= T)%Q ->
     check_stability (AF := ArithQ th) D T Nt Nx L = Some (true, r) ->
     exists r' : Q,
       check_stability (AF := ArithQ th) D T Nt' Nx L = Some (true, r') /\
       (r' <= r)%Q) /\
  (forall alpha : Q,
     stability_line (AF := ArithQ th) Nt = Some (alpha, true) ->
     exists alpha' : Q,
       stability_line (AF := ArithQ th) Nt' = Some (alpha', true) /\
       (alpha' <= alpha)%Q).
Proof.
  intros HNt. split.
  - intros D T L r Nx HD HT Hc.
    destruct (check_stability_valid th _ _ _ _ _ _ _ Hc) as (H1 & HNx & HL).
    rewrite (check_stability_exact th D T L Nt Nx) in Hc by assumption.
    injection Hc as Hok <-.
    rewrite (check_stability_exact th D T L Nt' Nx) by (lia || assumption).
    pose proof (ratio_antitone th D T (L / inject_Z (Z.of_nat Nx))
                  (Z.of_nat Nt) (Z.of_nat Nt') HD HT ltac:(lia)) as Hle.
    eexists. split; [|exact Hle]. f_equal. f_equal.
    apply (fle_exact th). apply (fle_exact th) in Hok.
    exact (Qle_trans _ _ _ Hle Hok).
  - intros alpha Hl.
    destruct (stability_line_Some (AF := ArithQ th) Nt alpha true Hl)
      as (Hok & dx & Hdx & Ea).
    assert (H1 : (1 <= Nt)%nat).
    { destruct Nt; [|lia]. exfalso. revert Hl. unfold stability_line.
      rewrite Hdx. discriminate. }
    unfold stability_line. rewrite Hdx. cbn [mbind option_bind].
    cbn [of_int ArithQ].
    rewrite (pydiv_exact th) by (apply inject_Z_nonzero; lia).
    cbn [mbind option_bind].
    pose proof (ratio_antitone th (fr_D (AF := ArithQ th))
                  (fr_T (AF := ArithQ th)) dx (Z.of_nat Nt) (Z.of_nat Nt')
                  ltac:(discriminate) ltac:(discriminate) ltac:(lia)) as Hle.
    subst alpha.
    eexists. split; [|exact Hle]. f_equal. f_equal.
    apply (flt_exact th). symmetry in Hok. apply (flt_exact th) in Hok.
    exact (Qle_lt_trans _ _ _ Hle Hok).
Qed.

Lemma more_steps_stay_stable_witness :
  (exists r' : Q,
     check_stability (AF := rational) (1 # 20)%Q 1%Q 2000 100 1%Q
     = Some (true, r') /\
     (r' <= ratio (AF := rational) (1 # 20) (1 / inject_Z 1000)
               (1 / inject_Z 100))%Q) /\
  (exists alpha' : Q,
     stability_line (AF := rational) 2000 = Some (alpha', true)).
Proof.
  pose proof (more_steps_stay_stable (fun x => x) 1000 2000 ltac:(lia))
    as [Hcheck Hline].
  split.
  - apply (Hcheck (1 # 20)%Q 1%Q 1%Q _ 100%nat); try discriminate.
    reflexivity.
  - destruct (Hline _ eq_refl) as (alpha' & Hl & _). exists alpha'. exact Hl.
Defined.

(** ** The recommended number of steps is the least one *)

(** X12.  In exact arithmetic, for positive [L], [T] and [D]: the step count
    [Nt_required] that [analyze_stability] works out for an unstable
    configuration is larger than the [Nt] it was given, and every positive
    step count below [Nt_required] is reported unstable as well, with the
    same recommendation. *)
Theorem recommended_steps_are_least (th : Q -> Q) (L T D r : Q)
    (Nt Nx : nat) (ok : bool) (Nt_required : Z) :
  (0 < L)%Q -> (0 < T)%Q -> (0 < D)%Q -> (1 <= Nt)%nat -> (1 <= Nx)%nat ->
  analyze_stability (AF := ArithQ th) L T D Nt Nx
  = Some (ok, r, Some Nt_required) ->
  Z.of_nat Nt < Nt_required /\
  forall Nt', (1 <= Nt')%nat -> Z.of_nat Nt' < Nt_required ->
    exists r' : Q,
      analyze_stability (AF := ArithQ th) L T D Nt' Nx
      = Some (false, r', Some Nt_required) /\ (1 # 2 < r')%Q.
Proof.
  intros HL HT HD HNt HNx Hcall.
  assert (HL0 : ~ (L == 0)%Q) by (intros E; rewrite E in HL; Lqa.lra).
  set (K := (inject_Z 2 * D * T * inject_Z (Z.of_nat Nx ^ 2) / (L * L))%Q).
  set (half := lit (Arith := ArithQ th) 0.5).
  assert (Hhalf : (half == 1 # 2)%Q) by reflexivity.
  assert (Hunstable : forall n : nat, (1 <= n)%nat ->
            ((1 # 2 < ratio (AF := ArithQ th) D (T / inject_Z (Z.of_nat n))
                        (L / inject_Z (Z.of_nat Nx)))%Q
             <-> (inject_Z (Z.of_nat n) < K)%Q)).
  { intros n Hn.
    rewrite (ratio_as_quotient th D T L (Z.of_nat n) (Z.of_nat Nx))
      by (exact HL0 || lia).
    fold K.
    assert (Hpos : (0 < inject_Z (Z.of_nat n))%Q) by (unfold Qlt; simpl; lia).
    split; intros H.
    - apply Qnot_le_lt. intros Hle. apply (Qlt_not_le _ _ H).
      apply Qle_shift_div_r; Lqa.lra.
    - apply Qlt_shift_div_l; Lqa.lra. }
  assert (Hcalls : forall n : nat, (1 <= n)%nat ->
            (inject_Z (Z.of_nat n) < K)%Q ->
            analyze_stability (AF := ArithQ th) L T D n Nx
            = Some (false,
                    ratio (AF := ArithQ th) D (T / inject_Z (Z.of_nat n))%Q
                      (L / inject_Z (Z.of_nat Nx))%Q,
                    Some (Qceiling K))).
  { intros n Hn HK.
    pose proof (analyze_stability_exact th L T D n Nx Hn HNx HL0) as Hc.
    cbv zeta in Hc. fold K in Hc. fold half in Hc. rewrite Hc.
    apply (Hunstable n Hn) in HK.
    assert (Hflt : flt (Arith := ArithQ th) half
                     (ratio (AF := ArithQ th) D (T / inject_Z (Z.of_nat n))%Q
                        (L / inject_Z (Z.of_nat Nx))%Q) = true)
      by (apply (flt_exact th); rewrite Hhalf; exact HK).
    rewrite Hflt. f_equal. f_equal. f_equal.
    destruct (fle (Arith := ArithQ th) _ half) eqn:E; [|reflexivity].
    apply (fle_exact th) in E. rewrite Hhalf in E. Lqa.lra. }
  pose proof (analyze_stability_exact th L T D Nt Nx HNt HNx HL0) as Hc.
  cbv zeta in Hc. fold K in Hc. fold half in Hc. rewrite Hc in Hcall.
  destruct (flt (Arith := ArithQ th) half _) eqn:Hflt; [|discriminate].
  injection Hcall as _ _ <-.
  apply (flt_exact th) in Hflt. rewrite Hhalf in Hflt.
  apply (Hunstable Nt HNt) in Hflt.
  pose proof (Qle_ceiling K) as Hceil.
  pose proof (Qceiling_lt K) as Hbelow.
  split.
  - assert (H : (inject_Z (Z.of_nat Nt) < inject_Z (Qceiling K))%Q) by Lqa.lra.
    unfold Qlt in H. simpl in H. lia.
  - intros Nt' H1 Hlt.
    assert (HK : (inject_Z (Z.of_nat Nt') < K)%Q).
    { apply Qle_lt_trans with (inject_Z (Qceiling K - 1)); [|exact Hbelow].
      unfold Qle. simpl. lia. }
    eexists. split; [apply Hcalls; assumption|].
    apply (Hunstable Nt' H1). exact HK.
Qed.

Lemma recommended_steps_are_least_witness :
  Z.of_nat 50 < 1000 /\
  forall Nt', (1 <= Nt')%nat -> Z.of_nat Nt' < 1000 ->
    exists r' : Q,
      analyze_stability (AF := rational) 1%Q 1%Q (1 # 20)%Q Nt' 100
      = Some (false, r', Some 1000) /\ (1 # 2 < r')%Q.
Proof.
  apply (recommended_steps_are_least (fun x => x) 1%Q 1%Q (1 # 20)%Q
           (ratio (AF := rational) (1 # 20) (1 / inject_Z 50)%Q
              (1 / inject_Z 100)%Q) 50 100 false 1000);
    try lia; reflexivity.
Defined.

(** ** The steady state *)

Section Steady.
Variable th : Q -> Q.
#[local] Hint Extern 0 (Arith Q) => exact (ArithQ th) : typeclass_instances.

Lemma heat_step_on_line (r Ul Ur : Q) (U U' : list Q) :
  (2 <= length U)%nat ->
  heat_step r Ul Ur U = Some U' ->
  on_line Ul Ur (length U) U -> on_line Ul Ur (length U) U'.
Proof.
  intros HNx Hstep [_ Hline].
  destruct (heat_step_spec r Ul Ur U) as (W & HW & Hlen & Hentries); [lia|].
  rewrite Hstep in HW. injection HW as <-.
  split; [exact Hlen|]. intros i v Hv.
  pose proof (lookup_lt_Some _ _ _ Hv) as Hi.
  rewrite Hentries in Hv by lia. unfold next_entry in Hv.
  set (s := ((Ur - Ul) / inject_Z (Z.of_nat (length U) - 1))%Q) in *.
  destruct (decide (i = length U - 1)%nat) as [->|Hlast].
  { injection Hv as <-. unfold s.
    replace (Z.of_nat (length U - 1)) with (Z.of_nat (length U) - 1) by lia.
    field. apply inject_Z_nonzero. lia. }
  destruct (decide (i = 0)%nat) as [->|Hfirst].
  { injection Hv as <-. change (inject_Z (Z.of_nat 0)) with 0%Q. ring. }
  destruct (U !! (i - 1)%nat) as [a|] eqn:Ha; [|discriminate].
  destruct (U !! i) as [b|] eqn:Hb; [|discriminate].
  destruct (U !! (i + 1)%nat) as [c|] eqn:Hc; [|discriminate].
  cbn [mbind option_bind] in Hv. injection Hv as <-.
  apply Hline in Ha, Hb, Hc.
  unfold stencil. cbn [fadd fsub fmul of_int ArithQ].
  rewrite Ha, Hb, Hc.
  replace (Z.of_nat (i - 1)) with (Z.of_nat i - 1) by lia.
  replace (Z.of_nat (i + 1)) with (Z.of_nat i + 1) by lia.
  unfold Zminus. rewrite !inject_Z_plus.
  change (inject_Z (- (1))) with (- (1))%Q. change (inject_Z 1) with 1%Q.
  change (inject_Z 2) with 2%Q. ring.
Qed.

End Steady.

Lemma stepper_run_on_line (th : Q -> Q)
    (Nx Nt : nat) (D dt dx : Q) (init : list Q) (U_left U_right : Q)
    (field : list (list Q)) :
  stepper_run (AF := ArithQ th) Nx Nt D dt dx init U_left U_right field ->
  (2 <= Nx)%nat ->
  on_line U_left U_right Nx init ->
  forall n row, field !! n = Some row -> on_line U_left U_right Nx row.
Proof.
  intros Hrun HNx Hinit.
  destruct (stepper_run_rows (AF := ArithQ th) Nx Nt D dt dx init U_left
              U_right field Hrun) as (Hrows & Hcols & H0 & Hsteps); [lia|].
  induction n as [|n IH]; intros row Hrow.
  - rewrite H0 in Hrow. injection Hrow as <-. exact Hinit.
  - pose proof (lookup_lt_Some _ _ _ Hrow) as Hn.
    destruct (Hsteps n) as (cur & next & Hcur & Hnext & Hstep); [lia|].
    rewrite Hrow in Hnext. injection Hnext as <-.
    pose proof (IH cur Hcur) as Hline.
    assert (Hlen : length cur = Nx) by exact (proj1 Hline).
    rewrite <- Hlen in *.
    exact (heat_step_on_line th _ _ _ _ _ HNx Hstep Hline).
Qed.

(** X13.  In exact arithmetic the straight line between the two boundary values
    is a steady state of [explicit_heat], for every ratio, stable or not:
    if the initial profile lies on the line from [U1] at the first point to
    [U2] at the last, the call returns whenever its ratio can be computed,
    and every one of the [Nt + 1] rows of the field lies on that line. *)
Theorem steady_state_is_kept (th : Q -> Q) (U_init : list Q) (Nx Nt : nat)
    (L T D U1 U2 alpha dt : Q) :
  (2 <= Nx)%nat ->
  heat_ratio (AF := ArithQ th) Nx Nt L T D = Some (alpha, dt) ->
  on_line U1 U2 Nx U_init ->
  exists field,
    explicit_heat (AF := ArithQ th) U_init Nx Nt L T D U1 U2
    = Some (field, alpha, dt) /\
    length field = S Nt /\
    Forall (on_line U1 U2 Nx) field.
Proof.
  intros HNx Hratio Hinit.
  pose proof (proj1 Hinit) as Hlen.
  destruct (explicit_heat_spec (AF := ArithQ th) U_init Nx Nt L T D U1 U2
              alpha dt Hratio Hlen) as (field & Hcall & Hrows & _); [lia|].
  exists field. split; [exact Hcall|]. split; [exact Hrows|].
  destruct (explicit_heat_is_run (AF := ArithQ th) U_init Nx Nt L T D U1 U2
              alpha dt field Hlen Hcall) as [_ Hrun].
  apply Forall_lookup_2. intros n row Hrow.
  exact (stepper_run_on_line th _ _ _ _ _ _ _ _ _ Hrun HNx Hinit n row Hrow).
Qed.

Lemma steady_state_is_kept_witness :
  exists alpha dt field,
    explicit_heat (AF := rational) [20; 10; 0]%Q 3 2 2%Q 1%Q 4%Q 20%Q 0%Q
    = Some (field, alpha, dt) /\
    length field = 3%nat /\
    Forall (on_line 20 0 3) field.
Proof.
  eexists _, _.
  apply (steady_state_is_kept (fun x => x) [20; 10; 0]%Q 3 2 2%Q 1%Q 4%Q 20%Q
           0%Q); [lia | vm_compute; reflexivity |].
  split; [reflexivity|]. intros [|[|[|i]]] v Hv; try discriminate;
    injection Hv as <-; reflexivity.
Defined.

(** ** The plotting code *)

Section Plot.
Variable th : Q -> Q.
#[local] Hint Extern 0 (Arith Q) => exact (ArithQ th) : typeclass_instances.
#[local] Existing Instance PlotQ.

(** The loop of [argmin], entered after the entries [pre] with their first
    smallest entry [mp] at index [best], ends on the first smallest entry
    of the whole array. *)
Lemma argmin_from_exact (a : list Q) :
  forall (pre : list Q) (mp : Q) (best : nat),
    pre !! best = Some mp ->
    (forall k v, pre !! k = Some v -> (mp <= v)%Q) ->
    (forall k v, (k < best)%nat -> pre !! k = Some v -> (mp < v)%Q) ->
    exists m,
      (pre ++ a) !! argmin_from mp best (length pre) a = Some m /\
      (forall k v, (pre ++ a) !! k = Some v -> (m <= v)%Q) /\
      (forall k v, (k < argmin_from mp best (length pre) a)%nat ->
         (pre ++ a) !! k = Some v -> (m < v)%Q).
Proof.
  induction a as [|v a IH]; intros pre mp best Hbest Hmin Hfirst.
  - rewrite app_nil_r. exists mp. cbn [argmin_from]. auto.
  - cbn [argmin_from].
    assert (Hpre : length (pre ++ [v]) = S (length pre))
      by (rewrite length_app; simpl; lia).
    replace (pre ++ v :: a) with ((pre ++ [v]) ++ a)
      by (rewrite <- app_assoc; reflexivity).
    rewrite <- Hpre.
    destruct (fle mp v) eqn:Hle.
    + apply (fle_exact th) in Hle.
      apply IH.
      * apply lookup_app_l_Some. exact Hbest.
      * intros k w Hk. apply lookup_app_Some in Hk as [Hk|[_ Hk]].
        -- exact (Hmin k w Hk).
        -- apply list_lookup_singleton_Some in Hk as [_ <-]. exact Hle.
      * intros k w Hlt Hk. apply lookup_app_Some in Hk as [Hk|[Hge _]].
        -- exact (Hfirst k w Hlt Hk).
        -- apply lookup_lt_Some in Hbest. lia.
    + assert (Hlt : (v < mp)%Q).
      { apply Qnot_le_lt. intros H. apply (fle_exact th) in H. congruence. }
      assert (Hvv : fle v v = true) by (apply (fle_exact th); Lqa.lra).
      rewrite Hvv. rewrite Hpre.
      replace (S (length pre)) with (length (pre ++ [v])) by exact Hpre.
      apply IH.
      * rewrite lookup_app_r by lia. rewrite Nat.sub_diag. reflexivity.
      * intros k w Hk. apply lookup_app_Some in Hk as [Hk|[_ Hk]].
        -- pose proof (Hmin k w Hk). Lqa.lra.
        -- apply list_lookup_singleton_Some in Hk as [_ <-]. Lqa.lra.
      * intros k w Hk1 Hk. apply lookup_app_Some in Hk as [Hk|[Hge _]].
        -- pose proof (Hmin k w Hk). Lqa.lra.
        -- lia.
Qed.

(** [np.argmin] on exact numbers: the first smallest entry. *)
Lemma argmin_exact (a : list Q) :
  a <> [] ->
  exists idx m,
    argmin a = Some idx /\ a !! idx = Some m /\
    (forall k v, a !! k = Some v -> (m <= v)%Q) /\
    (forall k v, (k < idx)%nat -> a !! k = Some v -> (m < v)%Q).
Proof.
  destruct a as [|v a]; [congruence|]. intros _.
  unfold argmin.
  assert (Hvv : fle v v = true) by (apply (fle_exact th); Lqa.lra).
  rewrite Hvv.
  destruct (argmin_from_exact a [v] v 0) as (m & Hm & Hmin & Hfirst).
  - reflexivity.
  - intros k w Hk. apply list_lookup_singleton_Some in Hk as [_ <-]. Lqa.lra.
  - intros k w Hk. lia.
  - exists (argmin_from v 0 1 a), m. split; [reflexivity|].
    split; [exact Hm|]. split; [exact Hmin | exact Hfirst].
Qed.

(** The index that [plot_temperature_profiles] looks up for a requested
    time: that of the nearest entry of [t], the first one if several are
    equally near. *)
Lemma closest_index_exact (t : list Q) (time_value : Q) :
  t <> [] ->
  exists idx ti,
    closest_index t time_value = Some idx /\ t !! idx = Some ti /\
    (forall k tk, t !! k = Some tk ->
       (Qabs (ti - time_value) <= Qabs (tk - time_value))%Q) /\
    (forall k tk, (k < idx)%nat -> t !! k = Some tk ->
       (Qabs (ti - time_value) < Qabs (tk - time_value))%Q).
Proof.
  intros Ht. unfold closest_index.
  destruct (argmin_exact (fmap (fun ti => fabs (ti - time_value)%A) t))
    as (idx & m & Hidx & Hm & Hmin & Hfirst).
  { destruct t; [congruence | discriminate]. }
  rewrite list_lookup_fmap in Hm.
  destruct (t !! idx) as [ti|] eqn:Hti; [|discriminate].
  assert (m = Qabs (ti - time_value)) as ->
    by (symmetry; exact (f_equal (default m) Hm)).
  exists idx, ti. split; [exact Hidx|]. split; [exact Hti|]. split.
  - intros k tk Hk. apply (Hmin k).
    rewrite list_lookup_fmap, Hk. reflexivity.
  - intros k tk Hlt Hk. apply (Hfirst k); [exact Hlt|].
    rewrite list_lookup_fmap, Hk. reflexivity.
Qed.

(** Every time between [0] and [T] has an entry of the time grid within
    half a step. *)
Lemma time_grid_near (T v : Q) (Nt : nat) :
  (1 <= Nt)%nat -> (0 < T)%Q -> (0 <= v <= T)%Q ->
  exists j tj,
    linspace (of_int 0) T (S Nt) !! j = Some tj /\
    (Qabs (tj - v) <= T / inject_Z (Z.of_nat Nt) / 2)%Q.
Proof.
  intros HNt HT [Hv0 HvT].
  assert (Hn : (0 < inject_Z (Z.of_nat Nt))%Q) by (unfold Qlt; simpl; lia).
  set (dt := (T / inject_Z (Z.of_nat Nt))%Q).
  assert (Hdt : (0 < dt)%Q) by (apply Qlt_shift_div_l; Lqa.lra).
  set (w := (v / dt)%Q).
  assert (Hw : (v == w * dt)%Q) by (unfold w; field; Lqa.lra).
  assert (HT' : (T == inject_Z (Z.of_nat Nt) * dt)%Q)
    by (unfold dt; field; Lqa.lra).
  assert (Hw0 : (0 <= w)%Q) by (apply Qle_shift_div_l; Lqa.lra).
  assert (HwN : (w <= inject_Z (Z.of_nat Nt))%Q)
    by (apply Qle_shift_div_r; Lqa.lra).
  set (j := Qfloor (w + (1 # 2))).
  pose proof (Qfloor_le (w + (1 # 2))) as Hlo.
  pose proof (Qlt_floor (w + (1 # 2))) as Hhi.
  fold j in Hlo, Hhi. rewrite inject_Z_plus in Hhi.
  change (inject_Z 1) with 1%Q in Hhi.
  assert (Hj0 : 0 <= j).
  { assert (H : (inject_Z (-1) < inject_Z j)%Q)
      by (change (inject_Z (-1)) with (- (1))%Q; Lqa.lra).
    unfold Qlt in H. simpl in H. lia. }
  assert (HjN : j <= Z.of_nat Nt).
  { assert (H : (inject_Z j < inject_Z (Z.of_nat Nt + 1))%Q)
      by (rewrite inject_Z_plus; change (inject_Z 1) with 1%Q; Lqa.lra).
    unfold Qlt in H. simpl in H. lia. }
  destruct (time_grid_exact th T Nt HNt) as (_ & _ & Hall).
  destruct (Hall (Z.to_nat j)) as (tj & Htj & Etj); [lia|].
  rewrite Z2Nat.id in Etj by exact Hj0. fold dt in Etj.
  exists (Z.to_nat j), tj. split; [exact Htj|].
  assert (H1 : (0 <= (w + (1 # 2) - inject_Z j) * dt)%Q)
    by (apply Qmult_le_0_compat; Lqa.lra).
  assert (H2 : (0 <= (inject_Z j + 1 - (w + (1 # 2))) * dt)%Q)
    by (apply Qmult_le_0_compat; Lqa.lra).
  apply Qabs_Qle_condition. rewrite Etj, Hw.
  clear Hall Htj. clearbody j w dt.
  unfold Qdiv. change (/ 2)%Q with (1 # 2)%Q. split; Lqa.lra.
Qed.

End Plot.

(** X14.  In exact arithmetic, the index
    [np.argmin(np.abs(t - time_value))] that [plot_temperature_profiles]
    computes for a requested time is that of an entry of [t] nearest to it,
    and of the first such entry if several are equally near.  On an empty
    [t] the computation raises. *)
Theorem closest_index_is_nearest (th : Q -> Q) (t : list Q) (time_value : Q) :
  closest_index (AF := ArithQ th) (AP := PlotQ) [] time_value = None /\
  (t <> [] ->
   exists idx ti,
     closest_index (AF := ArithQ th) (AP := PlotQ) t time_value = Some idx /\
     t !! idx = Some ti /\
     (forall k tk, t !! k = Some tk ->
        (Qabs (ti - time_value) <= Qabs (tk - time_value))%Q) /\
     (forall k tk, (k < idx)%nat -> t !! k = Some tk ->
        (Qabs (ti - time_value) < Qabs (tk - time_value))%Q)).
Proof.
  split; [reflexivity|]. apply closest_index_exact.
Qed.

Lemma closest_index_is_nearest_witness :
  exists idx ti,
    closest_index (AF := rational) (AP := PlotQ) [0; 1 # 2; 1]%Q (1 # 4)%Q
    = Some idx /\
    [0; 1 # 2; 1]%Q !! idx = Some ti /\
    (forall k tk, [0; 1 # 2; 1]%Q !! k = Some tk ->
       (Qabs (ti - (1 # 4)) <= Qabs (tk - (1 # 4)))%Q) /\
    (forall k tk, (k < idx)%nat -> [0; 1 # 2; 1]%Q !! k = Some tk ->
       (Qabs (ti - (1 # 4)) < Qabs (tk - (1 # 4)))%Q).
Proof.
  apply (proj2 (closest_index_is_nearest (fun x => x) [0; 1 # 2; 1]%Q
                  (1 # 4)%Q)).
  discriminate.
Defined.

Section PlotSolver.
Variable th : Q -> Q.
#[local] Hint Extern 0 (Arith Q) => exact (ArithQ th) : typeclass_instances.
#[local] Existing Instance PlotQ.

(** One curve of [plot_temperature_profiles] on the time grid of the
    solver. *)
Lemma plot_curve_exact (T v : Q) (Nt : nat) (U : list (list Q)) :
  (1 <= Nt)%nat -> (0 < T)%Q -> (0 <= v <= T)%Q -> length U = S Nt ->
  exists idx row ti,
    closest_index (linspace (of_int 0) T (S Nt)) v = Some idx /\
    U !! idx = Some row /\
    linspace (of_int 0) T (S Nt) !! idx = Some ti /\
    (forall k tk, linspace (of_int 0) T (S Nt) !! k = Some tk ->
       (Qabs (ti - v) <= Qabs (tk - v))%Q) /\
    (Qabs (ti - v) <= T / inject_Z (Z.of_nat Nt) / 2)%Q.
Proof.
  intros HNt HT Hv HU.
  set (t := linspace (of_int 0) T (S Nt)).
  assert (Hlen : length t = S Nt) by apply linspace_length.
  destruct (closest_index_exact th t v) as (idx & ti & Hidx & Hti & Hmin & _).
  { intros E. rewrite E in Hlen. discriminate. }
  destruct (lookup_lt_is_Some_2 U idx) as [row Hrow].
  { apply lookup_lt_Some in Hti. lia. }
  exists idx, row, ti. repeat split; try assumption.
  destruct (time_grid_near th T v Nt HNt HT Hv) as (j & tj & Htj & Hnear).
  exact (Qle_trans _ _ _ (Hmin j tj Htj) Hnear).
Qed.

Lemma plot_temperature_profiles_exact (T : Q) (Nt : nat) (x : list Q)
    (U : list (list Q)) (times : list Q) :
  (1 <= Nt)%nat -> (0 < T)%Q -> length U = S Nt ->
  Forall (fun v => 0 <= v <= T)%Q times ->
  exists curves,
    plot_temperature_profiles x (linspace (of_int 0) T (S Nt)) U times
    = Some curves /\
    Forall2 (fun v curve =>
               exists idx row ti,
                 curve = (x, row, ti) /\ U !! idx = Some row /\
                 linspace (of_int 0) T (S Nt) !! idx = Some ti /\
                 (forall k tk, linspace (of_int 0) T (S Nt) !! k = Some tk ->
                    (Qabs (ti - v) <= Qabs (tk - v))%Q) /\
                 (Qabs (ti - v) <= T / inject_Z (Z.of_nat Nt) / 2)%Q)
      times curves.
Proof.
  intros HNt HT HU Htimes. unfold plot_temperature_profiles.
  induction Htimes as [|v times Hv _ IH].
  - exists []. split; [reflexivity | constructor].
  - destruct IH as (curves & Hcurves & Hall).
    destruct (plot_curve_exact T v Nt U HNt HT Hv HU)
      as (idx & row & ti & Hidx & Hrow & Hti & Hmin & Hnear).
    exists ((x, row, ti) :: curves). split.
    + cbn [mapM]. rewrite Hidx. cbn [mbind option_bind].
      rewrite Hrow, Hti. cbn [mbind option_bind].
      unfold plot_temperature_profiles in Hcurves. rewrite Hcurves.
      reflexivity.
    + constructor; [|exact Hall].
      exists idx, row, ti. repeat split; assumption.
Qed.

End PlotSolver.

(** X15.  In exact arithmetic, for [Nt >= 1], [Nx >= 1], [L <> 0] and [T > 0],
    [solve_heat_equation_euler] followed by [plot_temperature_profiles] on
    what it returns, for requested times between [0] and [T], does not
    raise.  One curve is plotted per requested time, each a row of [U] over
    the grid [x], labelled with the time of that row; and that time is a
    nearest one on the grid [t], at most half a time step [T / Nt] away
    from the requested time. *)
Theorem plotted_rows_are_within_half_a_step (th : Q -> Q) (L T D : Q)
    (Nt Nx : nat) (times : list Q) :
  (1 <= Nt)%nat -> (1 <= Nx)%nat -> ~ (L == 0)%Q -> (0 < T)%Q ->
  Forall (fun v => 0 <= v <= T)%Q times ->
  exists (x t : list Q) (U : list (list Q)) curves,
    solve_heat_equation_euler (AF := ArithQ th) L T D Nt Nx = Some (x, t, U) /\
    plot_temperature_profiles (AF := ArithQ th) (AP := PlotQ) x t U times
    = Some curves /\
    Forall2 (fun v curve =>
               exists idx row ti,
                 curve = (x, row, ti) /\ U !! idx = Some row /\
                 t !! idx = Some ti /\
                 (forall k tk, t !! k = Some tk ->
                    (Qabs (ti - v) <= Qabs (tk - v))%Q) /\
                 (Qabs (ti - v) <= T / inject_Z (Z.of_nat Nt) / 2)%Q)
      times curves.
Proof.
  intros HNt HNx HL HT Htimes.
  pose proof (check_stability_exact th D T L Nt Nx HNt HNx HL) as Hc.
  cbv zeta in Hc.
  destruct (solve_heat_equation_euler_spec (AF := ArithQ th) L T D Nt Nx _ _
              Hc) as (U & Hcall & HlenU & _); [lia|].
  destruct (plot_temperature_profiles_exact th T Nt
              (linspace (of_int (Arith := ArithQ th) 0) L Nx) U times
              HNt HT HlenU Htimes) as (curves & Hplot & Hall).
  eexists _, _, U, curves.
  split; [exact Hcall|]. split; [exact Hplot | exact Hall].
Qed.

Lemma plotted_rows_are_within_half_a_step_witness :
  exists (x t : list Q) (U : list (list Q)) curves,
    solve_heat_equation_euler (AF := rational) 1%Q 1%Q (1 # 20)%Q 2 3
    = Some (x, t, U) /\
    plot_temperature_profiles (AF := rational) (AP := PlotQ) x t U
      [0; 1 # 5; 1]%Q = Some curves /\
    Forall2 (fun v curve =>
               exists idx row ti,
                 curve = (x, row, ti) /\ U !! idx = Some row /\
                 t !! idx = Some ti /\
                 (forall k tk, t !! k = Some tk ->
                    (Qabs (ti - v) <= Qabs (tk - v))%Q) /\
                 (Qabs (ti - v) <= 1 / inject_Z (Z.of_nat 2) / 2)%Q)
      [0; 1 # 5; 1]%Q curves.
Proof.
  apply (plotted_rows_are_within_half_a_step (fun x => x) 1%Q 1%Q (1 # 20)%Q
           2 3); [lia | lia | vm_compute; discriminate | reflexivity |].
  repeat constructor; discriminate.
Defined.

(** ** The step count of [main] *)

Section MainSteps.
Variable th : Q -> Q.
#[local] Hint Extern 0 (Arith Q) => exact (ArithQ th) : typeclass_instances.
#[local] Existing Instance PlotQ.

Lemma Qtrunc_nonneg (x : Q) : (0 <= x)%Q -> Qtrunc x = Qfloor x.
Proof.
  destruct x as [n d]. unfold Qle, Qtrunc, Qfloor. simpl. intros Hn.
  apply Z.quot_div_nonneg; lia.
Qed.

(** [T / dt_max] is twice the ratio of one step times [Nt]. *)
Lemma main_quotient (L T D : Q) (Nx : nat) (n : Z) :
  (0 < L)%Q -> (0 < D)%Q -> (1 <= Nx)%nat -> n <> 0 ->
  (ratio D (T / inject_Z n) (L / inject_Z (Z.of_nat Nx))
   == T / (0.5 * (L / inject_Z (Z.of_nat Nx)
                     * (L / inject_Z (Z.of_nat Nx))) / D)
      / (2 * inject_Z n))%Q.
Proof.
  intros HL HD HNx Hn. unfold ratio, sqr. cbn [fdiv fmul fsqr ArithQ].
  pose proof (inject_Z_nonzero n Hn).
  pose proof (inject_Z_nonzero (Z.of_nat Nx) ltac:(lia)).
  field. repeat split; try assumption; Lqa.lra.
Qed.

Lemma main_Nt_exact (L T D : Q) (Nx : nat) :
  (0 < L)%Q -> (0 < T)%Q -> (0 < D)%Q -> (1 <= Nx)%nat ->
  main_Nt L T D Nx
  = Some (Qfloor (T / (0.5 * (L / inject_Z (Z.of_nat Nx)
                                * (L / inject_Z (Z.of_nat Nx))) / D)) + 1).
Proof.
  intros HL HT HD HNx. unfold main_Nt. cbn [of_int ArithQ].
  assert (Hx : (0 < inject_Z (Z.of_nat Nx))%Q) by (unfold Qlt; simpl; lia).
  assert (Hdx : (0 < L / inject_Z (Z.of_nat Nx))%Q)
    by (apply Qlt_shift_div_l; Lqa.lra).
  set (dx := (L / inject_Z (Z.of_nat Nx))%Q) in *.
  assert (Hdx2 : (0 < dx * dx)%Q) by Lqa.nra.
  assert (Hdt : (0 < 0.5 * (dx * dx) / D)%Q)
    by (apply Qlt_shift_div_l; Lqa.lra).
  rewrite (pydiv_exact th) by Lqa.lra. fold dx.
  cbn [mbind option_bind fpow2 lit fmul ArithQ].
  rewrite (pydiv_exact th) by Lqa.lra. cbn [mbind option_bind].
  rewrite (pydiv_exact th) by (intros E; rewrite E in Hdt; Lqa.lra).
  cbn [mbind option_bind fint PlotQ].
  rewrite Qtrunc_nonneg; [reflexivity|].
  apply Qle_shift_div_l; Lqa.lra.
Qed.

End MainSteps.



(** ** [main] in binary64 *)

(** X17.  In binary64, whatever [np.tanh] returns and whatever faithful power
    function the C library has, [main] does not raise.  It takes
    [Nt = 1001] steps, which [check_stability] reports stable; the field has
    1002 rows; and for the requested times [0, 0.2, 0.4, 0.6, 0.8] and
    [1.0] it plots the rows 0, 200, 400, 601, 801 and 1001 of the field. *)
Theorem main_plots_six_rows (th pw : float -> float) :
  faithful pw ->
  exists x t U curves r,
    main (AF := ArithF th pw) (AP := PlotF) = Some (1001, x, t, U, curves) /\
    check_stability (AF := ArithF th pw) (lit (Arith := ArithF th pw) 0.05)
      (lit (Arith := ArithF th pw) 1.0) 1001 100
      (lit (Arith := ArithF th pw) 1.0) = Some (true, r) /\
    length U = 1002%nat /\
    Forall2 (fun idx curve =>
               exists row ti,
                 curve = (x, row, ti) /\ U !! idx = Some row /\
                 t !! idx = Some ti)
      [0; 200; 400; 601; 801; 1001]%nat curves.
Proof.
  intros Hpw.
  assert (Hfacts :
            main_Nt (AF := ArithF th pw) (AP := PlotF)
              (lit (Arith := ArithF th pw) 1.0)
              (lit (Arith := ArithF th pw) 1.0)
              (lit (Arith := ArithF th pw) 0.05) 100 = Some 1001 /\
            exists r,
              check_stability (AF := ArithF th pw)
                (lit (Arith := ArithF th pw) 0.05)
                (lit (Arith := ArithF th pw) 1.0) 1001 100
                (lit (Arith := ArithF th pw) 1.0) = Some (true, r)).
  { square_at Hpw (1 / 100)%float Hdx.
    destruct Hdx as [E|E];
      (split; [unfold main_Nt; run_chain E
              | eexists; unfold check_stability; run_chain E]). }
  destruct Hfacts as (HNt & r & Hc).
  destruct (solve_heat_equation_euler_spec (AF := ArithF th pw) _ _ _ _ _ true r
              Hc) as (U & Hcall & HlenU & _); [lia|].
  assert (Hrow : forall idx, (idx <= 1001)%nat -> exists row,
            U !! idx = Some row).
  { intros idx Hidx. apply lookup_lt_is_Some_2. lia. }
  destruct (Hrow 0%nat) as (row0 & Hr0); [lia|].
  destruct (Hrow 200%nat) as (row1 & Hr1); [lia|].
  destruct (Hrow 400%nat) as (row2 & Hr2); [lia|].
  destruct (Hrow 601%nat) as (row3 & Hr3); [lia|].
  destruct (Hrow 801%nat) as (row4 & Hr4); [lia|].
  destruct (Hrow 1001%nat) as (row5 & Hr5); [lia|].
  clear Hrow.
  eexists _, _, U, _, r.
  split; [|split; [exact Hc | split; [exact HlenU|]]].
  - unfold main.
    eapply bind_Some; [exact HNt | cbv beta].
    bind_closed.
    eapply bind_Some; [exact Hcall | cbv beta iota].
    eapply bind_Some; [|reflexivity].
    unfold plot_temperature_profiles, main_times.
    apply mapM_Some_2.
    repeat (econstructor;
            [bind_closed;
             (eapply bind_Some; [eassumption | cbv beta]);
             bind_closed; reflexivity|]).
    constructor.
  - repeat (constructor;
            [eexists _, _;
             (split; [reflexivity
                     | split; [eassumption | vm_compute; reflexivity]])|]).
    constructor.
Qed.

Lemma main_plots_six_rows_witness :
  exists x t U curves r,
    main (AF := ArithF (fun x => x) (fun x => PrimFloat.mul x x)) (AP := PlotF)
    = Some (1001, x, t, U, curves) /\
    check_stability (AF := ArithF (fun x => x) (fun x => PrimFloat.mul x x))
      (lit (Arith := ArithF (fun x => x) (fun x => PrimFloat.mul x x)) 0.05)
      (lit (Arith := ArithF (fun x => x) (fun x => PrimFloat.mul x x)) 1.0)
      1001 100
      (lit (Arith := ArithF (fun x => x) (fun x => PrimFloat.mul x x)) 1.0)
    = Some (true, r) /\
    length U = 1002%nat /\
    Forall2 (fun idx curve =>
               exists row ti,
                 curve = (x, row, ti) /\ U !! idx = Some row /\
                 t !! idx = Some ti)
      [0; 200; 400; 601; 801; 1001]%nat curves.
Proof.
  exact (main_plots_six_rows (fun x => x) (fun x => PrimFloat.mul x x)
           faithful_mul).
Defined.

(** ** Divisions by zero *)

(** X18.  A grid of one point or a run of zero steps makes [explicit_heat] raise
    ([dx = L / (Nx - 1)] and [dt = T / Nt] divide by zero), and zero grid
    points or zero steps make [check_stability], [analyze_stability] and
    [solve_heat_equation_euler] raise, whatever the other arguments: in
    exact arithmetic and in binary64. *)
Theorem zero_counts_raise :
  (forall (th : Q -> Q) (U_init : list Q) (Nx Nt : nat) (L T D U1 U2 : Q),
     explicit_heat (AF := ArithQ th) U_init 1 Nt L T D U1 U2 = None /\
     explicit_heat (AF := ArithQ th) U_init Nx 0 L T D U1 U2 = None /\
     check_stability (AF := ArithQ th) D T Nt 0 L = None /\
     check_stability (AF := ArithQ th) D T 0 Nx L = None /\
     analyze_stability (AF := ArithQ th) L T D Nt 0 = None /\
     analyze_stability (AF := ArithQ th) L T D 0 Nx = None /\
     solve_heat_equation_euler (AF := ArithQ th) L T D Nt 0 = None /\
     solve_heat_equation_euler (AF := ArithQ th) L T D 0 Nx = None) /\
  (forall (th pw : float -> float) (U_init : list float) (Nx Nt : nat)
          (L T D U1 U2 : float),
     explicit_heat (AF := ArithF th pw) U_init 1 Nt L T D U1 U2 = None /\
     explicit_heat (AF := ArithF th pw) U_init Nx 0 L T D U1 U2 = None /\
     check_stability (AF := ArithF th pw) D T Nt 0 L = None /\
     check_stability (AF := ArithF th pw) D T 0 Nx L = None /\
     analyze_stability (AF := ArithF th pw) L T D Nt 0 = None /\
     analyze_stability (AF := ArithF th pw) L T D 0 Nx = None /\
     solve_heat_equation_euler (AF := ArithF th pw) L T D Nt 0 = None /\
     solve_heat_equation_euler (AF := ArithF th pw) L T D 0 Nx = None).
Proof.
  assert (Hgen : forall (F : Type) (AF : Arith F),
            is_zero (of_int 0) = true ->
            forall (U_init : list F) (Nx Nt : nat) (L T D U1 U2 : F),
              explicit_heat U_init 1 Nt L T D U1 U2 = None /\
              explicit_heat U_init Nx 0 L T D U1 U2 = None /\
              check_stability D T Nt 0 L = None /\
              check_stability D T 0 Nx L = None /\
              analyze_stability L T D Nt 0 = None /\
              analyze_stability L T D 0 Nx = None /\
              solve_heat_equation_euler L T D Nt 0 = None /\
              solve_heat_equation_euler L T D 0 Nx = None).
  { intros F AF Hz U_init Nx Nt L T D U1 U2.
    assert (Hdiv : forall a : F, pydiv a (of_int 0) = None)
      by (intros a; unfold pydiv; rewrite Hz; reflexivity).
    assert (Hcheck0x : check_stability D T Nt 0 L = None).
    { unfold check_stability. change (Z.of_nat 0) with 0. rewrite Hdiv.
      destruct (pydiv T _); reflexivity. }
    assert (Hcheck0t : check_stability D T 0 Nx L = None).
    { unfold check_stability. change (Z.of_nat 0) with 0. rewrite Hdiv.
      reflexivity. }
    repeat split.
    - unfold explicit_heat, heat_ratio. change (Z.of_nat 1 - 1) with 0.
      rewrite Hdiv. reflexivity.
    - unfold explicit_heat, heat_ratio. change (Z.of_nat 0) with 0.
      rewrite Hdiv. destruct (pydiv L _); reflexivity.
    - exact Hcheck0x.
    - exact Hcheck0t.
    - unfold analyze_stability. change (Z.of_nat 0) with 0. rewrite Hdiv.
      destruct (pydiv T _); reflexivity.
    - unfold analyze_stability. change (Z.of_nat 0) with 0. rewrite Hdiv.
      reflexivity.
    - destruct (solve_heat_equation_euler L T D Nt 0) as [res|] eqn:Hs;
        [|reflexivity].
      destruct (solve_checks_stability _ _ _ _ _ _ Hs) as (ok & r & Hc).
      congruence.
    - destruct (solve_heat_equation_euler L T D 0 Nx) as [res|] eqn:Hs;
        [|reflexivity].
      destruct (solve_checks_stability _ _ _ _ _ _ Hs) as (ok & r & Hc).
      congruence. }
  split.
  - intros th. apply (Hgen Q (ArithQ th)). reflexivity.
  - intros th pw. apply (Hgen float (ArithF th pw)). reflexivity.
Qed.

(** ** The initial profiles between the boundary values *)

Section Profiles.
#[local] Existing Instance ArithR.

Lemma tanh_below (x : R) : (tanh x < 1)%R.
Proof.
  unfold tanh. pose proof (cosh_pos x) as Hc.
  apply (Rmult_lt_reg_r (cosh x)); [exact Hc|].
  unfold Rdiv. rewrite Rmult_assoc, Rinv_l by Lra.lra.
  unfold cosh, sinh. pose proof (exp_pos (- x)). Lra.lra.
Qed.

End Profiles.


